(** * convex-evals: the evaluation harness, embedded and verified

    A shallow embedding of the TypeScript harness
    (errors.ts, convex_backend.ts, typescript.ts, generate.ts, main.ts).

    Conventions of the embedding:
    - a JavaScript string is the list of its UTF-16 code units;
    - a promise is the outcome it settles to ([Resolved] / [Rejected]);
    - whatever the harness observes of the outside (exit codes of child
      processes, HTTP responses, the clock, directory listings) is read
      from an explicit environment, so that every theorem quantifies
      over all behaviours of the outside;
    - the effects the properties are about (file writes, process
      signals, report fields) are kept in explicit traces, in program
      order. *)

From Stdlib Require Import ZArith NArith Lia List Ascii String.
From stdpp Require Import base list sorting.

Local Open Scope Z_scope.

(** ** JavaScript strings *)

Module JS.

(** A string value: its UTF-16 code units. *)
Abbreviation jsstring := (list N).

(** Literals, written as ASCII text. *)
Definition lit (s : string) : jsstring :=
  map N_of_ascii (list_ascii_of_string s).

(** [WhiteSpace] and [LineTerminator] code points of ECMAScript
    (ECMA-262, 12.2 and 12.3): what [String.prototype.trim] strips. *)
Definition isWhiteSpace (c : N) : bool :=
  ((c =? 9) || (c =? 10) || (c =? 11) || (c =? 12) || (c =? 13)
   || (c =? 32) || (c =? 160) || (c =? 5760)
   || ((8192 <=? c) && (c <=? 8202))
   || (c =? 8232) || (c =? 8233) || (c =? 8239) || (c =? 8287)
   || (c =? 12288) || (c =? 65279))%N.

Fixpoint trimStart (s : jsstring) : jsstring :=
  match s with
  | c :: s' => if isWhiteSpace c then trimStart s' else s
  | [] => []
  end.

Definition trimEnd (s : jsstring) : jsstring := rev (trimStart (rev s)).

(** [s.trim()] *)
Definition trim (s : jsstring) : jsstring := trimEnd (trimStart s).

(** [s.startsWith(p)] *)
Fixpoint startsWith (s p : jsstring) : bool :=
  match p, s with
  | [], _ => true
  | a :: p', b :: s' => (a =? b)%N && startsWith s' p'
  | _ :: _, [] => false
  end.

(** [s.split(sep)] for a one-unit separator: never the empty array. *)
Fixpoint split (sep : N) (s : jsstring) : list jsstring :=
  match s with
  | [] => [[]]
  | c :: s' =>
      if (c =? sep)%N then [] :: split sep s'
      else match split sep s' with
           | w :: ws => (c :: w) :: ws
           | [] => [[c]]
           end
  end.

(** [parts.join(sep)] on an array of strings. *)
Fixpoint joinWith (sep : jsstring) (parts : list jsstring) : jsstring :=
  match parts with
  | [] => []
  | [w] => w
  | w :: ws => w ++ sep ++ joinWith sep ws
  end.

(** Decimal rendering of an integer, as template literals render an
    exit code. *)
Fixpoint digits (fuel : nat) (n : N) (acc : jsstring) : jsstring :=
  match fuel with
  | O => acc
  | S fuel' =>
      let acc' := (48 + n mod 10)%N :: acc in
      if (n <? 10)%N then acc' else digits fuel' (n / 10)%N acc'
  end.

Definition ofZ (z : Z) : jsstring :=
  let n := Z.to_N (Z.abs z) in
  let ds := digits (S (N.to_nat (N.log2 n))) n [] in
  if z <? 0 then 45%N :: ds else ds.

End JS.

Import JS.

Notation "'§' s" := (JS.lit s%string) (at level 1, format "'§' s").

Arguments JS.lit : simpl never.
Arguments JS.trim : simpl never.
Arguments JS.ofZ : simpl never.

(** ** Values, errors and the effect monad *)

Local Set Warnings "-register-all".

(** Values as [JSON.parse] returns them.  A number is kept by its
    canonical rendering (what [String(n)] gives): the harness never
    computes with diagnostics, it only moves them around. *)
Inductive JSON : Type :=
| JNull
| JBool (b : bool)
| JNum (rendering : jsstring)
| JStr (s : jsstring)
| JArr (items : list JSON)
| JObj (fields : list (jsstring * JSON)).

(** Exceptions.  [NewError m] is [new Error(m)], [NewVerificationError]
    the class of errors.ts; [TypeError] is raised by the runtime itself;
    [Thrown r] is any other exception of the runtime or of a library
    (a failed [fetch], a file-system error), known by its rendering
    [String(e) = r]. *)
Inductive JSError : Type :=
| NewError (message : jsstring)
| NewVerificationError (message : jsstring) (metadata : JSON)
| TypeError (message : jsstring)
| Thrown (rendering : jsstring).

(** How a promise (or a call) settles. *)
Inductive Outcome (A : Type) : Type :=
| Resolved (a : A)
| Rejected (e : JSError).
Arguments Resolved {A} a.
Arguments Rejected {A} e.

Inductive Stage := Setup | Typecheck | Lint | Deploy.

Global Instance Stage_eq_dec : EqDecision Stage.
Proof. solve_decision. Defined.

(** A stage field of a report entry: [{status}] or [{status, error}]. *)
Record StageStatus := { status : jsstring; error : option JSON }.

(** A report entry.  [category] and [test] come out of a destructuring
    and may be [undefined]; the stage fields are kept in the order in
    which they were assigned, which is the order of the object's keys. *)
Record ReportEntry := {
  category : option jsstring;
  test : option jsstring;
  stages : list (Stage * StageStatus)
}.

Inductive LogFile := StdoutLog | StderrLog.

(** Observable effects, in program order.  [Attempt] and [Record_] are
    ghost events: they mark the call of a stage function and the
    assignment of a stage field of the report entry. *)
Inductive Event : Type :=
| ConsoleLog (line : jsstring)
| ConsoleError (line : jsstring)
| ConsoleErrorValue (e : JSError)
| RmDir (path : jsstring)
| MkDir (path : jsstring)
| OpenLog (f : LogFile) (path : jsstring)
| CloseLog (f : LogFile)
| SpawnBackend (binary : jsstring) (args : list jsstring) (cwd : jsstring)
| KillBackend
| Run (cmd : jsstring) (args : list jsstring) (cwd : option jsstring)
| Fetch (url : jsstring)
| Sleep (ms : Z)
| WriteFile (path content : jsstring)
| WriteReport (path : jsstring) (report : list ReportEntry)
| Attempt (s : Stage) (dir : jsstring)
| Record_ (s : Stage) (st : StageStatus).

(** The state threaded through the program: the clock ([Date.now()], in
    milliseconds) and the effects so far, oldest first. *)
Record World := { now : Z; trace : list Event }.

(** A computation: from a world to a new world and the way the
    computation settled there, [None] when it has not settled (a promise
    that stays pending, a loop that outran its fuel). *)
Definition M (A : Type) : Type := World -> World * option (Outcome A).

Definition ret {A} (a : A) : M A := fun w => (w, Some (Resolved a)).
Definition throw {A} (e : JSError) : M A := fun w => (w, Some (Rejected e)).
Definition settle {A} (o : Outcome A) : M A := fun w => (w, Some o).
Definition pending {A} : M A := fun w => (w, None).

Definition bind {A B} (m : M A) (k : A -> M B) : M B := fun w =>
  match m w with
  | (w', Some (Resolved a)) => k a w'
  | (w', Some (Rejected e)) => (w', Some (Rejected e))
  | (w', None) => (w', None)
  end.

(** [try { m } catch (e) { h e }] *)
Definition tryCatch {A} (m : M A) (h : JSError -> M A) : M A := fun w =>
  match m w with
  | (w', Some (Rejected e)) => h e w'
  | r => r
  end.

(** [try { m } finally { f }]: [f] runs however [m] settles; an
    exception of [f] replaces the outcome of [m]. *)
Definition tryFinally {A} (m : M A) (f : M unit) : M A := fun w =>
  match m w with
  | (w', Some o) =>
      match f w' with
      | (w'', Some (Resolved _)) => (w'', Some o)
      | (w'', Some (Rejected e)) => (w'', Some (Rejected e))
      | (w'', None) => (w'', None)
      end
  | (w', None) => (w', None)
  end.

Definition emit (ev : Event) : M unit := fun w =>
  ({| now := now w; trace := trace w ++ [ev] |}, Some (Resolved tt)).

(** [Date.now()] *)
Definition dateNow : M Z := fun w => (w, Some (Resolved (now w))).

(** Time passing: an [await] that takes [ms] milliseconds. *)
Definition elapse (ms : Z) : M unit := fun w =>
  ({| now := now w + ms; trace := trace w |}, Some (Resolved tt)).

(** An operation on the file system or on a process: when [fault]
    gives it a system error (by its rendering) it raises that error, and
    else it takes effect. *)
Definition perform (fault : Event -> option jsstring) (ev : Event) : M unit :=
  match fault ev with
  | Some r => throw (Thrown r)
  | None => emit ev
  end.

Global Instance M_ret : MRet M := @ret.
Global Instance M_bind : MBind M := fun A B k m => bind m k.

(** *** errors.ts *)

(** [ToString] of a value.  An object from [JSON.parse] renders as
    [[object Object]], unless it has a [toString] key of its own: the
    value under it cannot be called and the conversion raises a
    [TypeError] ([None]).  An array renders as its own comma join, in
    which [null] gives the empty string. *)
Fixpoint toStringValue (v : JSON) : option jsstring :=
  match v with
  | JNull => Some (§"null")
  | JBool true => Some (§"true")
  | JBool false => Some (§"false")
  | JNum r => Some r
  | JStr s => Some s
  | JArr items =>
      joinWith (§",") <$>
        (fix elements (l : list JSON) : option (list jsstring) :=
           match l with
           | [] => Some []
           | x :: l' =>
               match match x with JNull => Some [] | _ => toStringValue x end with
               | Some s => cons s <$> elements l'
               | None => None
               end
           end) items
  | JObj fields =>
      if bool_decide (§"toString" ∈ fields.*1) then None
      else Some (§"[object Object]")
  end.

(** The strings [Array.prototype.join] puts together. *)
Fixpoint elementStrings (items : list JSON) : option (list jsstring) :=
  match items with
  | [] => Some []
  | x :: rest =>
      match match x with JNull => Some [] | _ => toStringValue x end with
      | Some s => cons s <$> elementStrings rest
      | None => None
      end
  end.

(** [items.join(sep)] *)
Definition arrayJoin (sep : jsstring) (items : list JSON) : option jsstring :=
  joinWith sep <$> elementStrings items.

(** [String(e)].  For a [VerificationError] this is the class's own
    [toString], [`${this.message}\n${this.metadata.join("\n")}`]: when
    [metadata] is not an array there is no [join] to call and the
    rendering itself raises a [TypeError]. *)
Definition toString (e : JSError) : Outcome jsstring :=
  match e with
  | NewError [] => Resolved (§"Error")
  | NewError m => Resolved (§"Error: " ++ m)
  | NewVerificationError m (JArr items) =>
      match arrayJoin [10%N] items with
      | Some lines => Resolved (m ++ [10%N] ++ lines)
      | None =>
          Rejected (TypeError (§"Cannot convert object to primitive value"))
      end
  | NewVerificationError _ _ =>
      Rejected (TypeError (§"this.metadata.join is not a function"))
  | TypeError [] => Resolved (§"TypeError")
  | TypeError m => Resolved (§"TypeError: " ++ m)
  | Thrown r => Resolved r
  end.

(** [errorStatus(error)] *)
Definition errorStatus (e : JSError) : Outcome StageStatus :=
  match e with
  | NewVerificationError _ metadata =>
      Resolved {| status := §"failed"; error := Some metadata |}
  | _ =>
      match toString e with
      | Resolved s => Resolved {| status := §"failed"; error := Some (JStr s) |}
      | Rejected e' => Rejected e'
      end
  end.

(** ** Paths: [path.join] on a POSIX host *)

Module Path.

Definition dot : jsstring := §".".
Definition dotdot : jsstring := §"..".
Definition slash : N := 47%N.

(** One segment against the segments kept so far (most recent first):
    empty and [.] segments vanish, [..] removes the previous segment when
    there is one to remove and is kept only above a relative root. *)
Definition step (allowAboveRoot : bool) (kept : list jsstring) (seg : jsstring)
  : list jsstring :=
  if bool_decide (seg = []) || bool_decide (seg = dot) then kept
  else if bool_decide (seg = dotdot) then
    match kept with
    | top :: rest =>
        if bool_decide (top = dotdot)
        then (if allowAboveRoot then dotdot :: kept else kept)
        else rest
    | [] => if allowAboveRoot then [dotdot] else []
    end
  else seg :: kept.

Definition normalizeString (allowAboveRoot : bool) (path : jsstring) : jsstring :=
  joinWith [slash] (rev (fold_left (step allowAboveRoot) (split slash path) [])).

(** [path.normalize(p)] *)
Definition normalize (path : jsstring) : jsstring :=
  match path with
  | [] => dot
  | c :: _ =>
      let isAbsolute := (c =? slash)%N in
      let trailingSeparator := bool_decide (last path = Some slash) in
      let p := normalizeString (negb isAbsolute) path in
      match p with
      | [] => if isAbsolute then [slash]
              else if trailingSeparator then §"./" else dot
      | _ =>
          let p' := if trailingSeparator then p ++ [slash] else p in
          if isAbsolute then slash :: p' else p'
      end
  end.

(** [path.join(...args)]: the non-empty arguments, separated by [/],
    normalised. *)
Definition join (args : list jsstring) : jsstring :=
  match filter (fun a => a <> []) args with
  | [] => dot
  | parts => normalize (joinWith [slash] parts)
  end.

End Path.

Arguments Path.join : simpl never.

(** ** typescript.ts *)

(** How a child process ends: its exit code ([null] when a signal ended
    it) and what it wrote to stdout and stderr, as the [data] handlers
    accumulate it. *)
Record ProcExit := { code : option Z; output : jsstring }.

(** [`${code}`] *)
Definition showCode (c : option Z) : jsstring :=
  match c with Some z => JS.ofZ z | None => §"null" end.

(** [delete error.source] on one element of the parsed output. *)
Definition deleteSource (error : JSON) : Outcome JSON :=
  match error with
  | JNull => Rejected (TypeError (§"null is not an object"))
  | JObj fields =>
      Resolved (JObj (filter (fun kv => kv.1 <> §"source") fields))
  | other => Resolved other
  end.

Fixpoint deleteSources (items : list JSON) : Outcome (list JSON) :=
  match items with
  | [] => Resolved []
  | x :: rest =>
      match deleteSource x with
      | Rejected e => Rejected e
      | Resolved x' =>
          match deleteSources rest with
          | Rejected e => Rejected e
          | Resolved rest' => Resolved (x' :: rest')
          end
      end
  end.

(** [for (const error of errors) delete error.source;]: arrays and
    strings are iterable (a string yields primitive strings, which have
    no [source] to delete); anything else raises. *)
Definition stripErrors (errors : JSON) : Outcome JSON :=
  match errors with
  | JArr items =>
      match deleteSources items with
      | Resolved items' => Resolved (JArr items')
      | Rejected e => Rejected e
      end
  | JStr s => Resolved (JStr s)
  | _ => Rejected (TypeError (§"errors is not iterable"))
  end.

Section Typescript.

(** The child processes: how the process started by [spawn(cmd, args,
    {cwd})] ends, [None] when its [close] event never comes (so also
    for a child that cannot be started: it emits ['error'], for which no
    listener is set, and the runtime ends the program there). *)
Variable exec : jsstring -> list jsstring -> option jsstring -> option ProcExit.

(** [JSON.parse], [None] when it raises [SyntaxError]. *)
Variable JSON_parse : jsstring -> option JSON.

(** [spawn(...)] and the wait for its [close] event. *)
Definition spawnClose (cmd : jsstring) (args : list jsstring)
    (cwd : option jsstring) : M ProcExit :=
  emit (Run cmd args cwd);;
  match exec cmd args cwd with
  | Some r => mret r
  | None => pending
  end.

Definition setupJs (outputDir : jsstring) : M unit :=
  let projectDir := Path.join [outputDir; §"project"] in
  r ← spawnClose (§"bun") [§"install"] (Some projectDir);
  (if bool_decide (code r = Some 0)
   then emit (ConsoleLog (§"Install OK!"))
   else throw (NewError (§"Install failed with code " ++ showCode (code r))));;
  r ← spawnClose (§"bunx")
        [§"convex"; §"codegen"; §"--typecheck"; §"disable"; §"--init"]
        (Some projectDir);
  if bool_decide (code r = Some 0)
  then emit (ConsoleLog (§"Codegen OK!"))
  else throw (NewError (§"Codegen failed with code " ++ showCode (code r))).

Definition typecheckJs (outputDir : jsstring) : M unit :=
  let convexDir := Path.join [outputDir; §"project"; §"convex"] in
  r ← spawnClose (§"bunx") [§"tsc"; §"-noEmit"; §"-p"; convexDir] None;
  if bool_decide (code r = Some 0)
  then emit (ConsoleLog (§"Typecheck OK!"))
  else throw (NewVerificationError (§"Typechecking failed")
                (JArr (map JStr (JS.split 10 (output r))))).

Definition lintJs (outputDir : jsstring) : M unit :=
  let convexDir := Path.join [outputDir; §"project"; §"convex"] in
  r ← spawnClose (§"bunx")
        [§"eslint"; §"-c"; §"eslint.config.mjs"; convexDir] None;
  if bool_decide (code r = Some 0)
  then emit (ConsoleLog (§"ESLint OK!"))
  else
    let fallback : M unit :=
      throw (NewError (§"ESLint failed with output: " ++ output r)) in
    match JSON_parse (output r) with
    | Some errors =>
        match stripErrors errors with
        | Resolved errors' =>
            throw (NewVerificationError (§"Linting failed") errors')
        | Rejected _ => fallback
        end
    | None => fallback
    end.

End Typescript.

(** ** convex_backend.ts *)

(** What one [fetch] of the version endpoint comes to: a response with
    its HTTP status, or an exception (connection refused, reset, ...). *)
Inductive FetchOutcome :=
| Response (httpStatus : Z)
| FetchFailed (rendering : jsstring).

Record FetchResult := { took : Z; outcome : FetchOutcome }.

(** [response.ok] *)
Definition responseOk (httpStatus : Z) : bool :=
  (200 <=? httpStatus) && (httpStatus <=? 299).

Definition totalTimeout : Z := 10000.
Definition baseDelay : Z := 100.

Definition versionUrl : jsstring := §"http://localhost:3210/version".

Definition instanceName : jsstring := §"carnitas".
Definition instanceSecret : jsstring :=
  §"4361726e697461732c206c69746572616c6c79206d65616e696e6720226c6974".
Definition adminKey : jsstring :=
  §"0135d8598650f8f5cb0f30c34ec2e2bb62793bc28717c8eb6fb577996d50be5f4281b59181095065c5d0f86a2c31ddbe9b597ec62b47ded69782cd".

Section Backend.

(** The [n]-th [fetch] of one health check (from 0): how long it takes
    and what it gives. *)
Variable fetchVersion : nat -> FetchResult.

(** By how much the [n]-th timer of one health check fires late. *)
Variable timerLate : nat -> Z.

(** [convexProcess.exitCode] as read at a given time: [None] is [null],
    the process is still running. *)
Variable backendExitCode : Z -> option Z.

(** [spawnSync]: how the deploy command ends, [None] when it never
    returns. *)
Variable exec : jsstring -> list jsstring -> option jsstring -> option ProcExit.

(** The system errors of file-system and process operations. *)
Variable fault : Event -> option jsstring.

(** [process.cwd()] *)
Variable processCwd : jsstring.

(** One pass through the [try] block of the loop: the [fetch], then the
    test of [response.ok]. *)
Definition probe (n : nat) : M bool :=
  emit (Fetch versionUrl);;
  elapse (took (fetchVersion n));;
  match outcome (fetchVersion n) with
  | Response st =>
      if responseOk st then mret true
      else throw (NewError (§"HTTP " ++ JS.ofZ st))
  | FetchFailed r => throw (Thrown r)
  end.

(** [await new Promise((resolve) => setTimeout(resolve, ms))] *)
Definition sleep (n : nat) (ms : Z) : M unit :=
  emit (Sleep ms);; elapse (ms + timerLate n).

(** The [while (true)] loop, [fuel] bounding its iterations.
    [100 * Math.pow(2, numAttempts)] is exact in floating point until
    it overflows to [Infinity], far above any [remaining]: the minimum
    is the one of the integers. *)
Fixpoint healthCheckLoop (fuel : nat) (deadline : Z) (numAttempts : nat)
  : M bool :=
  match fuel with
  | O => pending
  | S fuel' =>
      tryCatch (probe numAttempts) (fun e =>
        t ← dateNow;
        let remaining := deadline - t in
        if remaining <? 0 then throw e
        else
          sleep numAttempts
            (Z.min (baseDelay * 2 ^ Z.of_nat numAttempts) remaining);;
          healthCheckLoop fuel' deadline (S numAttempts))
  end.

Definition healthCheck (fuel : nat) : M bool :=
  t ← dateNow;
  healthCheckLoop fuel (t + totalTimeout) 0.

Definition spawnSync (cmd : jsstring) (args : list jsstring)
    (cwd : option jsstring) : M ProcExit :=
  emit (Run cmd args cwd);;
  match exec cmd args cwd with
  | Some r => mret r
  | None => pending
  end.

(** The [finally] block.  [kill()] and [close()] are taken not to raise. *)
Definition release : M unit :=
  emit KillBackend;;
  emit (CloseLog StdoutLog);;
  emit (CloseLog StderrLog).

(** The first [await] of a computation, reached with a child process
    that could not be started.  [spawn] returns a child in that case
    too, and the child emits ['error'] at the next tick; the program
    listens for no such event, so the runtime raises it as an uncaught
    exception and ends the process, with status 1.  The computation has
    made its first request by then and nothing of the program runs after
    that: no [catch], no [finally]. *)
Definition endedBy (childError : option jsstring) (m : M bool) : M bool :=
  match childError with
  | Some _ => emit (Fetch versionUrl);; pending
  | None => m
  end.

(** [fault] on the [SpawnBackend] event is the error the child emits
    when it cannot be started; [spawn] itself does not raise. *)
Definition deploy (fuel : nat) (outputDir : jsstring) : M unit :=
  let projectDir := Path.join [outputDir; §"project"] in
  let backendDir := Path.join [outputDir; §"backend"] in
  perform fault (MkDir backendDir);;
  let storageDir := Path.join [backendDir; §"convex_local_storage"] in
  perform fault (MkDir storageDir);;
  let sqlitePath := Path.join [backendDir; §"convex_local_backend.sqlite3"] in
  let convexBinary := Path.join [processCwd; §"convex-local-backend"] in
  perform fault (OpenLog StdoutLog (Path.join [backendDir; §"backend.stdout.log"]));;
  perform fault (OpenLog StderrLog (Path.join [backendDir; §"backend.stderr.log"]));;
  let convexProcess :=
    SpawnBackend convexBinary
      [§"--port"; §"3210"; §"--site-proxy-port"; §"3211";
       §"--instance-name"; instanceName;
       §"--instance-secret"; instanceSecret;
       §"--local-storage"; storageDir; sqlitePath]
      backendDir in
  emit convexProcess;;
  tryFinally
    (endedBy (fault convexProcess) (healthCheck fuel);;
     t ← dateNow;
     match backendExitCode t with
     | Some _ => throw (NewError (§"Convex process failed to start"))
     | None =>
         result ← spawnSync (§"bunx")
                    [§"convex"; §"dev"; §"--once"; §"--admin-key"; adminKey;
                     §"--url"; §"http://localhost:3210"]
                    (Some projectDir);
         if bool_decide (code result = Some 0)
         then emit (ConsoleLog (§"Deploy OK!"))
         else throw (NewError (§"Deploy failed with code "
                                ++ showCode (code result)))
     end)
    release.

End Backend.

(** ** generate.ts *)

(** One block of [message.content]. *)
Inductive ContentBlock :=
| TextBlock (text : jsstring)
| OtherBlock.

(** A [<file>] element of the parsed response: [$(fileTag).attr("path")]
    ([None] is [undefined]) and [$(fileTag).text()]. *)
Record FileTag := { attrPath : option jsstring; tagText : jsstring }.

Section Generate.

(** Reading [PROMPT.txt] under the input directory and asking the
    model: the message content that comes back, an exception, or
    [None] while the request stays pending. *)
Variable askModel : jsstring -> option (Outcome (list ContentBlock)).

(** [JSON.stringify(message.content)] *)
Variable stringifyContent : list ContentBlock -> jsstring.

(** [load(text)] and [$("file").toArray()] *)
Variable fileTags : jsstring -> list FileTag.

(** The text of [(Date.now() - start) / 1000]. *)
Variable secondsText : Z -> jsstring.

Variable fault : Event -> option jsstring.

(** The [for] loop over the file tags; [generated] is the running sum. *)
Fixpoint writeFiles (projectDir : jsstring) (tags : list FileTag)
    (generated : Z) : M Z :=
  match tags with
  | [] => mret generated
  | fileTag :: rest =>
      match attrPath fileTag with
      | None | Some [] => throw (NewError (§"File path is not set"))
      | Some path =>
          emit (ConsoleLog (§"Writing " ++ path ++ §"..."));;
          let absFilePath := Path.join [projectDir; path] in
          if negb (JS.startsWith absFilePath projectDir)
          then throw (NewError (§"File path " ++ absFilePath
                                 ++ §" is not underneath " ++ projectDir))
          else
            perform fault (MkDir (Path.join [absFilePath; §".."]));;
            let content := JS.trim (tagText fileTag) in
            perform fault (WriteFile absFilePath content);;
            writeFiles projectDir rest (generated + Z.of_nat (length content))
      end
  end.

Definition generateTest (inputDir outputRoot : jsstring) : M unit :=
  start ← dateNow;
  content ← (match askModel inputDir with
             | Some o => settle o
             | None => pending
             end);
  match content with
  | [TextBlock text] =>
      let tags := fileTags (§"<analysis>" ++ text) in
      let projectDir := Path.join [outputRoot; §"project"] in
      perform fault (MkDir projectDir);;
      generated ← writeFiles projectDir tags 0;
      t ← dateNow;
      emit (ConsoleLog (§"Generated " ++ JS.ofZ generated ++ §" bytes in "
                        ++ secondsText (t - start) ++ §" seconds to "
                        ++ outputRoot))
  | _ =>
      throw (NewError (§"Message content is not text: "
                       ++ stringifyContent content))
  end.

End Generate.

(** ** main.ts *)

(** The options as [commander] hands them over; an absent option is
    [undefined]. *)
Record Options := {
  force : bool;
  evalsDir : jsstring;
  outputDir : option jsstring;
  testFilter : option jsstring;
  skipGeneration : bool;
  skipEvaluation : bool;
  concurrency : jsstring;
  report : option jsstring
}.

(** Truthiness of an optional string: [undefined] and the empty string
    are falsy. *)
Definition truthy (s : option jsstring) : bool :=
  match s with
  | Some (_ :: _) => true
  | _ => false
  end.

(** Every object is truthy, an empty array included. *)
Definition truthyArray {A} (a : list A) : bool := true.

(** The order of the default [Array.prototype.sort]: strings compared
    code unit by code unit. *)
Fixpoint leb (a b : jsstring) : bool :=
  match a, b with
  | [], _ => true
  | _ :: _, [] => false
  | x :: a', y :: b' =>
      if (x <? y)%N then true
      else if (y <? x)%N then false
      else leb a' b'
  end.

Definition jsLe (a b : jsstring) : Prop := leb a b = true.

Global Instance jsLe_dec : RelDecision jsLe.
Proof. intros a b. unfold jsLe. apply _. Defined.

(** [array.sort()] on an array of strings. *)
Definition sortStrings (l : list jsstring) : list jsstring := merge_sort jsLe l.

Definition isHighSurrogate (c : N) : bool := ((55296 <=? c) && (c <=? 56319))%N.
Definition isLowSurrogate (c : N) : bool := ((56320 <=? c) && (c <=? 57343))%N.

(** The string iterator: one string per code point, a surrogate pair
    staying together. *)
Fixpoint codePoints (s : jsstring) : list jsstring :=
  match s with
  | [] => []
  | c :: s' =>
      match s' with
      | d :: s'' =>
          if isHighSurrogate c && isLowSurrogate d
          then [c; d] :: match codePoints s' with
                         | _ :: rest => rest
                         | [] => []
                         end
          else [c] :: codePoints s'
      | [] => [[c]]
      end
  end.

(** [const [category, test] = t] for a string [t]. *)
Definition destructure (t : jsstring) : option jsstring * option jsstring :=
  (codePoints t !! 0%nat, codePoints t !! 1%nat).

(** [`${x}`] *)
Definition show (x : option jsstring) : jsstring :=
  match x with Some s => s | None => §"undefined" end.

(** [path.join] checks its arguments before it joins them. *)
Fixpoint strings (args : list (option jsstring)) : option (list jsstring) :=
  match args with
  | [] => Some []
  | Some a :: rest => cons a <$> strings rest
  | None :: _ => None
  end.

Definition joinArgs (args : list (option jsstring)) : Outcome jsstring :=
  match strings args with
  | Some l => Resolved (Path.join l)
  | None =>
      Rejected (TypeError
        (§"The path argument must be of type string. Received undefined"))
  end.

Definition okStatus : StageStatus := {| status := §"ok"; error := None |}.
Definition failedStatus (msg : jsstring) : StageStatus :=
  {| status := §"failed"; error := Some (JStr msg) |}.

(** [reportEntry.<stage> = st] *)
Definition setStage (s : Stage) (st : StageStatus) (e : ReportEntry) : ReportEntry :=
  {| category := category e; test := test e;
     stages := if bool_decide (s ∈ (stages e).*1)
               then map (fun kv => if bool_decide (kv.1 = s) then (s, st) else kv)
                        (stages e)
               else stages e ++ [(s, st)] |}.

Definition getStage (s : Stage) (e : ReportEntry) : option StageStatus :=
  snd <$> find (fun kv => bool_decide (kv.1 = s)) (stages e).

(** A rest that is run: how it settles, [None] if it does not. *)
Definition started {A} (m : M A) : M (option (Outcome A)) := fun w =>
  let (w', r) := m w in (w', Some (Resolved r)).

(** [Promise.all]: rejected as soon as one promise is, fulfilled when
    all are, pending otherwise. *)
Definition promiseAll {A} (ps : list (option (Outcome A))) : M unit :=
  match find (fun p => match p with Some (Rejected _) => true | _ => false end) ps with
  | Some (Some (Rejected e)) => throw e
  | _ => if forallb (fun p => match p with Some _ => true | None => false end) ps
         then mret tt else pending
  end.

Section Main.

(** [process.env.ANTHROPIC_API_KEY] *)
Variable apiKey : option jsstring.

(** [execSync("git rev-parse HEAD").toString()] *)
Variable gitRevParse : Outcome jsstring.

(** [new RegExp(pattern)], as the predicate [test]; it raises on a
    malformed pattern. *)
Variable newRegExp : jsstring -> Outcome (jsstring -> bool).

(** [readdirSync(dir)] *)
Variable readdirSync : jsstring -> Outcome (list jsstring).

Variable fault : Event -> option jsstring.

(** The imported functions. *)
Variable generateTest : jsstring -> jsstring -> M unit.
Variables setupJs typecheckJs lintJs deploy : jsstring -> M unit.

(** What the callback given to the outer [filter] returns for one
    category. *)
Definition categoryTests (evalsDir : jsstring)
    (testFilter : option (jsstring -> bool)) (category : jsstring)
  : list (jsstring * jsstring) :=
  match readdirSync (Path.join [evalsDir; category]) with
  | Resolved names =>
      map (fun test => (category, test))
        (filter (fun test =>
                   match testFilter with
                   | None => true
                   | Some re => re test
                   end = true) names)
  | Rejected _ => []
  end.

(** [readdirSync(evalsDir).filter(...).flat().sort()]: the callback's
    array is only tested for truthiness, so the elements stay the
    directory names, which [flat] leaves alone. *)
Definition discover (evalsDir : jsstring)
    (testFilter : option (jsstring -> bool)) : Outcome (list jsstring) :=
  match readdirSync evalsDir with
  | Resolved names =>
      Resolved
        (sortStrings
           (filter (fun category =>
                      truthyArray (categoryTests evalsDir testFilter category) = true)
                   names))
  | Rejected e => Rejected e
  end.

(** The callback of [tests.map(async ([category, test]) => ...)].  A
    call of an [async] function runs to its first [await] and hands back
    the rest as a promise: the call is a computation that gives the
    rest.  Here the call joins the path and logs; the rest is the
    [try]/[catch] around [generateTest].  ([generateTest] reads the clock
    before its own first [await]; nothing in the generation phase moves
    the clock, so the rest reads the same time.) *)
Definition generateOne (evalsDir outputDir : jsstring) (t : jsstring)
  : M (M unit) :=
  let '(category, test) := destructure t in
  testDir ← settle (joinArgs [Some evalsDir; category; test]);
  emit (ConsoleLog (§"Generating " ++ testDir ++ §"..."));;
  mret (tryCatch (generateTest testDir outputDir) (fun e =>
          msg ← settle (toString e);
          emit (ConsoleError (§"Error generating " ++ testDir ++ §": " ++ msg));;
          throw e)).

(** [calls.map(call)]: every call runs to its first [await], in order.
    An exception raised before the first [await] does not leave the
    call: it gives a rejected promise, and the next call is made. *)
Fixpoint callAll {A} (calls : list (M (M A))) : M (list (Outcome (M A))) :=
  match calls with
  | [] => mret []
  | call :: rest =>
      p ← tryCatch (k ← call; mret (Resolved k)) (fun e => mret (Rejected e));
      ps ← callAll rest;
      mret (p :: ps)
  end.

(** The rests run when what they wait for arrives: here one after the
    other, in the order of the calls, each up to its end (one of the
    schedules the runtime may choose: the answer to a request and the
    writes that follow it come before the answer to the next request).
    The run stops at the first rejection, where [Promise.all] settles:
    the rests after it are still in flight, [None]. *)
Fixpoint runAll {A} (rests : list (M A)) : M (list (option (Outcome A))) :=
  match rests with
  | [] => mret []
  | k :: rests' =>
      r ← started k;
      match r with
      | Some (Rejected _) => mret (r :: map (fun _ => None) rests')
      | _ => rs ← runAll rests'; mret (r :: rs)
      end
  end.

Definition rejectedCall {A} (p : Outcome (M A)) : bool :=
  match p with Rejected _ => true | Resolved _ => false end.

(** The promises of the calls, as they are when [Promise.all] over them
    settles, or all of them have.  A promise that was rejected before the
    first [await] settles [Promise.all] before any rest has run.  What is
    still in flight then goes on after [main] has settled; the world
    given here is the one in which [main] goes on. *)
Definition startAll {A} (calls : list (M (M A)))
  : M (list (option (Outcome A))) :=
  promises ← callAll calls;
  if existsb rejectedCall promises
  then mret (map (fun p => match p with
                           | Rejected e => Some (Rejected e)
                           | Resolved _ => None
                           end) promises)
  else runAll (omap (fun p => match p with
                              | Resolved k => Some k
                              | Rejected _ => None
                              end) promises).

Definition generation (options : Options) (outputDir : jsstring)
    (tests : list jsstring) : M unit :=
  (if force options
   then tryCatch (perform fault (RmDir outputDir)) (fun _ => mret tt)
   else mret tt);;
  perform fault (MkDir outputDir);;
  promises ← startAll (map (generateOne (evalsDir options) outputDir) tests);
  tryCatch (promiseAll promises)
    (fun _ => throw (NewError (§"Generation failed."))).

(** One of the four [try]/[catch] blocks of the loop body; they differ
    in the stage only. *)
Definition runStage (s : Stage) (run : jsstring -> M unit) (dir : jsstring)
    (st : ReportEntry * bool) : M (ReportEntry * bool) :=
  emit (Attempt s dir);;
  tryCatch
    (run dir;;
     emit (Record_ s okStatus);;
     mret (setStage s okStatus st.1, st.2))
    (fun e =>
       msg ← settle (toString e);
       emit (Record_ s (failedStatus msg));;
       mret (setStage s (failedStatus msg) st.1, false)).

(** [reportEntry.setup?.status === "ok"] *)
Definition setupOk (e : ReportEntry) : bool :=
  match getStage Setup e with
  | Some st => bool_decide (status st = §"ok")
  | None => false
  end.

(** The body of the evaluation loop, up to [report.push]: the entry and
    [allOk]. *)
Definition evaluateOne (outputDir : jsstring) (t : jsstring)
  : M (ReportEntry * bool) :=
  let '(category, test) := destructure t in
  emit (ConsoleLog (§"Evaluating " ++ show category ++ §"/" ++ show test ++ §"..."));;
  testOutputDir ← settle (joinArgs [Some outputDir; Some (§"evals"); category; test]);
  let reportEntry := {| category := category; test := test; stages := [] |} in
  st ← runStage Setup setupJs testOutputDir (reportEntry, true);
  if setupOk st.1 then
    st ← runStage Typecheck typecheckJs testOutputDir st;
    st ← runStage Lint lintJs testOutputDir st;
    runStage Deploy deploy testOutputDir st
  else mret st.

Fixpoint evaluateAll (outputDir : jsstring) (tests : list jsstring)
    (anyFailed : bool) (report : list ReportEntry)
  : M (bool * list ReportEntry) :=
  match tests with
  | [] => mret (anyFailed, report)
  | t :: rest =>
      '(reportEntry, allOk) ← evaluateOne outputDir t;
      evaluateAll outputDir rest
        (if negb allOk then true else anyFailed) (report ++ [reportEntry])
  end.

Definition evaluation (options : Options) (outputDir : jsstring)
    (tests : list jsstring) : M unit :=
  '(anyFailed, entries) ← evaluateAll outputDir tests false [];
  (match report options with
   | Some (c :: p) => perform fault (WriteReport (c :: p) entries)
   | _ => mret tt
   end);;
  if anyFailed : bool then throw (NewError (§"Evaluation failed."))
  else mret tt.

Definition main (options : Options) : M unit :=
  (if truthy apiKey then mret tt
   else throw (NewError (§"ANTHROPIC_API_KEY is not set")));;
  let doGeneration := negb (skipGeneration options) in
  let doEvaluation := negb (skipEvaluation options) in
  outputDir ← (match outputDir options with
               | Some (c :: d) => mret (c :: d)
               | _ => gitRev ← settle gitRevParse;
                      mret (§"output-" ++ JS.trim gitRev)
               end);
  testFilter ← (match testFilter options with
                | Some (c :: p) => re ← settle (newRegExp (c :: p)); mret (Some re)
                | _ => mret None
                end);
  tests ← settle (discover (evalsDir options) testFilter);
  (if doGeneration then generation options outputDir tests else mret tt);;
  if doEvaluation then evaluation options outputDir tests else mret tt.

(** [main().catch(console.error)], up to the point where the top-level
    promise settles.  Generations that are still in flight when [main]
    is rejected go on after that point; their effects are not part of
    the world given here. *)
Definition program (options : Options) : M unit :=
  tryCatch (main options) (fun e => emit (ConsoleErrorValue e)).

(** The exit status of the process once the top-level promise has
    settled: the program never sets [process.exitCode] nor calls
    [process.exit], so it is 0 unless a rejection went unhandled.
    [None]: the promise does not settle, because the program waits for
    ever or because the runtime has ended the process (see [endedBy]). *)
Definition exitStatus (r : option (Outcome unit)) : option Z :=
  match r with
  | Some (Resolved _) => Some 0
  | Some (Rejected _) => Some 1
  | None => None
  end.

End Main.

(** * Properties *)

(** ** Reasoning about computations *)

(** Literals stay folded in proofs; they still compute. *)
Global Opaque JS.lit.

Ltac unfold_monad :=
  unfold mbind, mret, M_bind, M_ret, bind, ret, throw, settle, pending,
    tryCatch, tryFinally, emit, dateNow, elapse, perform in *.

(** [emits P m]: whatever the world, [m] only appends to the trace, and
    only events that satisfy [P]. *)
Definition emits {A} (P : Event -> Prop) (m : M A) : Prop :=
  forall w, exists new, trace (m w).1 = trace w ++ new /\ Forall P new.

Lemma emits_mono {A} (P Q : Event -> Prop) (m : M A) :
  (forall ev, P ev -> Q ev) -> emits P m -> emits Q m.
Proof.
  intros HPQ Hm w. destruct (Hm w) as (new & Htr & Hall).
  exists new. split; [done|]. eapply Forall_impl; eauto.
Qed.

Lemma emits_ret {A} P (a : A) : emits P (mret a).
Proof. intros w. exists []. rewrite app_nil_r. by split. Qed.

Lemma emits_throw {A} P e : emits P (@throw A e).
Proof. intros w. exists []. rewrite app_nil_r. by split. Qed.

Lemma emits_settle {A} P (o : Outcome A) : emits P (settle o).
Proof. intros w. exists []. rewrite app_nil_r. by split. Qed.

Lemma emits_pending {A} P : emits P (@pending A).
Proof. intros w. exists []. rewrite app_nil_r. by split. Qed.

Lemma emits_dateNow P : emits P dateNow.
Proof. intros w. exists []. rewrite app_nil_r. by split. Qed.

Lemma emits_elapse P ms : emits P (elapse ms).
Proof. intros w. exists []. simpl. rewrite app_nil_r. by split. Qed.

Lemma emits_emit (P : Event -> Prop) ev : P ev -> emits P (emit ev).
Proof. intros HP w. exists [ev]. split; [done|]. by constructor. Qed.

Lemma emits_perform (P : Event -> Prop) fault ev :
  P ev -> emits P (perform fault ev).
Proof.
  intros HP. unfold perform. destruct (fault ev).
  - apply emits_throw.
  - by apply emits_emit.
Qed.

Lemma emits_bind {A B} P (m : M A) (k : A -> M B) :
  emits P m -> (forall a, emits P (k a)) -> emits P (m ≫= k).
Proof.
  intros Hm Hk w. unfold mbind, M_bind, bind.
  destruct (Hm w) as (n1 & Htr1 & Hall1).
  destruct (m w) as [w1 [[a|e]|]]; simpl in *.
  - destruct (Hk a w1) as (n2 & Htr2 & Hall2).
    exists (n1 ++ n2). rewrite Htr2, Htr1, app_assoc.
    split; [done|]. by apply Forall_app.
  - by exists n1.
  - by exists n1.
Qed.

Lemma emits_tryCatch {A} P (m : M A) (h : JSError -> M A) :
  emits P m -> (forall e, emits P (h e)) -> emits P (tryCatch m h).
Proof.
  intros Hm Hh w. unfold tryCatch.
  destruct (Hm w) as (n1 & Htr1 & Hall1).
  destruct (m w) as [w1 [[a|e]|]]; simpl in *.
  - by exists n1.
  - destruct (Hh e w1) as (n2 & Htr2 & Hall2).
    exists (n1 ++ n2). rewrite Htr2, Htr1, app_assoc.
    split; [done|]. by apply Forall_app.
  - by exists n1.
Qed.

Lemma emits_tryFinally {A} P (m : M A) (f : M unit) :
  emits P m -> emits P f -> emits P (tryFinally m f).
Proof.
  intros Hm Hf w. unfold tryFinally.
  destruct (Hm w) as (n1 & Htr1 & Hall1).
  destruct (m w) as [w1 [o|]]; simpl in *.
  - destruct (Hf w1) as (n2 & Htr2 & Hall2).
    exists (n1 ++ n2).
    destruct (f w1) as [w2 [[[]|e]|]]; simpl in *;
      rewrite Htr2, Htr1, app_assoc; (split; [done|]); by apply Forall_app.
  - by exists n1.
Qed.

Create HintDb emits.
#[export] Hint Resolve emits_ret emits_throw emits_settle emits_pending
  emits_dateNow emits_elapse : emits.

(** ** String trimming *)

Lemma trimStart_head s c :
  head (JS.trimStart s) = Some c -> JS.isWhiteSpace c = false.
Proof.
  induction s as [|x s IH]; simpl; [done|].
  destruct (JS.isWhiteSpace x) eqn:Hx; [done|].
  simpl. intros [= <-]. done.
Qed.

Lemma trimStart_snoc s c :
  JS.isWhiteSpace c = false -> JS.trimStart (s ++ [c]) = JS.trimStart s ++ [c].
Proof.
  intros Hc. induction s as [|x s IH]; simpl.
  - by rewrite Hc.
  - destruct (JS.isWhiteSpace x); [done|done].
Qed.

Lemma trimEnd_cons c s :
  JS.isWhiteSpace c = false -> JS.trimEnd (c :: s) = c :: JS.trimEnd s.
Proof.
  intros Hc. unfold JS.trimEnd. simpl.
  rewrite trimStart_snoc by done. by rewrite rev_app_distr.
Qed.

Lemma last_rev {A} (l : list A) : last (rev l) = head l.
Proof. destruct l as [|a l]; simpl; [done|]. apply last_snoc. Qed.

Lemma trimEnd_last s c :
  last (JS.trimEnd s) = Some c -> JS.isWhiteSpace c = false.
Proof.
  unfold JS.trimEnd. rewrite last_rev. apply trimStart_head.
Qed.

(** A string that neither begins nor ends with white space or a line
    terminator. *)
Definition trimmed (s : jsstring) : Prop :=
  (forall c, head s = Some c -> JS.isWhiteSpace c = false) /\
  (forall c, last s = Some c -> JS.isWhiteSpace c = false).

Lemma trim_trimmed s : trimmed (JS.trim s).
Proof.
  unfold JS.trim. split.
  - intros c. destruct (JS.trimStart s) as [|x t] eqn:Ht; [done|].
    assert (JS.isWhiteSpace x = false) as Hx
      by (apply (trimStart_head s); by rewrite Ht).
    rewrite trimEnd_cons by done. by intros [= <-].
  - apply trimEnd_last.
Qed.

(** ** generate.ts: what is written, and when the loop stops *)

(** The files a trace writes, in order. *)
Definition writesOf (tr : list Event) : list (jsstring * jsstring) :=
  omap (fun ev => match ev with
                  | WriteFile path content => Some (path, content)
                  | _ => None
                  end) tr.

Lemma writesOf_app tr1 tr2 : writesOf (tr1 ++ tr2) = writesOf tr1 ++ writesOf tr2.
Proof. apply omap_app. Qed.

(** The file one tag stands for. *)
Definition fileOf (projectDir : jsstring) (tag : FileTag) : jsstring * jsstring :=
  (Path.join [projectDir; default [] (attrPath tag)], JS.trim (tagText tag)).

Section GenerateFacts.

Variable fault : Event -> option jsstring.
Variable projectDir : jsstring.

Definition fromTag (tags : list FileTag) (ev : Event) : Prop :=
  match ev with
  | WriteFile _ content =>
      trimmed content /\
      exists tag, tag ∈ tags /\ content = JS.trim (tagText tag)
  | _ => True
  end.

Lemma fromTag_mono tags tag ev : fromTag tags ev -> fromTag (tag :: tags) ev.
Proof.
  destruct ev; simpl; try done.
  intros (Ht & tag' & Hin & ->). split; [done|].
  exists tag'. split; [by apply list_elem_of_further|done].
Qed.

Lemma writeFiles_emits tags generated :
  emits (fromTag tags) (writeFiles fault projectDir tags generated).
Proof.
  revert generated. induction tags as [|tag rest IH]; intros generated; simpl.
  - apply emits_ret.
  - destruct (attrPath tag) as [[|c path]|]; try apply emits_throw.
    apply emits_bind; [by apply emits_emit|]. intros _.
    destruct (negb _); [apply emits_throw|].
    apply emits_bind; [by apply emits_perform|]. intros _.
    apply emits_bind.
    + apply emits_perform. simpl. split; [apply trim_trimmed|].
      exists tag. split; [apply list_elem_of_here|done].
    + intros _. eapply emits_mono; [|apply IH]. apply fromTag_mono.
Qed.

Lemma writeFiles_writes tags generated w g' :
  (writeFiles fault projectDir tags generated w).2 = Some (Resolved g') ->
  writesOf (trace (writeFiles fault projectDir tags generated w).1)
  = writesOf (trace w) ++ map (fileOf projectDir) tags.
Proof.
  revert generated w. induction tags as [|tag rest IH]; intros generated w; simpl.
  - intros _. by rewrite app_nil_r.
  - destruct (attrPath tag) as [[|c path]|] eqn:Hpath; try done.
    unfold_monad. simpl.
    destruct (negb _); [done|].
    destruct (fault (MkDir _)); [done|]. simpl.
    destruct (fault (WriteFile _ _)); [done|]. simpl.
    intros H. rewrite (IH _ _ H). simpl.
    rewrite !writesOf_app. simpl. rewrite !app_nil_r.
    unfold fileOf at 2. rewrite Hpath. simpl. by rewrite <- app_assoc.
Qed.

Lemma writeFiles_app pre rest generated w g1 :
  (writeFiles fault projectDir pre generated w).2 = Some (Resolved g1) ->
  writeFiles fault projectDir (pre ++ rest) generated w
  = writeFiles fault projectDir rest g1
      (writeFiles fault projectDir pre generated w).1.
Proof.
  revert generated w. induction pre as [|tag pre IH]; intros generated w; simpl.
  - unfold_monad. by intros [= ->].
  - destruct (attrPath tag) as [[|c path]|]; try done.
    unfold_monad. simpl.
    destruct (negb _); [done|].
    destruct (fault (MkDir _)); [done|]. simpl.
    destruct (fault (WriteFile _ _)); [done|]. simpl.
    apply IH.
Qed.

(** A tag the loop writes and goes past: it has a path that is not
    empty, the joined path begins with the project directory, and the
    directory and the file can be made. *)
Definition writable (tag : FileTag) : Prop :=
  exists path,
    attrPath tag = Some path /\ path <> []
    /\ JS.startsWith (Path.join [projectDir; path]) projectDir = true
    /\ fault (MkDir (Path.join [Path.join [projectDir; path]; §".."])) = None
    /\ fault (WriteFile (Path.join [projectDir; path]) (JS.trim (tagText tag))) = None.

(** The loop writes the files of the tags up to the first one that
    cannot be written, and stops there. *)
Lemma writeFiles_prefix tags generated w :
  match writeFiles fault projectDir tags generated w with
  | (w', o) =>
      exists pre rest,
        tags = pre ++ rest
        /\ Forall writable pre
        /\ match rest with [] => True | tag :: _ => ~ writable tag end
        /\ writesOf (trace w') = writesOf (trace w) ++ map (fileOf projectDir) pre
        /\ (rest = [] <-> exists g', o = Some (Resolved g'))
  end.
Proof.
  revert generated w. induction tags as [|tag tags IH]; intros generated w; simpl.
  - exists [], []. simpl. rewrite app_nil_r. repeat split; eauto.
  - assert (forall tr, writesOf tr = writesOf (trace w) ++ map (fileOf projectDir) [] ->
            ~ writable tag ->
            forall e,
            exists pre rest,
              tag :: tags = pre ++ rest
              /\ Forall writable pre
              /\ match rest with [] => True | t :: _ => ~ writable t end
              /\ writesOf tr = writesOf (trace w) ++ map (fileOf projectDir) pre
              /\ (rest = [] <-> exists g' : Z, Some (Rejected e) = Some (Resolved g')))
      as Hstop.
    { intros tr Htr Hnot e. exists [], (tag :: tags).
      repeat split; try done. by intros [g' ?]. }
    destruct (attrPath tag) as [[|c path]|] eqn:Hpath.
    + apply Hstop; [simpl; by rewrite app_nil_r|].
      intros (p & Hp & Hne & _). congruence.
    + unfold_monad. simpl.
      destruct (JS.startsWith (Path.join [projectDir; c :: path]) projectDir)
        eqn:Hstarts; simpl.
      * destruct (fault (MkDir _)) as [l|] eqn:Hmk; simpl.
        { apply Hstop.
          - rewrite writesOf_app. simpl. by rewrite !app_nil_r.
          - intros (p & Hp & _ & _ & Hmk' & _). congruence. }
        destruct (fault (WriteFile _ _)) as [l|] eqn:Hwr; simpl.
        { apply Hstop.
          - rewrite !writesOf_app. simpl. by rewrite !app_nil_r.
          - intros (p & Hp & _ & _ & _ & Hwr'). congruence. }
        match goal with
        | |- context [writeFiles fault projectDir tags ?g ?w1] =>
            specialize (IH g w1);
            destruct (writeFiles fault projectDir tags g w1) as [w' o]
        end.
        destruct IH as (pre & rest & -> & Hpre & Hrest & Hwrites & Hend).
        exists (tag :: pre), rest. split; [done|]. split.
        { constructor; [|done]. exists (c :: path). by repeat split. }
        split; [done|]. split; [|done].
        rewrite Hwrites. simpl. rewrite !writesOf_app. simpl.
        rewrite !app_nil_r, <- app_assoc. simpl.
        unfold fileOf at 2. by rewrite Hpath.
      * apply Hstop.
        -- rewrite writesOf_app. simpl. by rewrite !app_nil_r.
        -- intros (p & Hp & _ & Hst & _). congruence.
    + apply Hstop; [simpl; by rewrite app_nil_r|].
      intros (p & Hp & _). congruence.
Qed.

End GenerateFacts.

(** C10. For every file tag the loop goes through, the content written
    to disk is the tag's text with leading and trailing white space
    removed.  The files written are exactly, and in order, those of the
    tags before the first one that cannot be written (of all the tags
    when there is none), each at the path of its tag joined to the
    project directory and with the trimmed text of that same tag; no
    file written begins or ends with white space (a trailing newline
    included); and the loop runs to its end exactly when every tag can be
    written. *)
Theorem C10_written_content_is_trimmed :
  forall fault projectDir tags generated w,
    let r := writeFiles fault projectDir tags generated w in
    let new := drop (length (trace w)) (trace r.1) in
    exists pre rest,
      tags = pre ++ rest
      /\ Forall (writable fault projectDir) pre
      /\ match rest with
         | [] => True
         | tag :: _ => ~ writable fault projectDir tag
         end
      /\ writesOf new
         = map (fun tag => (Path.join [projectDir; default [] (attrPath tag)],
                            JS.trim (tagText tag))) pre
      /\ Forall (fun file => trimmed file.2) (writesOf new)
      /\ (rest = [] <-> exists g', r.2 = Some (Resolved g')).
Proof.
  intros fault projectDir tags generated w r new.
  pose proof (writeFiles_prefix fault projectDir tags generated w) as Hprefix.
  destruct (writeFiles_emits fault projectDir tags generated w)
    as (new' & Htr & _).
  fold r in Htr. subst new. rewrite Htr, drop_app_length.
  fold r in Hprefix. destruct r as [w' o]. cbn [fst snd] in *.
  destruct Hprefix as (pre & rest & Htags & Hpre & Hrest & Hwrites & Hend).
  rewrite Htr, writesOf_app in Hwrites. apply app_inv_head in Hwrites.
  exists pre, rest. rewrite Hwrites.
  repeat split; try done; try apply Hend.
  apply Forall_forall. intros file Hin.
  apply list_elem_of_fmap in Hin as (tag & -> & _). apply trim_trimmed.
Qed.

Example trim_file_text :
  JS.trim (10 :: 32 :: 32 :: §"export const x = 1;" ++ [10; 10])%N
  = §"export const x = 1;".
Proof. reflexivity. Qed.

(** The error raised for a path that does not start with the project
    directory. *)
Definition pathEscapeError (projectDir path : jsstring) : JSError :=
  NewError (§"File path " ++ Path.join [projectDir; path]
            ++ §" is not underneath " ++ projectDir).

(** C6, as amended. When the path of a file tag, joined to the project
    directory and normalised, does not start with the project directory,
    generation fails with the path-escape error at that tag: neither that
    file nor any file of a later tag is written, and the files written
    are exactly those of the tags before it, which the loop had already
    written. *)
Theorem C6_path_escape_stops_generation :
  forall askModel stringifyContent fileTags secondsText fault
         inputDir outputRoot text pre tag rest path w g1,
    let projectDir := Path.join [outputRoot; §"project"] in
    let w1 := {| now := now w; trace := trace w ++ [MkDir projectDir] |} in
    askModel inputDir = Some (Resolved [TextBlock text]) ->
    fileTags (§"<analysis>" ++ text) = pre ++ tag :: rest ->
    fault (MkDir projectDir) = None ->
    (writeFiles fault projectDir pre 0 w1).2 = Some (Resolved g1) ->
    attrPath tag = Some path -> path <> [] ->
    JS.startsWith (Path.join [projectDir; path]) projectDir = false ->
    let r := generateTest askModel stringifyContent fileTags secondsText fault
               inputDir outputRoot w in
    r.2 = Some (Rejected (pathEscapeError projectDir path))
    /\ writesOf (trace r.1) = writesOf (trace w) ++ map (fileOf projectDir) pre.
Proof.
  intros askModel stringifyContent fileTags secondsText fault
         inputDir outputRoot text pre tag rest path w g1 projectDir w1
         Hask Htags Hmk Hpre Hpath Hne Hesc r.
  assert (writeFiles fault projectDir (pre ++ tag :: rest) 0 w1
          = ({| now := now (writeFiles fault projectDir pre 0 w1).1;
                trace := trace (writeFiles fault projectDir pre 0 w1).1
                         ++ [ConsoleLog (§"Writing " ++ path ++ §"...")] |},
             Some (Rejected (pathEscapeError projectDir path)))) as Hloop.
  { rewrite (writeFiles_app fault projectDir pre (tag :: rest) 0 w1 g1 Hpre).
    simpl. rewrite Hpath. destruct path as [|c path]; [done|].
    unfold_monad. simpl. by rewrite Hesc. }
  subst r. unfold generateTest. unfold_monad. simpl.
  rewrite Hask, Htags. fold projectDir. rewrite Hmk. simpl.
  fold w1. rewrite Hloop. simpl. split; [done|].
  rewrite writesOf_app. simpl. rewrite app_nil_r.
  rewrite (writeFiles_writes fault projectDir pre 0 w1 g1 Hpre).
  subst w1. simpl. rewrite writesOf_app. simpl. by rewrite app_nil_r.
Qed.

(** Inputs for the examples. *)
Definition noFault : Event -> option jsstring := fun _ => None.
Definition w0 : World := {| now := 0; trace := [] |}.
Definition packageJson : FileTag :=
  {| attrPath := Some (§"package.json"); tagText := §"{}" |}.
Definition passwd : FileTag :=
  {| attrPath := Some (§"../../etc/passwd"); tagText := §"x" |}.
Definition sibling : FileTag :=
  {| attrPath := Some (§"../project2/x.ts"); tagText := §"x" |}.

(** A tag whose text is wrapped in white space. *)
Definition padded : FileTag :=
  {| attrPath := Some (§"convex/a.ts");
     tagText := (10 :: 32 :: 32 :: §"export const x = 1;" ++ [10; 10])%N |}.

(** C10 at a tag whose text begins with a newline and two spaces and
    ends with two newlines: the file is written, without them. *)
Lemma C10_written_content_is_trimmed_witness :
  writesOf (drop (length (trace w0))
              (trace (writeFiles noFault (§"out/project") [padded] 0 w0).1))
  = [(§"out/project/convex/a.ts", §"export const x = 1;")].
Proof.
  destruct (C10_written_content_is_trimmed noFault (§"out/project") [padded] 0 w0)
    as (pre & rest & Htags & _ & Hrest & Hwrites & _).
  destruct pre as [|tag pre].
  - exfalso. simpl in Htags. subst rest. apply Hrest.
    exists (§"convex/a.ts"). by repeat split.
  - injection Htags as <- Htags. symmetry in Htags.
    apply app_eq_nil in Htags as [-> _]. exact Hwrites.
Defined.

(** C6, counterexample to the claim as stated: the second of two tags
    escapes the project directory and generation fails with the
    path-escape error, but the file of the first tag has been written. *)
Lemma C6_counterexample_file_written_before_escape :
  let r := writeFiles noFault (§"out/project") [packageJson; passwd] 0 w0 in
  Path.join [§"out/project"; §"../../etc/passwd"] = §"etc/passwd"
  /\ r.2 = Some (Rejected (pathEscapeError (§"out/project") (§"../../etc/passwd")))
  /\ writesOf (trace r.1) = [(§"out/project/package.json", §"{}")].
Proof. vm_compute. done. Qed.

(** The amended C6 at that input: the model answers with the two tags,
    the first is written, the second stops the generation. *)
Lemma C6_path_escape_witness :
  let r := generateTest (fun _ => Some (Resolved [TextBlock (§"...")]))
             (fun _ => []) (fun _ => [packageJson; passwd]) (fun _ => §"0")
             noFault (§"evals/basic/echo") (§"out") w0 in
  r.2 = Some (Rejected (pathEscapeError (§"out/project") (§"../../etc/passwd")))
  /\ writesOf (trace r.1)
     = writesOf (trace w0) ++ map (fileOf (§"out/project")) [packageJson].
Proof.
  apply (C6_path_escape_stops_generation
           (fun _ => Some (Resolved [TextBlock (§"...")]))
           (fun _ => []) (fun _ => [packageJson; passwd]) (fun _ => §"0")
           noFault (§"evals/basic/echo") (§"out") (§"...")
           [packageJson] passwd [] (§"../../etc/passwd") w0 2);
    vm_compute; done.
Defined.

(** A path into a sibling directory whose name begins like the project
    directory's passes the prefix test, and the file is written outside
    the project directory. *)
Example sibling_prefix_is_written :
  let r := writeFiles noFault (§"out/project") [sibling] 0 w0 in
  r.2 = Some (Resolved 1)
  /\ writesOf (trace r.1) = [(§"out/project2/x.ts", §"x")].
Proof. vm_compute. done. Qed.


(** ** convex_backend.ts: the backoff of the health check *)

(** The delays a trace asks of the timer, in order. *)
Definition sleepsOf (tr : list Event) : list Z :=
  omap (fun ev => match ev with Sleep ms => Some ms | _ => None end) tr.

Lemma sleepsOf_app tr1 tr2 : sleepsOf (tr1 ++ tr2) = sleepsOf tr1 ++ sleepsOf tr2.
Proof. apply omap_app. Qed.

Definition sumZ (l : list Z) : Z := foldr Z.add 0 l.

Lemma sumZ_app l1 l2 : sumZ (l1 ++ l2) = sumZ l1 + sumZ l2.
Proof. induction l1 as [|x l1 IH]; simpl; [done|]. rewrite IH. lia. Qed.

(** The delay just before the [n]-th [Fetch] of a trace, if the event
    just before it is a [Sleep]. *)
Fixpoint sleepBefore (tr : list Event) (n : nat) (prev : option Z) : option Z :=
  match tr with
  | [] => None
  | Fetch _ :: tr' =>
      match n with
      | O => prev
      | S n' => sleepBefore tr' n' None
      end
  | Sleep ms :: tr' => sleepBefore tr' n (Some ms)
  | _ :: tr' => sleepBefore tr' n None
  end.

(** The schedule in the words of the specification:
    min(baseDelay * 2^n, remaining). *)
Definition backoff (n : nat) (remaining : Z) : Z :=
  Z.min (baseDelay * 2 ^ Z.of_nat n) remaining.

(** A health check goes through rounds of [Fetch] and [Sleep]. *)
Definition rounds (ds : list Z) : list Event :=
  flat_map (fun d => [Fetch versionUrl; Sleep d]) ds.

Lemma sleepsOf_rounds ds : sleepsOf (rounds ds) = ds.
Proof.
  induction ds as [|d ds IH]; [done|].
  change (rounds (d :: ds)) with ([Fetch versionUrl; Sleep d] ++ rounds ds).
  by rewrite sleepsOf_app, IH.
Qed.

Section HealthCheckFacts.

Variable fetchVersion : nat -> FetchResult.
Variable timerLate : nat -> Z.

(** The exception the [n]-th pass through the [try] block ends in, if
    any. *)
Definition probeError (n : nat) : option JSError :=
  match outcome (fetchVersion n) with
  | Response st =>
      if responseOk st then None else Some (NewError (§"HTTP " ++ JS.ofZ st))
  | FetchFailed r => Some (Thrown r)
  end.

Definition afterFetch (w : World) (n : nat) : World :=
  {| now := now w + took (fetchVersion n);
     trace := trace w ++ [Fetch versionUrl] |}.

Definition afterSleep (deadline : Z) (w : World) (n : nat) : World :=
  {| now := now w + (backoff n (deadline - now w) + timerLate n);
     trace := trace w ++ [Sleep (backoff n (deadline - now w))] |}.

(** The clock when fetch [n + k] has settled, for a loop that is about to
    start fetch [n] at time [t] and finds every fetch before [n + k]
    failed within the budget. *)
Fixpoint probeEnd (deadline t : Z) (n k : nat) : Z :=
  match k with
  | O => t + took (fetchVersion n)
  | S k' =>
      let t1 := t + took (fetchVersion n) in
      probeEnd deadline (t1 + (backoff n (deadline - t1) + timerLate n)) (S n) k'
  end.

Lemma probe_eq n w :
  probe fetchVersion n w
  = (afterFetch w n,
     Some (match probeError n with
           | None => Resolved true
           | Some e => Rejected e
           end)).
Proof.
  unfold probe, probeError, afterFetch. unfold_monad. simpl.
  destruct (outcome (fetchVersion n)) as [st|r]; [|done].
  by destruct (responseOk st).
Qed.

(** One iteration of the loop. *)
Lemma healthCheckLoop_S fuel deadline n w :
  healthCheckLoop fetchVersion timerLate (S fuel) deadline n w
  = match probeError n with
    | None => (afterFetch w n, Some (Resolved true))
    | Some e =>
        if deadline - now (afterFetch w n) <? 0
        then (afterFetch w n, Some (Rejected e))
        else healthCheckLoop fetchVersion timerLate fuel deadline (S n)
               (afterSleep deadline (afterFetch w n) n)
    end.
Proof.
  simpl. unfold tryCatch at 1. rewrite probe_eq.
  destruct (probeError n) as [e|]; [|done].
  unfold sleep. unfold_monad. simpl.
  by destruct (deadline - (now w + took (fetchVersion n)) <? 0).
Qed.

(** What a run of the loop looks like: the delays [ds] it asked for, one
    after each failed fetch, and how it ended. *)
Definition loopSpec (deadline : Z) (n : nat) (w : World)
    (r : World * option (Outcome bool)) (ds : list Z) : Prop :=
  trace r.1 = trace w ++ rounds ds
              ++ match r.2 with Some _ => [Fetch versionUrl] | None => [] end
  /\ (forall k d, ds !! k = Some d ->
        0 <= deadline - probeEnd deadline (now w) n k
        /\ d = backoff (n + k) (deadline - probeEnd deadline (now w) n k))
  /\ (forall o, r.2 = Some o ->
        now r.1 = probeEnd deadline (now w) n (length ds)
        /\ match o with
           | Resolved b => b = true /\ probeError (n + length ds) = None
           | Rejected e =>
               probeError (n + length ds) = Some e
               /\ deadline - probeEnd deadline (now w) n (length ds) < 0
           end).

Lemma healthCheckLoop_spec fuel deadline n w :
  exists ds,
    loopSpec deadline n w
      (healthCheckLoop fetchVersion timerLate fuel deadline n w) ds.
Proof.
  revert n w. induction fuel as [|fuel IH]; intros n w.
  - exists []. split; [|split]; simpl; [by rewrite app_nil_r|done|done].
  - rewrite healthCheckLoop_S.
    destruct (probeError n) as [e|] eqn:He.
    + destruct (deadline - now (afterFetch w n) <? 0) eqn:Hrem.
      * exists []. split; [|split]; simpl; [done|done|].
        intros o [= <-]. rewrite Nat.add_0_r.
        apply Z.ltb_lt in Hrem. simpl in Hrem. repeat split; [done|lia].
      * destruct (IH (S n) (afterSleep deadline (afterFetch w n) n))
          as (ds & Htr & Hds & Hend).
        exists (backoff n (deadline - now (afterFetch w n)) :: ds).
        apply Z.ltb_ge in Hrem. simpl in Hrem, Hds, Hend.
        split; [|split].
        -- rewrite Htr. simpl. by rewrite <- !app_assoc.
        -- intros k d Hk. destruct k as [|k]; simpl in Hk |- *.
           ++ injection Hk as <-. rewrite Nat.add_0_r. split; [lia|done].
           ++ replace (n + S k)%nat with (S (n + k)) by lia.
              apply (Hds k d Hk).
        -- intros o Ho. destruct (Hend o Ho) as [Hnow Hout]. simpl.
           replace (n + S (length ds))%nat with (S (n + length ds)) by lia.
           split; [done|]. done.
    + exists []. split; [|split]; simpl; [done|done|].
      intros o [= <-]. by rewrite Nat.add_0_r.
Qed.

Lemma backoff_bounds n remaining :
  0 <= remaining -> 0 <= backoff n remaining <= remaining.
Proof.
  intros Hrem. unfold backoff, baseDelay.
  assert (0 <= 2 ^ Z.of_nat n) by (apply Z.pow_nonneg; lia). lia.
Qed.

Lemma backoff_le n remaining : backoff n remaining <= remaining.
Proof. unfold backoff. lia. Qed.

(** The same clock, counted from the last round. *)
Lemma probeEnd_S deadline t n k :
  probeEnd deadline t n (S k)
  = probeEnd deadline t n k
    + (backoff (n + k) (deadline - probeEnd deadline t n k) + timerLate (n + k))
    + took (fetchVersion (n + S k)).
Proof.
  revert t n. induction k as [|k IH]; intros t n.
  - simpl. rewrite Nat.add_0_r. by replace (n + 1)%nat with (S n) by lia.
  - change (probeEnd deadline t n (S (S k)))
      with (probeEnd deadline
              (t + took (fetchVersion n)
               + (backoff n (deadline - (t + took (fetchVersion n))) + timerLate n))
              (S n) (S k)).
    rewrite IH. simpl.
    replace (S (n + k)) with (n + S k)%nat by lia.
    by replace (S (n + S k)) with (n + S (S k))%nat by lia.
Qed.

Hypothesis took_nonneg : forall n, 0 <= took (fetchVersion n).
Hypothesis late_nonneg : forall n, 0 <= timerLate n.

(** The delays asked for add up to no more than the budget. *)
Lemma healthCheckLoop_sleep_sum fuel deadline n w :
  sumZ (sleepsOf (trace (healthCheckLoop fetchVersion timerLate fuel deadline n w).1))
  <= sumZ (sleepsOf (trace w)) + Z.max 0 (deadline - now w).
Proof.
  revert n w. induction fuel as [|fuel IH]; intros n w.
  - simpl. lia.
  - rewrite healthCheckLoop_S.
    pose proof (took_nonneg n) as Htook. pose proof (late_nonneg n) as Hlate.
    destruct (probeError n) as [e|].
    + destruct (deadline - now (afterFetch w n) <? 0) eqn:Hrem.
      * simpl. rewrite sleepsOf_app, sumZ_app. simpl. lia.
      * apply Z.ltb_ge in Hrem. etrans; [apply IH|].
        simpl in *. rewrite !sleepsOf_app, !sumZ_app. simpl.
        pose proof (backoff_bounds n _ Hrem). lia.
    + simpl. rewrite sleepsOf_app, sumZ_app. simpl. lia.
Qed.

(** With a clock that advances by a millisecond or more in every round,
    the loop settles within the fuel the budget calls for. *)
Lemma healthCheckLoop_settles fuel deadline n w :
  (forall m, 1 <= took (fetchVersion m) + timerLate m) ->
  (Z.to_nat (deadline - now w + 1) + 1 <= fuel)%nat ->
  (healthCheckLoop fetchVersion timerLate fuel deadline n w).2 <> None.
Proof.
  intros Hstep. revert n w. induction fuel as [|fuel IH]; intros n w Hfuel.
  - lia.
  - rewrite healthCheckLoop_S.
    pose proof (took_nonneg n) as Htook. pose proof (late_nonneg n) as Hlate.
    pose proof (Hstep n) as Hn.
    destruct (probeError n) as [e|]; [|done].
    destruct (deadline - now (afterFetch w n) <? 0) eqn:Hrem; [done|].
    apply Z.ltb_ge in Hrem. apply IH. simpl in *.
    pose proof (backoff_bounds n _ Hrem). lia.
Qed.

End HealthCheckFacts.

Lemma healthCheck_eq fetchVersion timerLate fuel w :
  healthCheck fetchVersion timerLate fuel w
  = healthCheckLoop fetchVersion timerLate fuel (now w + totalTimeout) 0 w.
Proof. reflexivity. Qed.

(** C3, as amended. The health prober does not sleep before attempt 0;
    after the [k]-th failed attempt (from 0), that is before attempt
    [k + 1], it sleeps exactly min(100ms * 2^k, remaining budget), the
    remaining budget being then not negative: it never sleeps past the
    remaining budget and the sleep durations add up to no more than the
    10-second total timeout.  Once the remaining budget is negative it
    throws the last observed error instead of sleeping further, and the
    elapsed time then exceeds the total timeout by no more than the last
    attempt's duration and the lateness of the timer before it.  For a
    target that never responds successfully, and a clock that advances in
    every round, the prober does end that way. *)
Theorem C3_backoff_schedule :
  forall fetchVersion timerLate fuel w,
    (forall n, 0 <= took (fetchVersion n)) ->
    (forall n, 0 <= timerLate n) ->
    let r := healthCheck fetchVersion timerLate fuel w in
    let new := drop (length (trace w)) (trace r.1) in
    let ds := sleepsOf new in
    let deadline := now w + totalTimeout in
    let remaining k :=
      deadline - probeEnd fetchVersion timerLate deadline (now w) 0 k in
    new = rounds ds ++ match r.2 with Some _ => [Fetch versionUrl] | None => [] end
    /\ (forall k d, ds !! k = Some d ->
          0 <= remaining k /\ d = backoff k (remaining k) /\ 0 <= d <= remaining k)
    /\ sumZ ds <= totalTimeout
    /\ (forall e, r.2 = Some (Rejected e) ->
          probeError fetchVersion (length ds) = Some e
          /\ remaining (length ds) < 0
          /\ now r.1 - now w
             <= totalTimeout
                + match length ds with O => 0 | S m => timerLate m end
                + took (fetchVersion (length ds)))
    /\ ((forall n, probeError fetchVersion n <> None) ->
        (forall n, 1 <= took (fetchVersion n) + timerLate n) ->
        10002 <= Z.of_nat fuel ->
        exists e, r.2 = Some (Rejected e)).
Proof.
  intros fetchVersion timerLate fuel w Htook Hlate r new ds deadline remaining.
  destruct (healthCheckLoop_spec fetchVersion timerLate fuel deadline 0 w)
    as (ds' & Htr & Hds & Hend).
  fold (healthCheck fetchVersion timerLate fuel w) in Htr, Hds, Hend.
  change (healthCheckLoop fetchVersion timerLate fuel deadline 0 w) with r
    in Htr, Hend.
  assert (new = rounds ds'
                ++ match r.2 with Some _ => [Fetch versionUrl] | None => [] end)
    as Hnew by (subst new; by rewrite Htr, drop_app_length).
  assert (ds = ds') as Hdsds'.
  { subst ds. rewrite Hnew, sleepsOf_app, sleepsOf_rounds.
    destruct r.2; simpl; by rewrite app_nil_r. }
  rewrite Hdsds'. split; [done|]. split; [|split; [|split]].
  - intros k d Hk. destruct (Hds k d Hk) as [H1 H2]. simpl in H1, H2.
    split; [done|]. split; [done|]. rewrite H2. by apply backoff_bounds.
  - pose proof (healthCheckLoop_sleep_sum fetchVersion timerLate Htook Hlate
                  fuel deadline 0 w) as Hsum.
    change (healthCheckLoop fetchVersion timerLate fuel deadline 0 w) with r
      in Hsum.
    rewrite Htr, !sleepsOf_app, !sumZ_app, sleepsOf_rounds in Hsum.
    subst deadline. unfold totalTimeout in *.
    destruct r.2; simpl in Hsum; lia.
  - intros e He. destruct (Hend _ He) as [Hnow [Herr Hrem]]. simpl in Herr, Hrem.
    split; [done|]. split; [done|]. rewrite Hnow.
    destruct (length ds') as [|m].
    + simpl. subst deadline. unfold totalTimeout. pose proof (Htook 0%nat). lia.
    + rewrite probeEnd_S. simpl.
      pose proof (backoff_le m
        (deadline - probeEnd fetchVersion timerLate deadline (now w) 0 m)).
      subst deadline. unfold totalTimeout in *. lia.
  - intros Hnever Hstep Hfuel.
    pose proof (healthCheckLoop_settles fetchVersion timerLate Htook Hlate
                  fuel deadline 0 w Hstep) as Hsettles.
    change (healthCheckLoop fetchVersion timerLate fuel deadline 0 w) with r
      in Hsettles.
    destruct r.2 as [[b|e]|] eqn:Hr.
    + destruct (Hend _ eq_refl) as [_ [_ Hnone]]. by apply Hnever in Hnone.
    + by exists e.
    + exfalso. apply Hsettles; [|done]. subst deadline. unfold totalTimeout. lia.
Qed.

(** A target that refuses every connection, each attempt taking [ms]
    milliseconds. *)
Definition refusing (ms : Z) : nat -> FetchResult := fun _ =>
  {| took := ms; outcome := FetchFailed (§"ConnectionRefused") |}.

Definition onTime : nat -> Z := fun _ => 0.

(** C3 for a target that refuses every connection within a millisecond:
    the prober gives up, having slept no more than the total timeout. *)
Lemma C3_backoff_schedule_witness :
  sumZ (sleepsOf (drop (length (trace w0))
                    (trace (healthCheck (refusing 1) onTime (Z.to_nat 10002) w0).1)))
  <= totalTimeout
  /\ exists e, (healthCheck (refusing 1) onTime (Z.to_nat 10002) w0).2 = Some (Rejected e).
Proof.
  destruct (C3_backoff_schedule (refusing 1) onTime (Z.to_nat 10002) w0)
    as (_ & _ & Hsum & _ & Hend).
  - intros n. simpl. lia.
  - intros n. unfold onTime. lia.
  - split; [exact Hsum|]. apply Hend.
    + intros n. done.
    + intros n. simpl. unfold onTime. lia.
    + by vm_compute.
Defined.

(** C3, counterexamples to the claim as stated.  Against a target that
    refuses every connection within a millisecond, there is no sleep
    before attempt 0 and the sleep before attempt 1 is 100ms, where
    min(100ms * 2^1, remaining) is 200ms.  When the first attempt fails
    after 20 seconds the prober has run for 20 seconds, past the total
    timeout.  When the first attempt fails after exactly 10 seconds, the
    budget is used up and the prober still asks for a sleep (of 0ms) and
    makes another attempt. *)
Lemma C3_counterexample_delay_before_attempt :
  let quick := healthCheck (refusing 1) onTime 20 w0 in
  let slow := healthCheck (refusing 20000) onTime 20 w0 in
  let exact := healthCheck (refusing 10000) onTime 20 w0 in
  (sleepBefore (trace quick.1) 0 None = None
   /\ sleepBefore (trace quick.1) 1 None = Some 100
   /\ backoff 1 (now w0 + totalTimeout - 1 - 100) = 200)
  /\ (slow.2 = Some (Rejected (Thrown (§"ConnectionRefused")))
      /\ now slow.1 - now w0 = 20000 /\ totalTimeout < 20000)
  /\ (trace exact.1 = [Fetch versionUrl; Sleep 0; Fetch versionUrl]).
Proof. vm_compute. repeat split; done. Qed.

(** ** convex_backend.ts: release of the backend *)

(** [raises Q m]: whenever [m] ends in an exception, the exception
    satisfies [Q]. *)
Definition raises {A} (Q : JSError -> Prop) (m : M A) : Prop :=
  forall w e, (m w).2 = Some (Rejected e) -> Q e.

Lemma raises_ret {A} Q (a : A) : raises Q (mret a).
Proof. by intros w e. Qed.

Lemma raises_emit Q ev : raises Q (emit ev).
Proof. by intros w e. Qed.

Lemma raises_pending {A} Q : raises Q (@pending A).
Proof. by intros w e. Qed.

Lemma raises_dateNow Q : raises Q dateNow.
Proof. by intros w e. Qed.

Lemma raises_elapse Q ms : raises Q (elapse ms).
Proof. by intros w e. Qed.

Lemma raises_throw {A} (Q : JSError -> Prop) e : Q e -> raises Q (@throw A e).
Proof. intros HQ w e'. unfold throw. simpl. by intros [= <-]. Qed.

Lemma raises_perform (Q : JSError -> Prop) fault ev :
  (forall r, Q (Thrown r)) -> raises Q (perform fault ev).
Proof.
  intros HQ. unfold perform. destruct (fault ev).
  - by apply raises_throw.
  - apply raises_emit.
Qed.

Lemma raises_bind {A B} Q (m : M A) (k : A -> M B) :
  raises Q m -> (forall a, raises Q (k a)) -> raises Q (m ≫= k).
Proof.
  intros Hm Hk w e. unfold mbind, M_bind, bind.
  specialize (Hm w). destruct (m w) as [w1 [[a|e1]|]]; simpl in *.
  - apply Hk.
  - intros [= <-]. by apply Hm.
  - done.
Qed.

Lemma raises_tryCatch {A} (Q : JSError -> Prop) (m : M A) (h : JSError -> M A) :
  raises Q m -> (forall e, Q e -> raises Q (h e)) -> raises Q (tryCatch m h).
Proof.
  intros Hm Hh w e. unfold tryCatch.
  specialize (Hm w). destruct (m w) as [w1 [[a|e1]|]]; simpl in *; try done.
  apply Hh. by apply Hm.
Qed.

Lemma raises_tryFinally {A} Q (m : M A) (f : M unit) :
  raises Q m -> raises Q f -> raises Q (tryFinally m f).
Proof.
  intros Hm Hf w e. unfold tryFinally.
  specialize (Hm w). destruct (m w) as [w1 [o|]]; simpl in *; [|done].
  specialize (Hf w1). destruct (f w1) as [w2 [[[]|e2]|]]; simpl in *.
  - destruct o as [a|e1]; [done|]. intros [= <-]. by apply Hm.
  - intros [= <-]. by apply Hf.
  - done.
Qed.

(** Exceptions whose rendering by [String(e)] cannot itself raise. *)
Definition plain (e : JSError) : Prop :=
  match e with
  | NewVerificationError _ _ => False
  | _ => True
  end.

Lemma bind_eq {A B} (m : M A) (k : A -> M B) w :
  (m ≫= k) w
  = match m w with
    | (w', Some (Resolved a)) => k a w'
    | (w', Some (Rejected e)) => (w', Some (Rejected e))
    | (w', None) => (w', None)
    end.
Proof. reflexivity. Qed.

Lemma perform_bind {A} fault ev (k : M A) w :
  (perform fault ev;; k) w
  = match fault ev with
    | Some r => (w, Some (Rejected (Thrown r)))
    | None => k {| now := now w; trace := trace w ++ [ev] |}
    end.
Proof. unfold perform. unfold_monad. by destruct (fault ev). Qed.

(** Exceptions that [String(e)] renders. *)
Definition renders (e : JSError) : Prop := exists msg, toString e = Resolved msg.

Lemma plain_toString e : plain e -> renders e.
Proof.
  unfold renders.
  destruct e as [[|c m]|m md|[|c m]|r]; simpl; try done; intros _; eauto.
Qed.

Lemma raises_mono {A} (P Q : JSError -> Prop) (m : M A) :
  (forall e, P e -> Q e) -> raises P m -> raises Q m.
Proof. intros HPQ Hm w e He. apply HPQ. by apply (Hm w). Qed.

Section DeployFacts.

Variable fetchVersion : nat -> FetchResult.
Variable timerLate : nat -> Z.
Variable backendExitCode : Z -> option Z.
Variable exec : jsstring -> list jsstring -> option jsstring -> option ProcExit.
Variable fault : Event -> option jsstring.
Variable processCwd : jsstring.

Lemma probe_emits P n :
  (forall u, P (Fetch u)) -> emits P (probe fetchVersion n).
Proof.
  intros HP. unfold probe.
  apply emits_bind; [by apply emits_emit|]. intros _.
  apply emits_bind; [apply emits_elapse|]. intros _.
  destruct (outcome (fetchVersion n)) as [st|r]; [|apply emits_throw].
  destruct (responseOk st); [apply emits_ret|apply emits_throw].
Qed.

Lemma healthCheck_emits (P : Event -> Prop) fuel :
  (forall u, P (Fetch u)) -> (forall ms, P (Sleep ms)) ->
  emits P (healthCheck fetchVersion timerLate fuel).
Proof.
  intros HF HS. unfold healthCheck.
  apply emits_bind; [apply emits_dateNow|]. intros t.
  generalize (t + totalTimeout) as deadline. generalize 0%nat as n.
  induction fuel as [|fuel IH]; intros n deadline; simpl.
  - apply emits_pending.
  - apply emits_tryCatch; [by apply probe_emits|]. intros e.
    apply emits_bind; [apply emits_dateNow|]. intros t'.
    destruct (_ <? 0); [apply emits_throw|].
    apply emits_bind; [|intros _; apply IH].
    unfold sleep. apply emits_bind; [by apply emits_emit|].
    intros _. apply emits_elapse.
Qed.

Lemma healthCheck_raises fuel :
  raises plain (healthCheck fetchVersion timerLate fuel).
Proof.
  unfold healthCheck.
  apply raises_bind; [apply raises_dateNow|]. intros t.
  generalize (t + totalTimeout) as deadline. generalize 0%nat as n.
  induction fuel as [|fuel IH]; intros n deadline; simpl.
  - apply raises_pending.
  - apply raises_tryCatch.
    + unfold probe.
      apply raises_bind; [apply raises_emit|]. intros _.
      apply raises_bind; [apply raises_elapse|]. intros _.
      destruct (outcome (fetchVersion n)) as [st|r]; [|by apply raises_throw].
      destruct (responseOk st); [apply raises_ret|by apply raises_throw].
    + intros e He.
      apply raises_bind; [apply raises_dateNow|]. intros t'.
      destruct (_ <? 0); [by apply raises_throw|].
      apply raises_bind; [|intros _; apply IH].
      unfold sleep. apply raises_bind; [apply raises_emit|].
      intros _. apply raises_elapse.
Qed.

Lemma spawnSync_emits (P : Event -> Prop) cmd args cwd :
  P (Run cmd args cwd) -> emits P (spawnSync exec cmd args cwd).
Proof.
  intros HP. unfold spawnSync.
  apply emits_bind; [by apply emits_emit|]. intros _.
  destruct (exec cmd args cwd); [apply emits_ret|apply emits_pending].
Qed.

Lemma spawnSync_raises Q cmd args cwd : raises Q (spawnSync exec cmd args cwd).
Proof.
  unfold spawnSync. apply raises_bind; [apply raises_emit|]. intros _.
  destruct (exec cmd args cwd); [apply raises_ret|apply raises_pending].
Qed.

(** The [try] block of [deploy]. *)
Definition deployBody (fuel : nat) (projectDir : jsstring) : M unit :=
  healthCheck fetchVersion timerLate fuel;;
  t ← dateNow;
  match backendExitCode t with
  | Some _ => throw (NewError (§"Convex process failed to start"))
  | None =>
      result ← spawnSync exec (§"bunx")
                 [§"convex"; §"dev"; §"--once"; §"--admin-key"; adminKey;
                  §"--url"; §"http://localhost:3210"]
                 (Some projectDir);
      if bool_decide (code result = Some 0)
      then emit (ConsoleLog (§"Deploy OK!"))
      else throw (NewError (§"Deploy failed with code "
                             ++ showCode (code result)))
  end.

(** Events of the [try] block: none of them starts or releases the
    backend. *)
Definition inBody (ev : Event) : Prop :=
  match ev with
  | Fetch _ | Sleep _ | Run _ _ _ | ConsoleLog _ => True
  | _ => False
  end.

Lemma deployBody_emits fuel projectDir : emits inBody (deployBody fuel projectDir).
Proof.
  unfold deployBody.
  apply emits_bind; [by apply healthCheck_emits|]. intros _.
  apply emits_bind; [apply emits_dateNow|]. intros t.
  destruct (backendExitCode t); [apply emits_throw|].
  apply emits_bind; [by apply spawnSync_emits|]. intros result.
  destruct (bool_decide _); [by apply emits_emit|apply emits_throw].
Qed.

Lemma deployBody_raises fuel projectDir : raises plain (deployBody fuel projectDir).
Proof.
  unfold deployBody.
  apply raises_bind; [apply healthCheck_raises|]. intros _.
  apply raises_bind; [apply raises_dateNow|]. intros t.
  destruct (backendExitCode t); [by apply raises_throw|].
  apply raises_bind; [apply spawnSync_raises|]. intros result.
  destruct (bool_decide _); [apply raises_emit|by apply raises_throw].
Qed.

Definition released : list Event :=
  [KillBackend; CloseLog StdoutLog; CloseLog StderrLog].

Lemma release_eq w :
  release w = ({| now := now w; trace := trace w ++ released |},
               Some (Resolved tt)).
Proof.
  unfold release. unfold_monad. simpl. by rewrite <- !app_assoc.
Qed.

Lemma tryFinally_release {A} (m : M A) w :
  tryFinally m release w
  = match m w with
    | (w', Some o) =>
        ({| now := now w'; trace := trace w' ++ released |}, Some o)
    | (w', None) => (w', None)
    end.
Proof.
  unfold tryFinally. destruct (m w) as [w' [o|]]; [|done].
  by rewrite release_eq.
Qed.

Lemma deploy_raises fuel outputDir :
  raises plain
    (deploy fetchVersion timerLate backendExitCode exec fault processCwd
       fuel outputDir).
Proof.
  unfold deploy.
  repeat (apply raises_bind; [by apply raises_perform|]; intros _).
  apply raises_bind; [apply raises_emit|]. intros _.
  apply raises_tryFinally; [|intros w e; by rewrite release_eq].
  destruct (fault (SpawnBackend _ _ _)) as [l|]; [|apply deployBody_raises].
  intros w e. unfold endedBy. by unfold_monad.
Qed.

(** Events of the acquisition, before the process is started. *)
Definition beforeSpawn (ev : Event) : Prop :=
  match ev with
  | MkDir _ | OpenLog _ _ => True
  | _ => False
  end.

(** A run of [deploy]: either the acquisition failed and the process was
    never started, or the process was started and, unless the [try]
    block is still pending, the trace ends with the release. *)
Lemma deploy_cases fuel outputDir w :
  let r := deploy fetchVersion timerLate backendExitCode exec fault processCwd
             fuel outputDir w in
  (exists acq e,
      (exists ev l, beforeSpawn ev /\ fault ev = Some l /\ e = Thrown l)
      /\ trace r.1 = trace w ++ acq /\ Forall beforeSpawn acq
      /\ r.2 = Some (Rejected e))
  \/ (exists acq b a c body,
        Forall beforeSpawn acq /\ Forall inBody body
        /\ ((trace r.1 = trace w ++ acq ++ [SpawnBackend b a c] ++ body ++ released
             /\ r.2 <> None)
            \/ (trace r.1 = trace w ++ acq ++ [SpawnBackend b a c] ++ body
                /\ r.2 = None))).
Proof.
  intros r. subst r. unfold deploy.
  set (projectDir := Path.join [outputDir; §"project"]).
  set (backendDir := Path.join [outputDir; §"backend"]).
  set (storageDir := Path.join [backendDir; §"convex_local_storage"]).
  set (body := tryFinally _ release).
  rewrite perform_bind. destruct (fault (MkDir backendDir)) as [l|] eqn:H1.
  { left. exists [], (Thrown l). split; [by exists (MkDir backendDir), l|].
    simpl. by rewrite app_nil_r. }
  rewrite perform_bind. destruct (fault (MkDir storageDir)) as [l|] eqn:H2.
  { left. eexists [_], (Thrown l). split; [by exists (MkDir storageDir), l|].
    simpl. split; [done|]. split; [|done]. by repeat constructor. }
  rewrite perform_bind. destruct (fault (OpenLog StdoutLog _)) as [l|] eqn:H3.
  { left. eexists [_; _], (Thrown l).
    split; [by eexists (OpenLog StdoutLog _), l|]. simpl.
    rewrite <- !app_assoc. split; [done|]. split; [|done]. by repeat constructor. }
  rewrite perform_bind. destruct (fault (OpenLog StderrLog _)) as [l|] eqn:H4.
  { left. eexists [_; _; _], (Thrown l).
    split; [by eexists (OpenLog StderrLog _), l|]. simpl.
    rewrite <- !app_assoc. split; [done|]. split; [|done]. by repeat constructor. }
  rewrite bind_eq. unfold emit. cbn [fst snd now trace].
  right. subst body. rewrite tryFinally_release.
  destruct (fault (SpawnBackend _ _ _)) as [l|].
  { exists [MkDir backendDir; MkDir storageDir;
            OpenLog StdoutLog (Path.join [backendDir; §"backend.stdout.log"]);
            OpenLog StderrLog (Path.join [backendDir; §"backend.stderr.log"])].
    eexists _, _, _, [Fetch versionUrl]. split; [by repeat constructor|].
    split; [by repeat constructor|]. right. unfold endedBy. unfold_monad.
    cbn [fst snd now trace]. split; [|done]. by rewrite <- !app_assoc. }
  unfold endedBy. fold (deployBody fuel projectDir).
  match goal with
  | |- context [deployBody fuel projectDir ?w1] =>
      destruct (deployBody_emits fuel projectDir w1) as (new & Htr & Hall);
      destruct (deployBody fuel projectDir w1) as [w2 [o|]]
  end; cbn [fst snd now trace] in *.
  - exists [MkDir backendDir; MkDir storageDir;
            OpenLog StdoutLog (Path.join [backendDir; §"backend.stdout.log"]);
            OpenLog StderrLog (Path.join [backendDir; §"backend.stderr.log"])].
    eexists _, _, _, new. split; [by repeat constructor|].
    split; [done|]. left. split; [|done].
    rewrite Htr. by rewrite <- !app_assoc.
  - exists [MkDir backendDir; MkDir storageDir;
            OpenLog StdoutLog (Path.join [backendDir; §"backend.stdout.log"]);
            OpenLog StderrLog (Path.join [backendDir; §"backend.stderr.log"])].
    eexists _, _, _, new. split; [by repeat constructor|].
    split; [done|]. right. split; [|done].
    rewrite Htr. by rewrite <- !app_assoc.
Qed.

End DeployFacts.

(** One [try]/[catch] block of the evaluation loop, spelled out. *)
Lemma runStage_eq s run dir st w :
  runStage s run dir st w
  = match run dir {| now := now w; trace := trace w ++ [Attempt s dir] |} with
    | (w2, Some (Resolved _)) =>
        ({| now := now w2; trace := trace w2 ++ [Record_ s okStatus] |},
         Some (Resolved (setStage s okStatus st.1, st.2)))
    | (w2, Some (Rejected e)) =>
        match toString e with
        | Resolved msg =>
            ({| now := now w2;
                trace := trace w2 ++ [Record_ s (failedStatus msg)] |},
             Some (Resolved (setStage s (failedStatus msg) st.1, false)))
        | Rejected e' => (w2, Some (Rejected e'))
        end
    | (w2, None) => (w2, None)
    end.
Proof.
  unfold runStage. unfold_monad. cbn [fst snd now trace].
  destruct (run dir _) as [w2 [[[]|e]|]]; [done| |done].
  by destruct (toString e).
Qed.



(** A backend that is up from the start ([200]) or never ([refusing]),
    and a deploy command that exits with a given code. *)
Definition healthy : nat -> FetchResult := fun _ =>
  {| took := 5; outcome := Response 200 |}.
Definition running : Z -> option Z := fun _ => None.
Definition exited (c : Z) : Z -> option Z := fun _ => Some c.
Definition exits (c : Z) : jsstring -> list jsstring -> option jsstring -> option ProcExit :=
  fun _ _ _ => Some {| code := Some c; output := [] |}.
Definition emptyEntry : ReportEntry :=
  {| category := Some (§"b"); test := Some (§"a"); stages := [] |}.



(** The second log file cannot be opened: the first one stays open. *)
Definition tooManyFiles : Event -> option jsstring := fun ev =>
  match ev with
  | OpenLog StderrLog _ => Some (§"EMFILE: too many open files")
  | _ => None
  end.


(** The log files are opened and the process is started before the
    [try] block: when opening the second log file raises, the block is
    never entered, no process is started and nothing is released; the
    first log file stays open. *)
Example log_open_failure_skips_release :
  let fault := fun ev =>
    match ev with
    | OpenLog StderrLog _ => Some (§"EMFILE: too many open files")
    | _ => None
    end in
  let r := deploy healthy onTime running (exits 0) fault (§"/harness") 3
             (§"out/evals/b/a") w0 in
  r.2 = Some (Rejected (Thrown (§"EMFILE: too many open files")))
  /\ trace r.1 = [MkDir (§"out/evals/b/a/backend");
                  MkDir (§"out/evals/b/a/backend/convex_local_storage");
                  OpenLog StdoutLog (§"out/evals/b/a/backend/backend.stdout.log")].
Proof. vm_compute. split; done. Qed.

(** The world once [deploy] has made its directories, opened its log
    files and started the backend. *)
Definition acquired (processCwd outputDir : jsstring) (w : World) : World :=
  let backendDir := Path.join [outputDir; §"backend"] in
  let storageDir := Path.join [backendDir; §"convex_local_storage"] in
  {| now := now w;
     trace := trace w ++
       [MkDir backendDir; MkDir storageDir;
        OpenLog StdoutLog (Path.join [backendDir; §"backend.stdout.log"]);
        OpenLog StderrLog (Path.join [backendDir; §"backend.stderr.log"]);
        SpawnBackend (Path.join [processCwd; §"convex-local-backend"])
          [§"--port"; §"3210"; §"--site-proxy-port"; §"3211";
           §"--instance-name"; instanceName;
           §"--instance-secret"; instanceSecret;
           §"--local-storage"; storageDir;
           Path.join [backendDir; §"convex_local_backend.sqlite3"]]
          backendDir] |}.

Lemma deploy_acquired fetchVersion timerLate backendExitCode exec fault
    processCwd fuel outputDir w :
  (forall ev, fault ev = None) ->
  deploy fetchVersion timerLate backendExitCode exec fault processCwd
    fuel outputDir w
  = tryFinally
      (deployBody fetchVersion timerLate backendExitCode exec fuel
         (Path.join [outputDir; §"project"]))
      release (acquired processCwd outputDir w).
Proof.
  intros Hfault. unfold deploy.
  rewrite !perform_bind, !Hfault. rewrite bind_eq. unfold emit, endedBy.
  cbn [fst snd now trace]. unfold acquired. cbn [now trace].
  by rewrite <- !app_assoc.
Qed.

(** C5, as amended. The exit code of the backend process is looked at
    once the health probe has succeeded: if the process has exited by
    then, the deploy stage fails with the error "Convex process failed to
    start", without running the deploy command.  While the probe does not
    succeed the exit code is not looked at: the deploy stage fails with
    the last error of the probe, after more than the 10 seconds of the
    probe's budget, whether the process has exited or not. *)
Theorem C5_exit_check_follows_probe :
  forall fetchVersion timerLate backendExitCode exec fault processCwd
         fuel outputDir w,
    (forall ev, fault ev = None) ->
    let hc := healthCheck fetchVersion timerLate fuel
                (acquired processCwd outputDir w) in
    let r := deploy fetchVersion timerLate backendExitCode exec fault
               processCwd fuel outputDir w in
    let ended := {| now := now hc.1; trace := trace hc.1 ++ released |} in
    (forall e, hc.2 = Some (Rejected e) ->
       r = (ended, Some (Rejected e)) /\ totalTimeout < now r.1 - now w)
    /\ (forall c, hc.2 = Some (Resolved true) ->
          backendExitCode (now hc.1) = Some c ->
          r = (ended,
               Some (Rejected (NewError (§"Convex process failed to start"))))).
Proof.
  intros fetchVersion timerLate backendExitCode exec fault processCwd
         fuel outputDir w Hfault. cbv zeta.
  rewrite deploy_acquired by done. rewrite tryFinally_release.
  set (w5 := acquired processCwd outputDir w).
  pose proof (healthCheckLoop_spec fetchVersion timerLate fuel
                (now w5 + totalTimeout) 0%nat w5) as (ds & _ & _ & Hend).
  rewrite <- healthCheck_eq in Hend.
  unfold deployBody.
  rewrite (bind_eq (healthCheck fetchVersion timerLate fuel)).
  destruct (healthCheck fetchVersion timerLate fuel w5) as [w6 o].
  cbn [fst snd] in *. split.
  - intros e ->. split; [done|]. cbn [fst now].
    destruct (Hend _ eq_refl) as [Hnow [_ Hrem]].
    change (now w5) with (now w) in Hnow, Hrem.
    unfold totalTimeout in *. lia.
  - intros c -> Hexit. unfold_monad. cbn [fst snd]. by rewrite Hexit.
Qed.

(** The amended C5 for a process that has exited while another backend
    answers on the port: the probe succeeds at once and the exit check
    fails the stage. *)
Lemma C5_exit_check_follows_probe_witness :
  deploy healthy onTime (exited 1) (exits 0) noFault (§"/harness") 3
    (§"out/evals/b/a") w0
  = ({| now := now (healthCheck healthy onTime 3
                      (acquired (§"/harness") (§"out/evals/b/a") w0)).1;
        trace := trace (healthCheck healthy onTime 3
                          (acquired (§"/harness") (§"out/evals/b/a") w0)).1
                 ++ released |},
     Some (Rejected (NewError (§"Convex process failed to start")))).
Proof.
  destruct (C5_exit_check_follows_probe healthy onTime (exited 1) (exits 0)
              noFault (§"/harness") 3%nat (§"out/evals/b/a") w0) as [_ H].
  - done.
  - by apply (H 1).
Defined.

(** C5, counterexample to the claim as stated: the backend process has
    exited before the first probe and nothing answers on the port.  The
    deploy stage does not fail at once and not with the error about the
    process: it probes until the budget is spent, more than 10 seconds
    later, and fails with the error of the last probe. *)
Lemma C5_counterexample_exited_backend_waits :
  let r := deploy (refusing 1) onTime (exited 1) (exits 0) noFault (§"/harness")
             20 (§"out/evals/b/a") w0 in
  exited 1 (now w0) = Some 1
  /\ r.2 = Some (Rejected (Thrown (§"ConnectionRefused")))
  /\ r.2 <> Some (Rejected (NewError (§"Convex process failed to start")))
  /\ sleepsOf (trace r.1) = [100; 200; 400; 800; 1600; 3200; 3693]
  /\ now r.1 - now w0 = 10001.
Proof. vm_compute. repeat split; done. Qed.

(** ** main.ts: discovery, the pipeline, the exit status *)

(** Observations on a trace: the stages attempted, the stage fields
    assigned and the reports written, in order. *)
Definition attemptsOf (tr : list Event) : list Stage :=
  omap (fun ev => match ev with Attempt s _ => Some s | _ => None end) tr.

Definition recordsOf (tr : list Event) : list (Stage * StageStatus) :=
  omap (fun ev => match ev with Record_ s st => Some (s, st) | _ => None end) tr.

Definition reportsOf (tr : list Event) : list (list ReportEntry) :=
  omap (fun ev => match ev with WriteReport _ r => Some r | _ => None end) tr.

(** An evaluation root with one category [basic] holding one test
    [echo]; child processes that all exit with 0, but for the linter;
    a backend that is up at the first probe. *)
Definition exampleReaddir : jsstring -> Outcome (list jsstring) := fun d =>
  if bool_decide (d = §"evals") then Resolved [§"basic"]
  else if bool_decide (d = §"evals/basic") then Resolved [§"echo"]
  else Rejected (Thrown (§"ENOENT")).

Definition exampleOptions (skipGeneration : bool) : Options :=
  {| force := false; evalsDir := §"evals"; outputDir := Some (§"out");
     testFilter := None; skipGeneration := skipGeneration;
     skipEvaluation := false; concurrency := §"4";
     report := Some (§"report.json") |}.

Definition lintExits (r : ProcExit)
  : jsstring -> list jsstring -> option jsstring -> option ProcExit :=
  fun cmd args cwd =>
    if bool_decide (head args = Some (§"eslint")) then Some r
    else Some {| code := Some 0; output := [] |}.

(** The model is overloaded: every request fails. *)
Definition overloaded : jsstring -> option (Outcome (list ContentBlock)) :=
  fun _ => Some (Rejected (Thrown (§"Error: 529 overloaded"))).

Definition lintPasses : ProcExit := {| code := Some 0; output := [] |}.

(** A JSON string literal: the text between double quotes. *)
Definition quoted (s : jsstring) : jsstring := 34%N :: s ++ [34%N].

(** The linter exits with 2 and prints one diagnostic record, as JSON. *)
Definition lintRecord : JSON :=
  JObj [(§"filePath", JStr (§"convex/index.ts"));
        (§"messages", JArr [JObj [(§"ruleId", JStr (§"no-unused-vars"))]]);
        (§"source", JStr (§"const x = 1;"))].
Definition lintRecordStripped : JSON :=
  JObj [(§"filePath", JStr (§"convex/index.ts"));
        (§"messages", JArr [JObj [(§"ruleId", JStr (§"no-unused-vars"))]])].
Definition lintRecordText : jsstring :=
  §"[{" ++ quoted (§"filePath") ++ §":" ++ quoted (§"convex/index.ts")
  ++ §"," ++ quoted (§"messages") ++ §":[{" ++ quoted (§"ruleId") ++ §":"
  ++ quoted (§"no-unused-vars") ++ §"}]," ++ quoted (§"source") ++ §":"
  ++ quoted (§"const x = 1;") ++ §"}]".
Definition lintFails : ProcExit := {| code := Some 2; output := lintRecordText |}.

(** The linter exits with 1 and prints a JSON string. *)
Definition lintPrintsString : ProcExit :=
  {| code := Some 1; output := quoted (§"x") |}.

(** [JSON.parse] on the two outputs above; no other text is parsed in
    the examples. *)
Definition exampleParse : jsstring -> option JSON := fun text =>
  if bool_decide (text = lintRecordText) then Some (JArr [lintRecord])
  else if bool_decide (text = quoted (§"x")) then Some (JStr (§"x"))
  else None.

Definition exampleMain (lint : ProcExit) (options : Options) : M unit :=
  main (Some (§"key")) (Resolved (§"rev")) (fun _ => Resolved (fun _ => true))
    exampleReaddir noFault
    (generateTest overloaded (fun _ => []) (fun _ => []) (fun _ => §"0") noFault)
    (setupJs (lintExits lint)) (typecheckJs (lintExits lint))
    (lintJs (lintExits lint) exampleParse)
    (deploy healthy onTime running (lintExits lint) noFault (§"/harness") 3)
    options.

Definition exampleProgram (lint : ProcExit) (options : Options) : M unit :=
  program (Some (§"key")) (Resolved (§"rev")) (fun _ => Resolved (fun _ => true))
    exampleReaddir noFault
    (generateTest overloaded (fun _ => []) (fun _ => []) (fun _ => §"0") noFault)
    (setupJs (lintExits lint)) (typecheckJs (lintExits lint))
    (lintJs (lintExits lint) exampleParse)
    (deploy healthy onTime running (lintExits lint) noFault (§"/harness") 3)
    options.

(** Whatever the categories hold and whatever the filter, discovery
    gives the sorted names found under the evaluation root. *)
Lemma discover_is_sorted_root readdirSync evalsDir testFilter names :
  readdirSync evalsDir = Resolved names ->
  discover readdirSync evalsDir testFilter = Resolved (sortStrings names).
Proof.
  intros Hroot. unfold discover. rewrite Hroot. clear Hroot. f_equal. f_equal.
  induction names as [|c names IH]; [done|].
  rewrite filter_cons_True by done. by rewrite IH.
Qed.

(** C8, at the failing input: under the evaluation root there is one
    category [basic] with one test [echo].  Discovery gives the one
    string [basic], not the pair (basic, echo), whatever the filter; the
    loop destructures the string into its first two characters and the
    report holds one entry, for category [b] and test [a]. *)
Lemma C8_discovery_at_failing_input :
  let r := exampleProgram lintPasses (exampleOptions true) w0 in
  discover exampleReaddir (§"evals") None = Resolved [§"basic"]
  /\ discover exampleReaddir (§"evals") (Some (fun _ => false)) = Resolved [§"basic"]
  /\ destructure (§"basic") = (Some (§"b"), Some (§"a"))
  /\ attemptsOf (trace r.1) = [Setup; Typecheck; Lint; Deploy]
  /\ map (fun e => (category e, test e)) <$> reportsOf (trace r.1)
     = [[(Some (§"b"), Some (§"a"))]].
Proof. vm_compute. repeat split; done. Qed.

(** The top-level promise never rejects. *)
Lemma program_exit_status apiKey gitRevParse newRegExp readdirSync fault
    generateTest setupJs typecheckJs lintJs deploy options w :
  let r := program apiKey gitRevParse newRegExp readdirSync fault
             generateTest setupJs typecheckJs lintJs deploy options w in
  exitStatus r.2 = Some 0 \/ exitStatus r.2 = None.
Proof.
  unfold program, tryCatch. simpl.
  destruct (main _ _ _ _ _ _ _ _ _ _ _ _) as [w' [[[]|e]|]]; simpl; auto.
Qed.

(** C2, at the failing inputs.  With a project whose lint stage fails,
    [main] writes the report, one entry for the one project, and then
    rejects with "Evaluation failed."; with a generation that fails,
    [main] rejects with "Generation failed.".  Either way the rejection
    is handed to [console.error] and the exit status of the process is
    0. *)
Lemma C2_exit_status_at_failing_inputs :
  let evaluated := exampleMain lintFails (exampleOptions true) w0 in
  let generated := exampleMain lintPasses (exampleOptions false) w0 in
  (evaluated.2 = Some (Rejected (NewError (§"Evaluation failed.")))
   /\ length <$> reportsOf (trace evaluated.1) = [1%nat]
   /\ exitStatus
        (exampleProgram lintFails (exampleOptions true) w0).2
      = Some 0)
  /\ (generated.2 = Some (Rejected (NewError (§"Generation failed.")))
      /\ exitStatus (exampleProgram lintPasses (exampleOptions false) w0).2
         = Some 0).
Proof. vm_compute. repeat split; done. Qed.

(** C7, at the failing input: the linter exits with 2 and its output
    parses as a list of one diagnostic record.  [lintJs] rejects with a
    [VerificationError] whose metadata is the list with the [source]
    field removed, and [errorStatus] would make of it the outcome with
    that list; but the loop records [String(e)], in which the record is
    rendered as [[object Object]]. *)
Lemma C7_lint_outcome_at_failing_input :
  let lint := lintJs (lintExits lintFails) exampleParse
                (§"out/evals/b/a") w0 in
  let r := exampleMain lintFails (exampleOptions true) w0 in
  lint.2 = Some (Rejected (NewVerificationError (§"Linting failed")
                            (JArr [lintRecordStripped])))
  /\ errorStatus (NewVerificationError (§"Linting failed") (JArr [lintRecordStripped]))
     = Resolved {| status := §"failed"; error := Some (JArr [lintRecordStripped]) |}
  /\ map (getStage Lint) <$> reportsOf (trace r.1)
     = [[Some {| status := §"failed";
                 error := Some (JStr (§"Linting failed" ++ [10%N]
                                      ++ §"[object Object]")) |}]].
Proof. vm_compute. repeat split; done. Qed.

(** C1, at the failing input: the linter exits with 1 and its output
    parses as a JSON string.  [lintJs] rejects with a [VerificationError]
    whose metadata is that string; rendering it in the [catch] block
    raises a [TypeError], which leaves the loop and [main]: setup and
    typecheck succeeded and were recorded, the lint failure is not
    recorded, the deploy stage is never attempted and no report is
    written. *)
Lemma C1_pipeline_at_failing_input :
  let lint := lintJs (lintExits lintPrintsString) exampleParse
                (§"out/evals/b/a") w0 in
  let r := exampleMain lintPrintsString (exampleOptions true) w0 in
  lint.2 = Some (Rejected (NewVerificationError (§"Linting failed") (JStr (§"x"))))
  /\ r.2 = Some (Rejected (TypeError (§"this.metadata.join is not a function")))
  /\ attemptsOf (trace r.1) = [Setup; Typecheck; Lint]
  /\ recordsOf (trace r.1) = [(Setup, okStatus); (Typecheck, okStatus)]
  /\ reportsOf (trace r.1) = [].
Proof. vm_compute. repeat split; done. Qed.









Section MainFacts.

Variable apiKey : option jsstring.
Variable gitRevParse : Outcome jsstring.
Variable newRegExp : jsstring -> Outcome (jsstring -> bool).
Variable readdirSync : jsstring -> Outcome (list jsstring).
Variable fault : Event -> option jsstring.
Variable generateTest : jsstring -> jsstring -> M unit.
Variables setupJs typecheckJs lintJs deploy : jsstring -> M unit.






End MainFacts.



(** ** main.ts: the pipeline when every error renders *)

(** Events that are not the marks of the evaluation loop. *)
Definition unmarked (ev : Event) : Prop :=
  match ev with
  | Attempt _ _ | Record_ _ _ | WriteReport _ _ => False
  | _ => True
  end.

Lemma attemptsOf_app tr1 tr2 : attemptsOf (tr1 ++ tr2) = attemptsOf tr1 ++ attemptsOf tr2.
Proof. apply omap_app. Qed.

Lemma recordsOf_app tr1 tr2 : recordsOf (tr1 ++ tr2) = recordsOf tr1 ++ recordsOf tr2.
Proof. apply omap_app. Qed.

Lemma unmarked_attemptsOf tr : Forall unmarked tr -> attemptsOf tr = [].
Proof.
  induction 1 as [|ev tr Hev _ IH]; [done|].
  change (attemptsOf (ev :: tr)) with (attemptsOf ([ev] ++ tr)).
  rewrite attemptsOf_app, IH. by destruct ev.
Qed.

Lemma unmarked_recordsOf tr : Forall unmarked tr -> recordsOf tr = [].
Proof.
  induction 1 as [|ev tr Hev _ IH]; [done|].
  change (recordsOf (ev :: tr)) with (recordsOf ([ev] ++ tr)).
  rewrite recordsOf_app, IH. by destruct ev.
Qed.

(** A stage function that settles, leaves the marks of the loop alone
    and raises only errors that render. *)
Definition wellBehaved (run : jsstring -> M unit) : Prop :=
  forall dir, (forall w, (run dir w).2 <> None)
              /\ emits unmarked (run dir) /\ raises renders (run dir).

Definition isOk (st : StageStatus) : bool := bool_decide (status st = §"ok").

Lemma isOk_okStatus : isOk okStatus = true.
Proof. by vm_compute. Qed.

Lemma isOk_failedStatus msg : isOk (failedStatus msg) = false.
Proof. unfold isOk, failedStatus. simpl. by vm_compute. Qed.

(** One stage, run by a well-behaved function: it is attempted, and its
    outcome is recorded, [ok] or [failed]. *)
Lemma runStage_wellBehaved s run dir entry allOk w :
  wellBehaved run ->
  exists st w',
    runStage s run dir (entry, allOk) w
    = (w', Some (Resolved (setStage s st entry, allOk && isOk st)))
    /\ attemptsOf (trace w') = attemptsOf (trace w) ++ [s]
    /\ recordsOf (trace w') = recordsOf (trace w) ++ [(s, st)]
    /\ (st = okStatus \/ exists msg, st = failedStatus msg).
Proof.
  intros Hrun. destruct (Hrun dir) as (Hsettles & Hemits & Hraises).
  rewrite runStage_eq.
  set (w1 := {| now := now w; trace := trace w ++ [Attempt s dir] |}).
  specialize (Hsettles w1). specialize (Hraises w1).
  destruct (Hemits w1) as (new & Htr & Hnew).
  destruct (run dir w1) as [w2 [[[]|e]|]]; cbn [fst snd] in *; [| |done].
  - exists okStatus. eexists. split.
    { rewrite isOk_okStatus, andb_true_r. reflexivity. }
    cbn [trace]. rewrite Htr. subst w1. cbn [trace].
    rewrite !attemptsOf_app, !recordsOf_app.
    rewrite (unmarked_attemptsOf new), (unmarked_recordsOf new) by done.
    simpl. rewrite !app_nil_r. eauto.
  - destruct (Hraises e eq_refl) as [msg ->].
    exists (failedStatus msg). eexists. split.
    { rewrite isOk_failedStatus, andb_false_r. reflexivity. }
    cbn [trace]. rewrite Htr. subst w1. cbn [trace].
    rewrite !attemptsOf_app, !recordsOf_app.
    rewrite (unmarked_attemptsOf new), (unmarked_recordsOf new) by done.
    simpl. rewrite !app_nil_r. eauto.
Qed.

Lemma setStage_fresh s st c t l :
  s ∉ l.*1 ->
  setStage s st {| category := c; test := t; stages := l |}
  = {| category := c; test := t; stages := l ++ [(s, st)] |}.
Proof.
  intros Hs. unfold setStage. cbn [category test stages].
  by rewrite bool_decide_eq_false_2.
Qed.

Ltac fresh_stage :=
  simpl; rewrite ?not_elem_of_cons; repeat split; try done;
  apply not_elem_of_nil.

Section PipelineFacts.

Variables setupJs typecheckJs lintJs deploy : jsstring -> M unit.
Hypothesis setupJs_ok : wellBehaved setupJs.
Hypothesis typecheckJs_ok : wellBehaved typecheckJs.
Hypothesis lintJs_ok : wellBehaved lintJs.
Hypothesis deploy_ok : wellBehaved deploy.

(** The pipeline of one project, for stage functions that are
    well-behaved and a test whose name has the two characters the loop
    takes from it: the stages are attempted and recorded in pipeline
    order; after a failed setup nothing else is attempted or recorded;
    after a successful setup typecheck, lint and deploy are all
    attempted and recorded, whatever the outcome of typecheck and
    lint. *)
Lemma evaluateOne_pipeline outputDir t c1 c2 w :
  destructure t = (Some c1, Some c2) ->
  let r := evaluateOne setupJs typecheckJs lintJs deploy outputDir t w in
  exists entry allOk,
    r.2 = Some (Resolved (entry, allOk))
    /\ attemptsOf (trace r.1) = attemptsOf (trace w) ++ (stages entry).*1
    /\ recordsOf (trace r.1) = recordsOf (trace w) ++ stages entry
    /\ ((exists msg, stages entry = [(Setup, failedStatus msg)])
        \/ (exists st1 st2 st3,
              stages entry = [(Setup, okStatus); (Typecheck, st1);
                              (Lint, st2); (Deploy, st3)])).
Proof.
  intros Ht r.
  assert (r = evaluateOne setupJs typecheckJs lintJs deploy outputDir t w)
    as Hr by done.
  clearbody r. unfold evaluateOne in Hr. rewrite Ht in Hr.
  rewrite bind_eq in Hr. unfold emit at 1 in Hr. cbn [fst snd] in Hr.
  set (w1 := {| now := now w; trace := _ |}) in Hr.
  rewrite bind_eq in Hr. unfold settle, joinArgs in Hr.
  cbn [strings fmap option_fmap option_map] in Hr.
  set (dir := Path.join _) in Hr.
  set (entry0 := {| category := Some c1; test := Some c2; stages := [] |}) in Hr.
  assert (attemptsOf (trace w1) = attemptsOf (trace w)) as Ha1
    by (subst w1; cbn [trace]; rewrite attemptsOf_app; simpl; by rewrite app_nil_r).
  assert (recordsOf (trace w1) = recordsOf (trace w)) as Hr1
    by (subst w1; cbn [trace]; rewrite recordsOf_app; simpl; by rewrite app_nil_r).
  rewrite bind_eq in Hr.
  destruct (runStage_wellBehaved Setup setupJs dir entry0 true w1 setupJs_ok)
    as (st0 & w2 & Heq & Ha2 & Hr2 & Hst0).
  rewrite Heq in Hr. clear Heq. subst entry0.
  rewrite setStage_fresh in Hr by (simpl; apply not_elem_of_nil).
  cbn [fst snd app] in Hr.
  assert (setupOk {| category := Some c1; test := Some c2;
                     stages := [(Setup, st0)] |} = isOk st0) as Hok
    by (unfold setupOk, getStage, isOk; by simpl).
  rewrite Hok in Hr. clear Hok.
  destruct Hst0 as [->|[msg ->]].
  - rewrite isOk_okStatus in Hr. rewrite bind_eq in Hr.
    destruct (runStage_wellBehaved Typecheck typecheckJs dir
                {| category := Some c1; test := Some c2;
                   stages := [(Setup, okStatus)] |} (true && true) w2
                typecheckJs_ok) as (st1 & w3 & Heq & Ha3 & Hr3 & _).
    rewrite Heq in Hr. clear Heq.
    rewrite setStage_fresh in Hr by fresh_stage. cbn [app] in Hr.
    rewrite bind_eq in Hr.
    destruct (runStage_wellBehaved Lint lintJs dir
                {| category := Some c1; test := Some c2;
                   stages := [(Setup, okStatus); (Typecheck, st1)] |}
                (true && true && isOk st1) w3 lintJs_ok)
      as (st2 & w4 & Heq & Ha4 & Hr4 & _).
    rewrite Heq in Hr. clear Heq.
    rewrite setStage_fresh in Hr by fresh_stage. cbn [app] in Hr.
    destruct (runStage_wellBehaved Deploy deploy dir
                {| category := Some c1; test := Some c2;
                   stages := [(Setup, okStatus); (Typecheck, st1); (Lint, st2)] |}
                (true && true && isOk st1 && isOk st2) w4 deploy_ok)
      as (st3 & w5 & Heq & Ha5 & Hr5 & _).
    rewrite Heq in Hr. clear Heq.
    rewrite setStage_fresh in Hr by fresh_stage. cbn [app fst snd] in Hr.
    subst r. eexists _, _. split; [done|]. cbn [stages fst].
    rewrite Ha5, Ha4, Ha3, Ha2, Ha1, Hr5, Hr4, Hr3, Hr2, Hr1.
    rewrite <- !app_assoc. simpl. split; [done|]. split; [done|].
    right. eauto.
  - rewrite isOk_failedStatus in Hr. unfold mret, M_ret, ret in Hr.
    subst r. eexists _, _. split; [done|]. cbn [stages fst].
    rewrite Ha2, Ha1, Hr2, Hr1. split; [done|]. split; [done|].
    left. eauto.
Qed.

End PipelineFacts.

(** ** The stage functions of typescript.ts and convex_backend.ts are
    well-behaved *)

(** [settles m]: whatever the world, [m] settles. *)
Definition settles {A} (m : M A) : Prop := forall w, (m w).2 <> None.

Lemma settles_ret {A} (a : A) : settles (mret a).
Proof. by intros w. Qed.

Lemma settles_throw {A} e : settles (@throw A e).
Proof. by intros w. Qed.

Lemma settles_emit ev : settles (emit ev).
Proof. by intros w. Qed.

Lemma settles_dateNow : settles dateNow.
Proof. by intros w. Qed.

Lemma settles_perform fault ev : settles (perform fault ev).
Proof. unfold perform. by destruct (fault ev). Qed.

Lemma settles_bind {A B} (m : M A) (k : A -> M B) :
  settles m -> (forall a, settles (k a)) -> settles (m ≫= k).
Proof.
  intros Hm Hk w. rewrite bind_eq. specialize (Hm w).
  destruct (m w) as [w1 [[a|e]|]]; [apply Hk|done|done].
Qed.

Lemma settles_tryFinally {A} (m : M A) (f : M unit) :
  settles m -> settles f -> settles (tryFinally m f).
Proof.
  intros Hm Hf w. unfold tryFinally. specialize (Hm w).
  destruct (m w) as [w1 [o|]]; [|done]. specialize (Hf w1).
  by destruct (f w1) as [w2 [[[]|e]|]].
Qed.

Lemma elementStrings_strings l : elementStrings (map JStr l) = Some l.
Proof. induction l as [|s l IH]; simpl; [done|]. by rewrite IH. Qed.

Section StageFacts.

Variable exec : jsstring -> list jsstring -> option jsstring -> option ProcExit.
Hypothesis exec_total : forall cmd args cwd, exec cmd args cwd <> None.

Lemma spawnClose_settles cmd args cwd : settles (spawnClose exec cmd args cwd).
Proof.
  unfold spawnClose. apply settles_bind; [apply settles_emit|]. intros _.
  pose proof (exec_total cmd args cwd). by destruct (exec cmd args cwd).
Qed.

Lemma spawnClose_emits (P : Event -> Prop) cmd args cwd :
  P (Run cmd args cwd) -> emits P (spawnClose exec cmd args cwd).
Proof.
  intros HP. unfold spawnClose.
  apply emits_bind; [by apply emits_emit|]. intros _.
  destruct (exec cmd args cwd); [apply emits_ret|apply emits_pending].
Qed.

Lemma spawnClose_raises Q cmd args cwd : raises Q (spawnClose exec cmd args cwd).
Proof.
  unfold spawnClose. apply raises_bind; [apply raises_emit|]. intros _.
  destruct (exec cmd args cwd); [apply raises_ret|apply raises_pending].
Qed.

Lemma setupJs_wellBehaved : wellBehaved (setupJs exec).
Proof.
  intros dir. unfold setupJs. split; [|split].
  - apply settles_bind; [apply spawnClose_settles|]. intros r.
    apply settles_bind.
    { destruct (bool_decide _); [apply settles_emit|apply settles_throw]. }
    intros _. apply settles_bind; [apply spawnClose_settles|]. intros r'.
    destruct (bool_decide _); [apply settles_emit|apply settles_throw].
  - apply emits_bind; [by apply spawnClose_emits|]. intros r.
    apply emits_bind.
    { destruct (bool_decide _); [by apply emits_emit|apply emits_throw]. }
    intros _. apply emits_bind; [by apply spawnClose_emits|]. intros r'.
    destruct (bool_decide _); [by apply emits_emit|apply emits_throw].
  - apply raises_bind; [apply spawnClose_raises|]. intros r.
    apply raises_bind.
    { destruct (bool_decide _); [apply raises_emit|].
      apply raises_throw. by apply plain_toString. }
    intros _. apply raises_bind; [apply spawnClose_raises|]. intros r'.
    destruct (bool_decide _); [apply raises_emit|].
    apply raises_throw. by apply plain_toString.
Qed.

Lemma typecheckJs_wellBehaved : wellBehaved (typecheckJs exec).
Proof.
  intros dir. unfold typecheckJs. split; [|split].
  - apply settles_bind; [apply spawnClose_settles|]. intros r.
    destruct (bool_decide _); [apply settles_emit|apply settles_throw].
  - apply emits_bind; [by apply spawnClose_emits|]. intros r.
    destruct (bool_decide _); [by apply emits_emit|apply emits_throw].
  - apply raises_bind; [apply spawnClose_raises|]. intros r.
    destruct (bool_decide _); [apply raises_emit|].
    apply raises_throw. unfold renders, toString, arrayJoin.
    rewrite elementStrings_strings. simpl. eauto.
Qed.

(** How [lintJs] ends when the linter exits with another code than 0:
    with the parsed output, stripped, as the metadata of a
    [VerificationError], or with the raw output in the message of an
    [Error] when the output does not parse or cannot be stripped. *)
Definition lintError (JSON_parse : jsstring -> option JSON) (r : ProcExit)
  : JSError :=
  match JSON_parse (output r) with
  | Some errors =>
      match stripErrors errors with
      | Resolved errors' => NewVerificationError (§"Linting failed") errors'
      | Rejected _ => NewError (§"ESLint failed with output: " ++ output r)
      end
  | None => NewError (§"ESLint failed with output: " ++ output r)
  end.

Lemma lintJs_outcome JSON_parse dir w r :
  exec (§"bunx")
    [§"eslint"; §"-c"; §"eslint.config.mjs";
     Path.join [dir; §"project"; §"convex"]] None = Some r ->
  code r <> Some 0 ->
  (lintJs exec JSON_parse dir w).2 = Some (Rejected (lintError JSON_parse r)).
Proof.
  intros Hexec Hcode. unfold lintJs, spawnClose, lintError.
  rewrite !bind_eq. unfold emit. rewrite Hexec. unfold mret, M_ret, ret.
  rewrite bool_decide_eq_false_2 by done.
  destruct (JSON_parse (output r)) as [errors|]; [|done].
  by destruct (stripErrors errors).
Qed.

(** Stripping a list of records removes the [source] field of each. *)
Lemma stripErrors_records (records : list (list (jsstring * JSON))) :
  stripErrors (JArr (map JObj records))
  = Resolved (JArr (map (fun fields =>
                           JObj (filter (fun kv => kv.1 <> §"source") fields))
                      records)).
Proof.
  unfold stripErrors.
  assert (deleteSources (map JObj records)
          = Resolved (map (fun fields =>
                             JObj (filter (fun kv => kv.1 <> §"source") fields))
                        records)) as ->; [|done].
  induction records as [|fields records IH]; simpl; [done|]. by rewrite IH.
Qed.

Lemma lintJs_wellBehaved JSON_parse :
  (forall r, renders (lintError JSON_parse r)) ->
  wellBehaved (lintJs exec JSON_parse).
Proof.
  intros Hrenders dir. unfold lintJs. split; [|split].
  - apply settles_bind; [apply spawnClose_settles|]. intros r.
    destruct (bool_decide _); [apply settles_emit|].
    destruct (JSON_parse (output r)) as [errors|]; [|apply settles_throw].
    destruct (stripErrors errors); apply settles_throw.
  - apply emits_bind; [by apply spawnClose_emits|]. intros r.
    destruct (bool_decide _); [by apply emits_emit|].
    destruct (JSON_parse (output r)) as [errors|]; [|apply emits_throw].
    destruct (stripErrors errors); apply emits_throw.
  - apply raises_bind; [apply spawnClose_raises|]. intros r.
    destruct (bool_decide _); [apply raises_emit|].
    specialize (Hrenders r). unfold lintError in Hrenders.
    destruct (JSON_parse (output r)) as [errors|]; [|by apply raises_throw].
    destruct (stripErrors errors); by apply raises_throw.
Qed.

Variable fetchVersion : nat -> FetchResult.
Variable timerLate : nat -> Z.
Variable backendExitCode : Z -> option Z.
Variable fault : Event -> option jsstring.
Variable processCwd : jsstring.
Variable fuel : nat.

Hypothesis took_nonneg : forall n, 0 <= took (fetchVersion n).
Hypothesis late_nonneg : forall n, 0 <= timerLate n.
Hypothesis clock_advances : forall n, 1 <= took (fetchVersion n) + timerLate n.
Hypothesis enough_fuel : 10002 <= Z.of_nat fuel.
Hypothesis backend_starts : forall b a c, fault (SpawnBackend b a c) = None.

Lemma healthCheck_settles : settles (healthCheck fetchVersion timerLate fuel).
Proof.
  intros w. rewrite healthCheck_eq.
  apply healthCheckLoop_settles; try done. unfold totalTimeout. lia.
Qed.

Lemma deploy_wellBehaved :
  wellBehaved
    (deploy fetchVersion timerLate backendExitCode exec fault processCwd fuel).
Proof.
  intros dir. split; [|split].
  - unfold deploy.
    repeat (apply settles_bind; [apply settles_perform|]; intros _).
    apply settles_bind; [apply settles_emit|]. intros _.
    rewrite backend_starts. unfold endedBy.
    apply settles_tryFinally.
    + apply settles_bind; [apply healthCheck_settles|]. intros _.
      apply settles_bind; [apply settles_dateNow|]. intros t.
      destruct (backendExitCode t); [apply settles_throw|].
      apply settles_bind.
      { unfold spawnSync. apply settles_bind; [apply settles_emit|]. intros _.
        pose proof (exec_total (§"bunx")
          [§"convex"; §"dev"; §"--once"; §"--admin-key"; adminKey;
           §"--url"; §"http://localhost:3210"]
          (Some (Path.join [dir; §"project"]))).
        by destruct (exec _ _ _). }
      intros result.
      destruct (bool_decide _); [apply settles_emit|apply settles_throw].
    + intros w. by rewrite release_eq.
  - unfold deploy.
    repeat (apply emits_bind; [by apply emits_perform|]; intros _).
    apply emits_bind; [by apply emits_emit|]. intros _.
    rewrite backend_starts. unfold endedBy.
    apply emits_tryFinally.
    + eapply emits_mono; [|apply deployBody_emits]. by intros [].
    + unfold release.
      repeat (apply emits_bind; [by apply emits_emit|]; intros _).
      by apply emits_emit.
  - eapply raises_mono; [apply plain_toString|]. apply deploy_raises.
Qed.

End StageFacts.

(** ** main.ts: the report is written before the run fails *)

Section ReportFacts.

Variable fault : Event -> option jsstring.
Variables setupJs typecheckJs lintJs deploy : jsstring -> M unit.
Hypothesis setupJs_ok : wellBehaved setupJs.
Hypothesis typecheckJs_ok : wellBehaved typecheckJs.
Hypothesis lintJs_ok : wellBehaved lintJs.
Hypothesis deploy_ok : wellBehaved deploy.

(** Names the loop can take a category and a test from. *)
Definition twoCharacters (t : jsstring) : Prop :=
  exists c1 c2, destructure t = (Some c1, Some c2).

Lemma evaluateAll_entries outputDir tests anyFailed report w :
  Forall twoCharacters tests ->
  exists entries anyFailed' w',
    evaluateAll setupJs typecheckJs lintJs deploy outputDir tests
      anyFailed report w
    = (w', Some (Resolved (anyFailed', report ++ entries)))
    /\ length entries = length tests.
Proof.
  intros Htests. revert anyFailed report w.
  induction Htests as [|t tests (c1 & c2 & Ht) _ IH]; intros anyFailed report w.
  - exists [], anyFailed, w. by rewrite app_nil_r.
  - cbn [evaluateAll]. rewrite bind_eq.
    destruct (evaluateOne_pipeline setupJs typecheckJs lintJs deploy
                setupJs_ok typecheckJs_ok lintJs_ok deploy_ok
                outputDir t c1 c2 w Ht) as (entry & allOk & Hr & _).
    destruct (evaluateOne _ _ _ _ _ _ _) as [w1 o]. cbn [snd] in Hr. subst o.
    destruct (IH (if negb allOk then true else anyFailed) (report ++ [entry]) w1)
      as (entries & anyFailed' & w' & Heq & Hlen).
    exists (entry :: entries), anyFailed', w'. split.
    + rewrite Heq. by rewrite <- app_assoc.
    + simpl. by rewrite Hlen.
Qed.

(** With a report path, the evaluation phase writes the report, one
    entry per test, as its last effect, whether it then fails or not. *)
Lemma evaluation_writes_report options outputDir tests c p w :
  Forall twoCharacters tests ->
  report options = Some (c :: p) ->
  fault = (fun _ => None) ->
  let r := evaluation fault setupJs typecheckJs lintJs deploy options
             outputDir tests w in
  exists entries tr,
    length entries = length tests
    /\ trace r.1 = tr ++ [WriteReport (c :: p) entries]
    /\ (r.2 = Some (Resolved tt)
        \/ r.2 = Some (Rejected (NewError (§"Evaluation failed.")))).
Proof.
  intros Htests Hreport -> r. subst r. unfold evaluation. rewrite bind_eq.
  destruct (evaluateAll_entries outputDir tests false [] w Htests)
    as (entries & anyFailed & w' & -> & Hlen).
  rewrite Hreport. unfold perform. rewrite bind_eq. unfold emit.
  exists entries, (trace w'). split; [done|].
  destruct anyFailed; simpl; eauto.
Qed.

End ReportFacts.

(** ** The harness as a whole *)

(** The pipeline of one project with the stage functions of the harness:
    child processes that end, a linter whose failure renders, a clock
    that advances while the backend is probed, a backend that can be
    started. *)
Corollary harness_pipeline exec JSON_parse fetchVersion timerLate
    backendExitCode fault processCwd fuel outputDir t c1 c2 w :
  (forall cmd args cwd, exec cmd args cwd <> None) ->
  (forall r, renders (lintError JSON_parse r)) ->
  (forall n, 0 <= took (fetchVersion n)) ->
  (forall n, 0 <= timerLate n) ->
  (forall n, 1 <= took (fetchVersion n) + timerLate n) ->
  10002 <= Z.of_nat fuel ->
  (forall b a c, fault (SpawnBackend b a c) = None) ->
  destructure t = (Some c1, Some c2) ->
  let r := evaluateOne (setupJs exec) (typecheckJs exec) (lintJs exec JSON_parse)
             (deploy fetchVersion timerLate backendExitCode exec fault
                processCwd fuel)
             outputDir t w in
  exists entry allOk,
    r.2 = Some (Resolved (entry, allOk))
    /\ attemptsOf (trace r.1) = attemptsOf (trace w) ++ (stages entry).*1
    /\ recordsOf (trace r.1) = recordsOf (trace w) ++ stages entry
    /\ ((exists msg, stages entry = [(Setup, failedStatus msg)])
        \/ (exists st1 st2 st3,
              stages entry = [(Setup, okStatus); (Typecheck, st1);
                              (Lint, st2); (Deploy, st3)])).
Proof.
  intros Hexec Hlint Htook Hlate Hclock Hfuel Hstarts Ht.
  apply evaluateOne_pipeline with c1 c2; try done.
  - by apply setupJs_wellBehaved.
  - by apply typecheckJs_wellBehaved.
  - by apply lintJs_wellBehaved.
  - by apply deploy_wellBehaved.
Qed.

(** The order of [sort] is total, so the sorted list is sorted and holds
    the same names. *)
Lemma jsLe_total : Total jsLe.
Proof.
  intros a. induction a as [|x a IH]; intros b; [by left|].
  destruct b as [|y b]; [by right|].
  unfold jsLe. simpl.
  destruct (N.ltb_spec x y) as [Hxy|Hxy]; [by left|].
  destruct (N.ltb_spec y x) as [Hyx|Hyx].
  - right. destruct (N.ltb_spec y x); [done|lia].
  - assert (x = y) as -> by lia.
    destruct (N.ltb_spec y y); [lia|]. apply IH.
Qed.

Lemma sortStrings_sorted l : Sorted jsLe (sortStrings l).
Proof. apply Sorted_merge_sort. apply jsLe_total. Qed.

Lemma sortStrings_permutation l : sortStrings l ≡ₚ l.
Proof. apply merge_sort_Permutation. Qed.

(** * Further properties of the harness *)

(** ** errors.ts and typescript.ts: what a failure carries *)

Lemma split_cons sep s : exists w ws, JS.split sep s = w :: ws.
Proof.
  induction s as [|c s (w & ws & IH)]; simpl; [by eauto|].
  destruct (c =? sep)%N; [by eauto|]. rewrite IH. eauto.
Qed.

(** Splitting at a separator and joining with it gives the string back. *)
Lemma joinWith_split sep s : JS.joinWith [sep] (JS.split sep s) = s.
Proof.
  induction s as [|c s IH]; simpl; [done|].
  destruct (split_cons sep s) as (w & ws & Hs). rewrite Hs in IH |- *.
  destruct (N.eqb_spec c sep) as [->|Hc].
  - change (JS.joinWith [sep] ([] :: w :: ws))
      with ([] ++ [sep] ++ JS.joinWith [sep] (w :: ws)).
    by rewrite IH.
  - destruct ws as [|w' ws]; simpl in *; by rewrite IH.
Qed.

(** No piece of a split holds the separator. *)
Lemma split_pieces sep s : Forall (fun w => sep ∉ w) (JS.split sep s).
Proof.
  induction s as [|c s IH]; simpl.
  - constructor; [apply not_elem_of_nil|constructor].
  - destruct (N.eqb_spec c sep) as [->|Hc].
    + constructor; [apply not_elem_of_nil|done].
    + destruct (JS.split sep s) as [|w ws].
      * constructor; [|constructor].
        rewrite not_elem_of_cons. split; [congruence|apply not_elem_of_nil].
      * inversion IH as [|? ? Hw Hws]; subst. constructor; [|done].
        rewrite not_elem_of_cons. split; [congruence|done].
Qed.

(** X1. [errorStatus] never raises, not even for an error that
    [String(e)] cannot render: it always gives a status ["failed"], with
    the metadata itself for a [VerificationError] and with the rendering
    of the error otherwise. *)
Theorem errorStatus_never_raises :
  forall e,
    exists st,
      errorStatus e = Resolved st
      /\ status st = §"failed"
      /\ match e with
         | NewVerificationError _ metadata => error st = Some metadata
         | _ => exists msg, toString e = Resolved msg /\ error st = Some (JStr msg)
         end.
Proof.
  intros e. destruct e as [[|c m]|m md|[|c m]|r]; simpl; eauto 10.
Qed.

Section TypescriptOutcomes.

Variable exec : jsstring -> list jsstring -> option jsstring -> option ProcExit.

(** The two commands of the setup stage. *)
Definition installRun (dir : jsstring) : option ProcExit :=
  exec (§"bun") [§"install"] (Some (Path.join [dir; §"project"])).
Definition codegenRun (dir : jsstring) : option ProcExit :=
  exec (§"bunx") [§"convex"; §"codegen"; §"--typecheck"; §"disable"; §"--init"]
    (Some (Path.join [dir; §"project"])).
Definition codegenEvent (dir : jsstring) : Event :=
  Run (§"bunx") [§"convex"; §"codegen"; §"--typecheck"; §"disable"; §"--init"]
    (Some (Path.join [dir; §"project"])).

Definition exitedWith0 (r : option ProcExit) : Prop :=
  exists p, r = Some p /\ code p = Some 0.

Lemma exitedWith0_dec r : Decision (exitedWith0 r).
Proof.
  destruct r as [p|]; [|right; by intros (p & ? & _)].
  destruct (decide (code p = Some 0)) as [H|H].
  - left. by exists p.
  - right. intros (p' & [= <-] & ?). done.
Qed.

(** The setup stage, case by case. *)
Lemma setupJs_cases dir w :
  let r := setupJs exec dir w in
  let install := Run (§"bun") [§"install"] (Some (Path.join [dir; §"project"])) in
  match installRun dir with
  | None => r = ({| now := now w; trace := trace w ++ [install] |}, None)
  | Some i =>
      if bool_decide (code i = Some 0) then
        let w1 := {| now := now w;
                     trace := trace w ++ [install; ConsoleLog (§"Install OK!");
                                          codegenEvent dir] |} in
        match codegenRun dir with
        | None => r = (w1, None)
        | Some c =>
            if bool_decide (code c = Some 0)
            then r = ({| now := now w;
                         trace := trace w1 ++ [ConsoleLog (§"Codegen OK!")] |},
                      Some (Resolved tt))
            else r = (w1, Some (Rejected (NewError (§"Codegen failed with code "
                                                     ++ showCode (code c)))))
        end
      else r = ({| now := now w; trace := trace w ++ [install] |},
                Some (Rejected (NewError (§"Install failed with code "
                                           ++ showCode (code i)))))
  end.
Proof.
  cbv zeta. unfold setupJs, spawnClose, installRun, codegenRun, codegenEvent.
  unfold_monad. cbn [fst snd now trace].
  destruct (exec (§"bun") _ _) as [i|]; [|done].
  destruct (bool_decide (code i = Some 0)); [|done].
  cbn [fst snd now trace].
  destruct (exec (§"bunx") _ _) as [c|];
    [|cbn [fst snd now trace]; by rewrite <- !app_assoc].
  destruct (bool_decide (code c = Some 0));
    cbn [fst snd now trace]; by rewrite <- !app_assoc.
Qed.

End TypescriptOutcomes.

(** X2. The setup stage resolves exactly when both of its commands,
    [bun install] and then [bunx convex codegen], exit with code 0, and
    the code generation is started exactly when the install has exited
    with code 0: it is never run after a failed install. *)
Theorem setupJs_runs_codegen_after_install :
  forall exec dir w,
    let r := setupJs exec dir w in
    let new := drop (length (trace w)) (trace r.1) in
    (r.2 = Some (Resolved tt)
     <-> exitedWith0 (installRun exec dir) /\ exitedWith0 (codegenRun exec dir))
    /\ (codegenEvent dir ∈ new <-> exitedWith0 (installRun exec dir)).
Proof.
  intros exec dir w r new. subst new r.
  pose proof (setupJs_cases exec dir w) as H. cbv zeta in H.
  unfold exitedWith0.
  destruct (installRun exec dir) as [i|].
  - destruct (bool_decide_reflect (code i = Some 0)) as [Hi|Hi].
    + destruct (codegenRun exec dir) as [c|].
      * destruct (bool_decide_reflect (code c = Some 0)) as [Hc|Hc];
          rewrite H; cbn [fst snd trace]; rewrite <- ?app_assoc, drop_app_length.
        -- split; [split; [eauto 10|done]|].
           split; [eauto|]. intros _. unfold codegenEvent.
           do 2 apply list_elem_of_further. apply list_elem_of_here.
        -- split.
           ++ split; [done|]. intros [_ (c' & [= <-] & Hc')]. done.
           ++ split; [eauto|]. intros _. unfold codegenEvent.
              do 2 apply list_elem_of_further. apply list_elem_of_here.
      * rewrite H. cbn [fst snd trace]. rewrite drop_app_length. split.
        -- split; [done|]. by intros [_ (c' & ? & _)].
        -- split; [eauto|]. intros _. unfold codegenEvent.
           do 2 apply list_elem_of_further. apply list_elem_of_here.
    + rewrite H. cbn [fst snd trace]. rewrite drop_app_length. split.
      * split; [done|]. intros [(i' & [= <-] & Hi') _]. done.
      * split.
        -- intros Hin. apply list_elem_of_singleton in Hin. discriminate Hin.
        -- intros (i' & [= <-] & Hi'). done.
  - rewrite H. cbn [fst snd trace]. rewrite drop_app_length. split.
    + split; [done|]. by intros [(i' & ? & _) _].
    + split.
      * intros Hin. apply list_elem_of_singleton in Hin. discriminate Hin.
      * by intros (i' & ? & _).
Qed.

(** X3. When the type checker exits with another code than 0, the
    stage rejects with a [VerificationError] whose metadata are the lines
    of the captured output: no line holds a newline, joined by newlines
    they give the output back, and [String(e)] is the message
    "Typechecking failed" on a line of its own followed by the output as
    it was captured. *)
Theorem typecheckJs_failure_keeps_output :
  forall exec dir w r,
    exec (§"bunx")
      [§"tsc"; §"-noEmit"; §"-p"; Path.join [dir; §"project"; §"convex"]] None
    = Some r ->
    code r <> Some 0 ->
    let lines := JS.split 10 (output r) in
    let e := NewVerificationError (§"Typechecking failed") (JArr (map JStr lines)) in
    (typecheckJs exec dir w).2 = Some (Rejected e)
    /\ Forall (fun line => 10%N ∉ line) lines
    /\ JS.joinWith [10%N] lines = output r
    /\ toString e = Resolved (§"Typechecking failed" ++ [10%N] ++ output r).
Proof.
  intros exec dir w r Hexec Hcode lines e. split; [|split; [|split]].
  - unfold typecheckJs, spawnClose. rewrite !bind_eq. unfold emit.
    rewrite Hexec. unfold mret, M_ret, ret.
    by rewrite bool_decide_eq_false_2.
  - apply split_pieces.
  - apply joinWith_split.
  - subst e lines. unfold toString, arrayJoin.
    rewrite elementStrings_strings. simpl. by rewrite joinWith_split.
Qed.

(** A compiler that exits with 2 after two lines of diagnostics. *)
Definition tscFails : jsstring -> list jsstring -> option jsstring -> option ProcExit :=
  fun _ _ _ =>
    Some {| code := Some 2;
            output := §"a.ts(1,1): error TS2304" ++ [10%N] ++ §"Found 1 error." |}.

Lemma typecheckJs_failure_keeps_output_witness :
  toString (NewVerificationError (§"Typechecking failed")
              (JArr (map JStr
                       (JS.split 10 (§"a.ts(1,1): error TS2304" ++ [10%N]
                                     ++ §"Found 1 error.")))))
  = Resolved (§"Typechecking failed" ++ [10%N]
              ++ (§"a.ts(1,1): error TS2304" ++ [10%N] ++ §"Found 1 error.")).
Proof.
  apply (typecheckJs_failure_keeps_output tscFails (§"out/evals/b/a") w0
           {| code := Some 2;
              output := §"a.ts(1,1): error TS2304" ++ [10%N] ++ §"Found 1 error." |}).
  - reflexivity.
  - done.
Defined.

(** ** typescript.ts: the outcomes of the lint stage *)

(** A record without its [source] field. *)
Definition withoutSource (record : list (jsstring * JSON)) : list (jsstring * JSON) :=
  filter (fun kv => kv.1 <> §"source") record.

Lemma withoutSource_spec record :
  ((§"source") ∉ (withoutSource record).*1)
  /\ (withoutSource record `sublist_of` record)
  /\ (forall kv, kv ∈ withoutSource record <-> kv ∈ record /\ kv.1 <> §"source").
Proof.
  unfold withoutSource. split; [|split].
  - intros Hin. apply list_elem_of_fmap in Hin as (kv & Hk & Hin).
    apply list_elem_of_filter in Hin as [Hne _]. by rewrite <- Hk in Hne.
  - apply sublist_filter.
  - intros kv. rewrite list_elem_of_filter. tauto.
Qed.

(** X4. When the linter exits with another code than 0 and its output
    parses as a list of records, the stage rejects with a
    [VerificationError] "Linting failed" whose metadata is the list of
    the same records, in the same order, each without its [source] field
    and with every other field kept, in place. *)
Theorem lintJs_strips_source :
  forall exec JSON_parse dir w r records,
    exec (§"bunx")
      [§"eslint"; §"-c"; §"eslint.config.mjs";
       Path.join [dir; §"project"; §"convex"]] None = Some r ->
    code r <> Some 0 ->
    JSON_parse (output r) = Some (JArr (map JObj records)) ->
    (lintJs exec JSON_parse dir w).2
    = Some (Rejected (NewVerificationError (§"Linting failed")
                        (JArr (map JObj (map withoutSource records)))))
    /\ Forall (fun record' => (§"source") ∉ record'.*1) (map withoutSource records)
    /\ Forall2 (fun record record' =>
                  (record' `sublist_of` record)
                  /\ forall kv, kv ∈ record' <-> kv ∈ record /\ kv.1 <> §"source")
         records (map withoutSource records).
Proof.
  intros exec JSON_parse dir w r records Hexec Hcode Hparse. split; [|split].
  - rewrite (lintJs_outcome exec JSON_parse dir w r Hexec Hcode).
    unfold lintError. rewrite Hparse, stripErrors_records.
    by rewrite <- list_fmap_compose.
  - apply Forall_fmap, Forall_forall. intros record _.
    apply withoutSource_spec.
  - apply Forall2_fmap_r, Forall_Forall2_diag, Forall_forall.
    intros record _. split; apply withoutSource_spec.
Qed.

Lemma lintJs_strips_source_witness :
  (lintJs (lintExits lintFails) exampleParse (§"out/evals/b/a") w0).2
  = Some (Rejected (NewVerificationError (§"Linting failed")
                      (JArr (map JObj
                               (map withoutSource
                                  [[(§"filePath", JStr (§"convex/index.ts"));
                                    (§"messages",
                                     JArr [JObj [(§"ruleId", JStr (§"no-unused-vars"))]]);
                                    (§"source", JStr (§"const x = 1;"))]]))))).
Proof.
  apply (lintJs_strips_source (lintExits lintFails) exampleParse
           (§"out/evals/b/a") w0 lintFails
           [[(§"filePath", JStr (§"convex/index.ts"));
             (§"messages", JArr [JObj [(§"ruleId", JStr (§"no-unused-vars"))]]);
             (§"source", JStr (§"const x = 1;"))]]).
  - by vm_compute.
  - done.
  - by vm_compute.
Defined.

(** Parsed outputs the loop over the diagnostics cannot go through:
    values that are not iterable, and lists that hold a [null]. *)
Definition notStrippable (v : JSON) : Prop :=
  match v with
  | JArr items => JNull ∈ items
  | JStr _ => False
  | _ => True
  end.

Lemma deleteSources_null items :
  JNull ∈ items -> exists e, deleteSources items = Rejected e.
Proof.
  induction items as [|x items IH]; intros Hin.
  - by apply elem_of_nil in Hin.
  - simpl. apply elem_of_cons in Hin as [<-|Hin]; [by eauto|].
    destruct (deleteSource x) as [x'|e]; [|by eauto].
    destruct (IH Hin) as [e ->]. eauto.
Qed.

(** X5. When the linter exits with another code than 0 and its output
    does not parse as JSON, or parses as a value that the loop over the
    diagnostics cannot go through ([null], a number, a boolean, an
    object, a list holding a [null]), the stage rejects with a plain
    [Error] whose message is "ESLint failed with output: " followed by
    the raw output, and [String(e)] of it never raises. *)
Theorem lintJs_falls_back_to_raw_output :
  forall exec JSON_parse dir w r,
    exec (§"bunx")
      [§"eslint"; §"-c"; §"eslint.config.mjs";
       Path.join [dir; §"project"; §"convex"]] None = Some r ->
    code r <> Some 0 ->
    match JSON_parse (output r) with
    | None => True
    | Some v => notStrippable v
    end ->
    let e := NewError (§"ESLint failed with output: " ++ output r) in
    (lintJs exec JSON_parse dir w).2 = Some (Rejected e)
    /\ toString e = Resolved (§"Error: " ++ §"ESLint failed with output: " ++ output r).
Proof.
  intros exec JSON_parse dir w r Hexec Hcode Hparse e. split.
  - rewrite (lintJs_outcome exec JSON_parse dir w r Hexec Hcode).
    unfold lintError.
    destruct (JSON_parse (output r)) as [v|]; [|done].
    destruct v as [|b|n|s|items|fields]; try done.
    simpl in Hparse. unfold stripErrors.
    by destruct (deleteSources_null items Hparse) as [e' ->].
  - subst e. unfold toString.
    destruct (§"ESLint failed with output: " ++ output r) eqn:Hmsg; [|done].
    apply (f_equal length) in Hmsg. rewrite length_app in Hmsg.
    by vm_compute in Hmsg.
Qed.

(** The linter prints a stack trace and exits with 2. *)
Definition lintCrashes : ProcExit :=
  {| code := Some 2; output := §"Oops! Something went wrong! :(" |}.

Lemma lintJs_falls_back_to_raw_output_witness :
  (lintJs (lintExits lintCrashes) exampleParse (§"out/evals/b/a") w0).2
  = Some (Rejected (NewError (§"ESLint failed with output: "
                              ++ §"Oops! Something went wrong! :("))).
Proof.
  apply (lintJs_falls_back_to_raw_output (lintExits lintCrashes) exampleParse
           (§"out/evals/b/a") w0 lintCrashes).
  - by vm_compute.
  - done.
  - by vm_compute.
Defined.

(** ** main.ts and typescript.ts: a failed typecheck in the report *)

(** X6. When the type checker exits with another code than 0, the
    [catch] block of the evaluation loop does not raise: the stage is
    recorded as ["failed"] with the message "Typechecking failed" and,
    from the next line on, the output of the type checker as it was
    captured; the entry is marked as not all ok. *)
Theorem typecheck_failure_is_recorded :
  forall exec dir entry allOk w r,
    exec (§"bunx")
      [§"tsc"; §"-noEmit"; §"-p"; Path.join [dir; §"project"; §"convex"]] None
    = Some r ->
    code r <> Some 0 ->
    let res := runStage Typecheck (typecheckJs exec) dir (entry, allOk) w in
    let st := failedStatus (§"Typechecking failed" ++ [10%N] ++ output r) in
    res.2 = Some (Resolved (setStage Typecheck st entry, false))
    /\ recordsOf (drop (length (trace w)) (trace res.1)) = [(Typecheck, st)].
Proof.
  intros exec dir entry allOk w r Hexec Hcode. cbv zeta.
  rewrite runStage_eq. unfold typecheckJs, spawnClose.
  rewrite !bind_eq. unfold emit. rewrite Hexec. unfold mret, M_ret, ret.
  rewrite bool_decide_eq_false_2 by done. unfold throw.
  unfold toString, arrayJoin. rewrite elementStrings_strings.
  cbn [fmap option_fmap option_map]. rewrite joinWith_split.
  cbn [fst snd now trace]. split; [done|].
  rewrite <- !app_assoc, drop_app_length. done.
Qed.

Lemma typecheck_failure_is_recorded_witness :
  (runStage Typecheck (typecheckJs tscFails) (§"out/evals/b/a")
     (emptyEntry, true) w0).2
  = Some (Resolved
            (setStage Typecheck
               (failedStatus
                  (§"Typechecking failed" ++ [10%N]
                   ++ (§"a.ts(1,1): error TS2304" ++ [10%N] ++ §"Found 1 error.")))
               emptyEntry, false)).
Proof.
  apply (typecheck_failure_is_recorded tscFails (§"out/evals/b/a") emptyEntry true w0
           {| code := Some 2;
              output := §"a.ts(1,1): error TS2304" ++ [10%N] ++ §"Found 1 error." |}).
  - reflexivity.
  - done.
Defined.

(** ** convex_backend.ts: how long the health check goes on *)

(** The requests a trace makes, in order. *)
Definition fetchesOf (tr : list Event) : list jsstring :=
  omap (fun ev => match ev with Fetch url => Some url | _ => None end) tr.

Lemma fetchesOf_app tr1 tr2 : fetchesOf (tr1 ++ tr2) = fetchesOf tr1 ++ fetchesOf tr2.
Proof. apply omap_app. Qed.

Lemma fetchesOf_rounds ds : length (fetchesOf (rounds ds)) = length ds.
Proof.
  induction ds as [|d ds IH]; [done|].
  change (rounds (d :: ds)) with ([Fetch versionUrl; Sleep d] ++ rounds ds).
  rewrite fetchesOf_app, length_app, IH. done.
Qed.

Section HealthCheckBounds.

Variable fetchVersion : nat -> FetchResult.
Variable timerLate : nat -> Z.

(** A loop that ran out of fuel has slept once per unit of fuel. *)
Lemma healthCheckLoop_pending fuel deadline n w :
  (healthCheckLoop fetchVersion timerLate fuel deadline n w).2 = None ->
  length (sleepsOf (trace (healthCheckLoop fetchVersion timerLate fuel deadline n w).1))
  = (length (sleepsOf (trace w)) + fuel)%nat.
Proof.
  revert n w. induction fuel as [|fuel IH]; intros n w.
  - simpl. lia.
  - rewrite healthCheckLoop_S.
    destruct (probeError fetchVersion n) as [e|]; [|done].
    destruct (deadline - now (afterFetch fetchVersion w n) <? 0); [done|].
    intros H. rewrite (IH _ _ H). simpl.
    rewrite !sleepsOf_app, !length_app. simpl. lia.
Qed.

(** The loop resolves at the first request that is answered with a
    status of the 200s, when the requests before it failed within the
    budget. *)
Lemma healthCheckLoop_succeeds j :
  forall fuel deadline n w,
    (j < fuel)%nat ->
    probeError fetchVersion (n + j) = None ->
    (forall k, (k < j)%nat ->
       probeError fetchVersion (n + k) <> None
       /\ 0 <= deadline - probeEnd fetchVersion timerLate deadline (now w) n k) ->
    let r := healthCheckLoop fetchVersion timerLate fuel deadline n w in
    r.2 = Some (Resolved true)
    /\ length (sleepsOf (trace r.1)) = (length (sleepsOf (trace w)) + j)%nat
    /\ now r.1 = probeEnd fetchVersion timerLate deadline (now w) n j.
Proof.
  induction j as [|j IH]; intros fuel deadline n w Hfuel Hok Hbefore;
    (destruct fuel as [|fuel]; [lia|]); cbv zeta; rewrite healthCheckLoop_S.
  - rewrite Nat.add_0_r in Hok. rewrite Hok. simpl.
    rewrite sleepsOf_app, length_app. simpl. split; [done|]. split; [lia|done].
  - destruct (Hbefore 0%nat) as [Herr Hrem]; [lia|].
    rewrite Nat.add_0_r in Herr. simpl in Hrem.
    destruct (probeError fetchVersion n) as [e|]; [|done].
    destruct (Z.ltb_spec (deadline - now (afterFetch fetchVersion w n)) 0)
      as [Hlt|_]; [simpl in Hlt; lia|].
    destruct (IH fuel deadline (S n)
                (afterSleep timerLate deadline (afterFetch fetchVersion w n) n))
      as (Hr & Hlen & Hnow).
    + lia.
    + by replace (S n + j)%nat with (n + S j)%nat by lia.
    + intros k Hk. destruct (Hbefore (S k)) as [Herr' Hrem']; [lia|].
      split; [by replace (S n + k)%nat with (n + S k)%nat by lia|].
      exact Hrem'.
    + cbv zeta in Hr, Hlen, Hnow. rewrite Hr, Hlen, Hnow. simpl.
      rewrite !sleepsOf_app, !length_app. simpl. split; [done|]. split; [lia|done].
Qed.

Hypothesis took_pos : forall n, 1 <= took (fetchVersion n).
Hypothesis late_nonneg : forall n, 0 <= timerLate n.

(** The delays double from 100: the eighth request settles past the
    deadline. *)
Lemma eighth_request_is_late t :
  t + totalTimeout
  - probeEnd fetchVersion timerLate (t + totalTimeout) t 0 7 < 0.
Proof.
  set (deadline := t + totalTimeout).
  pose proof (probeEnd_S fetchVersion timerLate deadline t 0 0) as H0.
  pose proof (probeEnd_S fetchVersion timerLate deadline t 0 1) as H1.
  pose proof (probeEnd_S fetchVersion timerLate deadline t 0 2) as H2.
  pose proof (probeEnd_S fetchVersion timerLate deadline t 0 3) as H3.
  pose proof (probeEnd_S fetchVersion timerLate deadline t 0 4) as H4.
  pose proof (probeEnd_S fetchVersion timerLate deadline t 0 5) as H5.
  pose proof (probeEnd_S fetchVersion timerLate deadline t 0 6) as H6.
  assert (probeEnd fetchVersion timerLate deadline t 0 0 = t + took (fetchVersion 0))
    as Hstart by done.
  cbn [Nat.add] in *.
  pose proof (took_pos 0) as T0. pose proof (took_pos 1) as T1.
  pose proof (took_pos 2) as T2. pose proof (took_pos 3) as T3.
  pose proof (took_pos 4) as T4. pose proof (took_pos 5) as T5.
  pose proof (took_pos 6) as T6. pose proof (took_pos 7) as T7.
  pose proof (late_nonneg 0) as L0. pose proof (late_nonneg 1) as L1.
  pose proof (late_nonneg 2) as L2. pose proof (late_nonneg 3) as L3.
  pose proof (late_nonneg 4) as L4. pose proof (late_nonneg 5) as L5.
  pose proof (late_nonneg 6) as L6.
  unfold backoff, baseDelay in *.
  change (2 ^ Z.of_nat 0) with 1 in *. change (2 ^ Z.of_nat 1) with 2 in *.
  change (2 ^ Z.of_nat 2) with 4 in *. change (2 ^ Z.of_nat 3) with 8 in *.
  change (2 ^ Z.of_nat 4) with 16 in *. change (2 ^ Z.of_nat 5) with 32 in *.
  change (2 ^ Z.of_nat 6) with 64 in *.
  generalize dependent (probeEnd fetchVersion timerLate deadline t 0 7).
  generalize dependent (probeEnd fetchVersion timerLate deadline t 0 6).
  generalize dependent (probeEnd fetchVersion timerLate deadline t 0 5).
  generalize dependent (probeEnd fetchVersion timerLate deadline t 0 4).
  generalize dependent (probeEnd fetchVersion timerLate deadline t 0 3).
  generalize dependent (probeEnd fetchVersion timerLate deadline t 0 2).
  generalize dependent (probeEnd fetchVersion timerLate deadline t 0 1).
  generalize dependent (probeEnd fetchVersion timerLate deadline t 0 0).
  subst deadline. unfold totalTimeout. intros. lia.
Qed.

End HealthCheckBounds.

(** X7. When every request takes a millisecond or more and no timer
    fires early, the health check makes no more than 8 requests and
    sleeps no more than 7 times, whatever the requests give: the delays
    double from 100 milliseconds and the eighth request settles past the
    deadline.  It settles as soon as it is given the fuel for 8
    iterations. *)
Theorem healthCheck_at_most_eight_requests :
  forall fetchVersion timerLate fuel w,
    (forall n, 1 <= took (fetchVersion n)) ->
    (forall n, 0 <= timerLate n) ->
    let r := healthCheck fetchVersion timerLate fuel w in
    let new := drop (length (trace w)) (trace r.1) in
    (length (sleepsOf new) <= 7)%nat
    /\ (length (fetchesOf new) <= 8)%nat
    /\ ((8 <= fuel)%nat -> r.2 <> None).
Proof.
  intros fetchVersion timerLate fuel w Htook Hlate r new.
  destruct (healthCheckLoop_spec fetchVersion timerLate fuel
              (now w + totalTimeout) 0 w) as (ds & Htr & Hds & _).
  pose proof (healthCheckLoop_pending fetchVersion timerLate fuel
                (now w + totalTimeout) 0 w) as Hpending.
  rewrite <- healthCheck_eq in Htr, Hpending. fold r in Htr, Hpending.
  assert (new = rounds ds
                ++ match r.2 with Some _ => [Fetch versionUrl] | None => [] end)
    as Hnew by (subst new; by rewrite Htr, drop_app_length).
  assert (length ds <= 7)%nat as Hlen.
  { destruct (decide (length ds <= 7)%nat) as [|Hmore]; [done|]. exfalso.
    destruct (lookup_lt_is_Some_2 ds 7) as [d Hd]; [lia|].
    destruct (Hds 7%nat d Hd) as [Hrem _].
    pose proof (eighth_request_is_late fetchVersion timerLate Htook Hlate (now w)).
    lia. }
  assert (sleepsOf new = ds) as Hsleeps.
  { rewrite Hnew, sleepsOf_app, sleepsOf_rounds.
    destruct r.2; simpl; by rewrite app_nil_r. }
  split; [by rewrite Hsleeps|]. split.
  - rewrite Hnew, fetchesOf_app, length_app, fetchesOf_rounds.
    destruct r.2; simpl; lia.
  - intros Hfuel Hnone. specialize (Hpending Hnone).
    rewrite Htr, !sleepsOf_app, !length_app, sleepsOf_rounds, Hnone in Hpending.
    simpl in Hpending. lia.
Qed.

(** The bounds are met by a target that refuses every connection within
    a millisecond. *)
Lemma healthCheck_at_most_eight_requests_witness :
  let r := healthCheck (refusing 1) onTime 8 w0 in
  let new := drop (length (trace w0)) (trace r.1) in
  ((length (sleepsOf new) <= 7)%nat
   /\ (length (fetchesOf new) <= 8)%nat
   /\ ((8 <= 8)%nat -> r.2 <> None))
  /\ length (sleepsOf new) = 7%nat /\ length (fetchesOf new) = 8%nat.
Proof.
  split.
  - apply (healthCheck_at_most_eight_requests (refusing 1) onTime 8 w0).
    + intros n. simpl. lia.
    + intros n. unfold onTime. lia.
  - by vm_compute.
Defined.

(** X8. The health check resolves, with [true], at the first request
    that is answered with a status from 200 to 299, provided the
    requests before it all failed with the budget not yet overrun: it
    has slept once after each of those and asks for nothing more. *)
Theorem healthCheck_resolves_at_first_ok :
  forall fetchVersion timerLate fuel w j st,
    (j < fuel)%nat ->
    outcome (fetchVersion j) = Response st ->
    200 <= st <= 299 ->
    (forall k, (k < j)%nat ->
       probeError fetchVersion k <> None
       /\ probeEnd fetchVersion timerLate (now w + totalTimeout) (now w) 0 k
          <= now w + totalTimeout) ->
    let r := healthCheck fetchVersion timerLate fuel w in
    let new := drop (length (trace w)) (trace r.1) in
    r.2 = Some (Resolved true)
    /\ length (sleepsOf new) = j
    /\ length (fetchesOf new) = S j
    /\ now r.1 = probeEnd fetchVersion timerLate (now w + totalTimeout) (now w) 0 j.
Proof.
  intros fetchVersion timerLate fuel w j st Hfuel Hj Hst Hbefore r new.
  assert (probeError fetchVersion j = None) as Hok.
  { unfold probeError, responseOk. rewrite Hj.
    destruct (Z.leb_spec 200 st); [|lia]. destruct (Z.leb_spec st 299); [done|lia]. }
  destruct (healthCheckLoop_succeeds fetchVersion timerLate j fuel
              (now w + totalTimeout) 0 w Hfuel Hok) as (Hr & Hlen & Hnow).
  { intros k Hk. destruct (Hbefore k Hk) as [Herr Hrem]. split; [done|lia]. }
  destruct (healthCheckLoop_spec fetchVersion timerLate fuel
              (now w + totalTimeout) 0 w) as (ds & Htr & _ & _).
  rewrite <- healthCheck_eq in Hr, Hlen, Hnow, Htr. fold r in Hr, Hlen, Hnow, Htr.
  rewrite Hr in Htr.
  assert (new = rounds ds ++ [Fetch versionUrl])
    as Hnew by (subst new; by rewrite Htr, drop_app_length).
  rewrite Htr, !sleepsOf_app, !length_app, sleepsOf_rounds in Hlen.
  simpl in Hlen. assert (length ds = j) as Hds by lia.
  split; [done|]. split; [|split; [|done]].
  - rewrite Hnew, sleepsOf_app, sleepsOf_rounds. simpl. rewrite app_nil_r. done.
  - rewrite Hnew, fetchesOf_app, length_app, fetchesOf_rounds. simpl. lia.
Qed.

(** A backend that refuses the first two connections and then answers. *)
Definition startsLate : nat -> FetchResult := fun n =>
  if (n <? 2)%nat then {| took := 1; outcome := FetchFailed (§"ConnectionRefused") |}
  else {| took := 5; outcome := Response 200 |}.

Lemma healthCheck_resolves_at_first_ok_witness :
  let r := healthCheck startsLate onTime 3 w0 in
  r.2 = Some (Resolved true)
  /\ length (sleepsOf (drop (length (trace w0)) (trace r.1))) = 2%nat
  /\ length (fetchesOf (drop (length (trace w0)) (trace r.1))) = 3%nat
  /\ now r.1 = probeEnd startsLate onTime (now w0 + totalTimeout) (now w0) 0 2.
Proof.
  apply (healthCheck_resolves_at_first_ok startsLate onTime 3 w0 2 200).
  - lia.
  - reflexivity.
  - lia.
  - intros k Hk.
    destruct k as [|[|k]]; [by vm_compute|by vm_compute|lia].
Defined.

(** ** convex_backend.ts: when the deploy command is run *)

(** The deploy command, run in the project directory. *)
Definition deployArgs : list jsstring :=
  [§"convex"; §"dev"; §"--once"; §"--admin-key"; adminKey;
   §"--url"; §"http://localhost:3210"].
Definition deployCommand (outputDir : jsstring) : Event :=
  Run (§"bunx") deployArgs (Some (Path.join [outputDir; §"project"])).

(** Events of the health check. *)
Definition probing (ev : Event) : Prop :=
  match ev with
  | Fetch _ | Sleep _ => True
  | _ => False
  end.

Section DeployOutcomes.

Variable fetchVersion : nat -> FetchResult.
Variable timerLate : nat -> Z.
Variable backendExitCode : Z -> option Z.
Variable exec : jsstring -> list jsstring -> option jsstring -> option ProcExit.

(** The [try] block of [deploy], case by case. *)
Lemma deployBody_cases fuel outputDir w :
  let hc := healthCheck fetchVersion timerLate fuel w in
  let body := deployBody fetchVersion timerLate backendExitCode exec fuel
                (Path.join [outputDir; §"project"]) w in
  let ran := {| now := now hc.1; trace := trace hc.1 ++ [deployCommand outputDir] |} in
  match hc.2 with
  | None => body = (hc.1, None)
  | Some (Rejected e) => body = (hc.1, Some (Rejected e))
  | Some (Resolved _) =>
      match backendExitCode (now hc.1) with
      | Some _ =>
          body = (hc.1, Some (Rejected (NewError (§"Convex process failed to start"))))
      | None =>
          match exec (§"bunx") deployArgs (Some (Path.join [outputDir; §"project"])) with
          | None => body = (ran, None)
          | Some result =>
              if bool_decide (code result = Some 0)
              then body = ({| now := now hc.1;
                              trace := trace ran ++ [ConsoleLog (§"Deploy OK!")] |},
                           Some (Resolved tt))
              else body = (ran, Some (Rejected (NewError (§"Deploy failed with code "
                                                          ++ showCode (code result)))))
          end
      end
  end.
Proof.
  cbv zeta. unfold deployBody, deployCommand, deployArgs.
  rewrite (bind_eq (healthCheck fetchVersion timerLate fuel)).
  destruct (healthCheck fetchVersion timerLate fuel w) as [w1 [[b|e]|]];
    cbn [fst snd]; [|done|done].
  unfold spawnSync. unfold_monad. cbn [fst snd now trace].
  destruct (backendExitCode (now w1)) as [c|]; [done|].
  destruct (exec _ _ _) as [result|]; [|done].
  destruct (bool_decide (code result = Some 0)); [|done].
  cbn [fst snd now trace]. by rewrite <- !app_assoc.
Qed.

End DeployOutcomes.

(** X9. When the directories, the log files and the backend process
    are there, [deploy] runs the deploy command, in the project
    directory, exactly when the health check has resolved and the
    backend process has not exited by then; and [deploy] resolves exactly
    when, on top of that, the command exits with code 0.  With another
    exit code it rejects with "Deploy failed with code" and the code. *)
Theorem deploy_succeeds_iff :
  forall fetchVersion timerLate backendExitCode exec fault processCwd
         fuel outputDir w,
    (forall ev, fault ev = None) ->
    let hc := healthCheck fetchVersion timerLate fuel
                (acquired processCwd outputDir w) in
    let r := deploy fetchVersion timerLate backendExitCode exec fault
               processCwd fuel outputDir w in
    let new := drop (length (trace w)) (trace r.1) in
    let result := exec (§"bunx") deployArgs (Some (Path.join [outputDir; §"project"])) in
    let up := hc.2 = Some (Resolved true) /\ backendExitCode (now hc.1) = None in
    (deployCommand outputDir ∈ new <-> up)
    /\ (r.2 = Some (Resolved tt) <-> up /\ exitedWith0 result)
    /\ (forall p, up -> result = Some p -> code p <> Some 0 ->
          r.2 = Some (Rejected (NewError (§"Deploy failed with code "
                                          ++ showCode (code p))))).
Proof.
  intros fetchVersion timerLate backendExitCode exec fault processCwd
         fuel outputDir w Hfault. cbv zeta.
  rewrite deploy_acquired by done. rewrite tryFinally_release.
  set (w5 := acquired processCwd outputDir w).
  pose proof (deployBody_cases fetchVersion timerLate backendExitCode exec
                fuel outputDir w5) as Hbody. cbv zeta in Hbody.
  destruct (healthCheck_emits fetchVersion timerLate probing fuel) with (w := w5)
    as (probes & Htr & Hprobes); [done|done|].
  pose proof (healthCheckLoop_spec fetchVersion timerLate fuel
                (now w5 + totalTimeout) 0%nat w5) as (ds & _ & _ & Hend).
  rewrite <- healthCheck_eq in Hend.
  assert (deployCommand outputDir ∉ probes) as Hnot.
  { intros Hin. rewrite Forall_forall in Hprobes. by apply (Hprobes _ Hin). }
  destruct (healthCheck fetchVersion timerLate fuel w5) as [w6 o].
  cbn [fst snd] in *.
  assert (forall tail,
             drop (length (trace w)) ((trace w6 ++ tail))
             = drop (length (trace w)) (trace w5) ++ probes ++ tail) as Hdrop.
  { intros tail. rewrite Htr. subst w5. unfold acquired. cbn [trace].
    rewrite <- !app_assoc, !drop_app_length. done. }
  assert (drop (length (trace w)) (trace w6)
          = drop (length (trace w)) (trace w5) ++ probes) as Hdrop0.
  { rewrite <- (app_nil_r (trace w6)), Hdrop. by rewrite app_nil_r. }
  assert (deployCommand outputDir ∉ drop (length (trace w)) (trace w5)) as Hacq.
  { subst w5. unfold acquired. cbn [trace]. rewrite drop_app_length.
    rewrite !not_elem_of_cons. repeat split; try done. apply not_elem_of_nil. }
  assert (deployCommand outputDir ∉ released) as Hrel.
  { unfold released. rewrite !not_elem_of_cons.
    repeat split; try done. apply not_elem_of_nil. }
  unfold exitedWith0.
  destruct o as [[b|e]|].
  - destruct (Hend _ eq_refl) as [_ [-> _]].
    destruct (backendExitCode (now w6)) as [c|].
    + rewrite Hbody. cbn [fst snd trace]. rewrite Hdrop.
      split; [|split].
      * split; [|by intros [_ ?]]. intros Hin.
        rewrite !elem_of_app in Hin. tauto.
      * split; [done|]. by intros [[_ ?] _].
      * by intros p [_ ?].
    + destruct (exec _ _ _) as [p|].
      * destruct (bool_decide_reflect (code p = Some 0)) as [Hp|Hp];
          rewrite Hbody; cbn [fst snd trace now];
          rewrite <- ?app_assoc, Hdrop.
        -- split; [|split].
           ++ split; [done|]. intros _. rewrite !elem_of_app. right. right. left.
              apply list_elem_of_here.
           ++ split; [eauto 10|done].
           ++ intros p' _ [= <-] Hp'. done.
        -- split; [|split].
           ++ split; [done|]. intros _. rewrite !elem_of_app. right. right. left.
              apply list_elem_of_here.
           ++ split; [done|]. intros [_ (p' & [= <-] & Hp')]. done.
           ++ by intros p' _ [= <-] _.
      * rewrite Hbody. cbn [fst snd trace now]. rewrite Hdrop.
        split; [|split].
        -- split; [done|]. intros _. rewrite !elem_of_app. right. right.
           apply list_elem_of_here.
        -- split; [done|]. by intros [_ (p' & ? & _)].
        -- by intros p' _ ?.
  - rewrite Hbody. cbn [fst snd trace]. rewrite Hdrop.
    split; [|split].
    + split; [|by intros [? _]]. intros Hin.
      rewrite !elem_of_app in Hin. tauto.
    + split; [done|]. by intros [[? _] _].
    + by intros p [? _].
  - rewrite Hbody. cbn [fst snd trace]. rewrite Hdrop0.
    split; [|split].
    + split; [|by intros [? _]]. intros Hin.
      rewrite !elem_of_app in Hin. tauto.
    + split; [done|]. by intros [[? _] _].
    + by intros p [? _].
Qed.

(** The deploy command exits with 1 against a backend that is up. *)
Lemma deploy_succeeds_iff_witness :
  (deploy healthy onTime running (exits 1) noFault (§"/harness") 3
     (§"out/evals/b/a") w0).2
  = Some (Rejected (NewError (§"Deploy failed with code " ++ showCode (Some 1)))).
Proof.
  destruct (deploy_succeeds_iff healthy onTime running (exits 1) noFault
              (§"/harness") 3%nat (§"out/evals/b/a") w0) as (_ & _ & H).
  - done.
  - apply (H {| code := Some 1; output := [] |}).
    + by vm_compute.
    + reflexivity.
    + done.
Defined.

(** X10. When [deploy] ends without having called for the backend
    process, it has been rejected with the system error of one of the
    operations before that call (making the two directories, opening the
    two log files), and it has done nothing but make directories and
    open log files: nothing was probed, no command was run, and no log
    file that was opened has been closed. *)
Theorem deploy_acquisition_failure :
  forall fetchVersion timerLate backendExitCode exec fault processCwd
         fuel outputDir w,
    let r := deploy fetchVersion timerLate backendExitCode exec fault
               processCwd fuel outputDir w in
    let new := drop (length (trace w)) (trace r.1) in
    (forall b a c, SpawnBackend b a c ∉ new) ->
    (exists ev l, beforeSpawn ev /\ fault ev = Some l
                  /\ r.2 = Some (Rejected (Thrown l)))
    /\ Forall beforeSpawn new
    /\ (forall f, CloseLog f ∉ new).
Proof.
  intros fetchVersion timerLate backendExitCode exec fault processCwd
         fuel outputDir w r new Hnone.
  pose proof (deploy_cases fetchVersion timerLate backendExitCode exec fault
                processCwd fuel outputDir w) as Hcases.
  cbv zeta in Hcases. fold r in Hcases.
  assert (Forall beforeSpawn new
          /\ exists ev l, beforeSpawn ev /\ fault ev = Some l
                           /\ r.2 = Some (Rejected (Thrown l))) as [Hnew Hfault].
  { destruct Hcases as [(acq & e & (ev & l & Hev & Hl & ->) & Htr & Hacq & Hr)
                       |(acq & b & a & c & body & _ & _ & [[Htr _]|[Htr _]])].
    - subst new. rewrite Htr, drop_app_length. split; [done|]. by exists ev, l.
    - exfalso. apply (Hnone b a c). subst new. rewrite Htr, drop_app_length.
      rewrite !elem_of_app. right. left. apply list_elem_of_here.
    - exfalso. apply (Hnone b a c). subst new. rewrite Htr, drop_app_length.
      rewrite !elem_of_app. right. left. apply list_elem_of_here. }
  split; [done|]. split; [done|].
  intros f Hin. rewrite Forall_forall in Hnew. by apply (Hnew _ Hin).
Qed.

Lemma deploy_acquisition_failure_witness :
  let r := deploy healthy onTime running (exits 0) tooManyFiles (§"/harness") 3
             (§"out/evals/b/a") w0 in
  let new := drop (length (trace w0)) (trace r.1) in
  (exists ev l, beforeSpawn ev /\ tooManyFiles ev = Some l
                /\ r.2 = Some (Rejected (Thrown l)))
  /\ Forall beforeSpawn new
  /\ (forall f, CloseLog f ∉ new).
Proof.
  apply (deploy_acquisition_failure healthy onTime running (exits 0) tooManyFiles
           (§"/harness") 3%nat (§"out/evals/b/a") w0).
  intros b a c Hin. vm_compute in Hin.
  repeat (apply elem_of_cons in Hin as [Hin|Hin]; [discriminate Hin|]).
  by apply elem_of_nil in Hin.
Defined.

(** ** generate.ts: when the loop over the file tags runs to its end *)

Lemma startsWith_prefix s p :
  JS.startsWith s p = true <-> exists rest, s = p ++ rest.
Proof.
  revert s. induction p as [|a p IH]; intros s.
  - split; [by exists s|by destruct s].
  - destruct s as [|b s]; simpl.
    + split; [done|]. by intros [rest ?].
    + rewrite andb_true_iff, N.eqb_eq, IH. split.
      * intros [-> [rest ->]]. by exists rest.
      * intros [rest [= -> ->]]. eauto.
Qed.

(** The count a tag adds to [generated]: [content.length], in UTF-16
    code units. *)
Definition contentLength (tag : FileTag) : Z :=
  Z.of_nat (length (JS.trim (tagText tag))).

Section GenerateOutcomes.

Variable fault : Event -> option jsstring.
Variable projectDir : jsstring.

Lemma writeFiles_resolves tags generated w :
  match (writeFiles fault projectDir tags generated w).2 with
  | Some (Resolved g') =>
      Forall (writable fault projectDir) tags /\ g' = generated + sumZ (map contentLength tags)
  | Some (Rejected _) => ~ Forall (writable fault projectDir) tags
  | None => False
  end.
Proof.
  revert generated w. induction tags as [|tag rest IH]; intros generated w.
  - simpl. split; [constructor|lia].
  - cbn [writeFiles].
    destruct (attrPath tag) as [[|c path]|] eqn:Hpath.
    + simpl. intros Hall.
      inversion Hall as [|? ? (p & Hp & Hne & _) _]; subst. congruence.
    + rewrite bind_eq. unfold emit at 1. cbn [fst snd].
      destruct (JS.startsWith (Path.join [projectDir; c :: path]) projectDir)
        eqn:Hstarts; cbn [negb].
      * rewrite perform_bind.
        destruct (fault (MkDir _)) as [l|] eqn:Hmk.
        { simpl. intros Hall.
          inversion Hall as [|? ? (p & Hp & _ & _ & Hmk' & _) _]; subst.
          congruence. }
        rewrite perform_bind.
        destruct (fault (WriteFile _ _)) as [l|] eqn:Hwr.
        { simpl. intros Hall.
          inversion Hall as [|? ? (p & Hp & _ & _ & _ & Hwr') _]; subst.
          congruence. }
        match goal with
        | |- context [writeFiles fault projectDir rest ?g ?w1] =>
            specialize (IH g w1);
            destruct (writeFiles fault projectDir rest g w1) as [w2 [[g'|e]|]]
        end; cbn [fst snd] in *; [| |done].
        -- destruct IH as [Hall ->]. split.
           ++ constructor; [|done]. exists (c :: path). by repeat split.
           ++ cbn [map sumZ foldr]. fold (sumZ (map contentLength rest)).
              unfold contentLength at 2. lia.
        -- intros Hall. inversion Hall; subst. by apply IH.
      * simpl. intros Hall.
        inversion Hall as [|? ? (p & Hp & _ & Hst & _) _]; subst. congruence.
    + simpl. intros Hall.
      inversion Hall as [|? ? (p & Hp & _) _]; subst. congruence.
Qed.

(** What the loop does to the file system stays with the tags: every
    file it writes and every directory it makes is named by the path of a
    tag, joined to the project directory. *)
Definition ofTags (tags : list FileTag) (ev : Event) : Prop :=
  match ev with
  | ConsoleLog _ => True
  | MkDir d =>
      exists tag path, tag ∈ tags /\ attrPath tag = Some path
                       /\ d = Path.join [Path.join [projectDir; path]; §".."]
  | WriteFile file _ =>
      JS.startsWith file projectDir = true
      /\ exists tag path, tag ∈ tags /\ attrPath tag = Some path
                          /\ file = Path.join [projectDir; path]
  | _ => False
  end.

Lemma ofTags_mono tags tag ev : ofTags tags ev -> ofTags (tag :: tags) ev.
Proof.
  destruct ev; simpl; try done.
  - intros (tag' & p & Hin & H). exists tag', p.
    split; [by apply list_elem_of_further|done].
  - intros (Hst & tag' & p & Hin & H). split; [done|]. exists tag', p.
    split; [by apply list_elem_of_further|done].
Qed.

Lemma writeFiles_ofTags tags generated :
  emits (ofTags tags) (writeFiles fault projectDir tags generated).
Proof.
  revert generated. induction tags as [|tag rest IH]; intros generated; simpl.
  - apply emits_ret.
  - destruct (attrPath tag) as [[|c path]|] eqn:Hpath; try apply emits_throw.
    apply emits_bind; [by apply emits_emit|]. intros _.
    destruct (JS.startsWith _ _) eqn:Hstarts; cbn [negb]; [|apply emits_throw].
    apply emits_bind.
    { apply emits_perform. exists tag, (c :: path).
      split; [apply list_elem_of_here|done]. }
    intros _. apply emits_bind.
    + apply emits_perform. split; [done|]. exists tag, (c :: path).
      split; [apply list_elem_of_here|done].
    + intros _. eapply emits_mono; [|apply IH]. apply ofTags_mono.
Qed.

End GenerateOutcomes.

(** X11. The loop over the file tags always settles.  It runs to its
    end exactly when every tag has a path that is not empty and that,
    joined to the project directory, begins with the project directory,
    and every directory and file can be made; the count it then gives
    has grown by the lengths of the trimmed texts, in UTF-16 code units
    (not in bytes). *)
Theorem writeFiles_resolves_iff :
  forall fault projectDir tags generated w,
    let r := writeFiles fault projectDir tags generated w in
    r.2 <> None
    /\ forall g', r.2 = Some (Resolved g')
                  <-> Forall (writable fault projectDir) tags
                      /\ g' = generated + sumZ (map contentLength tags).
Proof.
  intros fault projectDir tags generated w r.
  pose proof (writeFiles_resolves fault projectDir tags generated w) as H.
  subst r. destruct (writeFiles fault projectDir tags generated w).2 as [[g|e]|];
    [| |done].
  - split; [done|]. intros g'. destruct H as [Hall ->]. split.
    + by intros [= <-].
    + by intros [_ ->].
  - split; [done|]. intros g'. split; [done|]. by intros [? _].
Qed.

(** X12. The loop over the file tags logs, makes directories and
    writes files, nothing else.  Every file it writes is at the path of
    one of the tags joined to the project directory, and that path
    begins, as a string, with the project directory; every directory it
    makes is the parent of such a path. *)
Theorem writeFiles_stays_with_the_tags :
  forall fault projectDir tags generated w,
    let r := writeFiles fault projectDir tags generated w in
    let new := drop (length (trace w)) (trace r.1) in
    trace r.1 = trace w ++ new
    /\ Forall (ofTags projectDir tags) new
    /\ forall file content,
         WriteFile file content ∈ new ->
         (exists rest, file = projectDir ++ rest)
         /\ exists tag path,
              tag ∈ tags /\ attrPath tag = Some path
              /\ file = Path.join [projectDir; path].
Proof.
  intros fault projectDir tags generated w r new.
  destruct (writeFiles_ofTags fault projectDir tags generated w)
    as (new' & Htr & Hall).
  fold r in Htr. assert (new = new') as -> by (subst new; by rewrite Htr, drop_app_length).
  split; [done|]. split; [done|]. intros file content Hin.
  rewrite Forall_forall in Hall. destruct (Hall _ Hin) as [Hst Htag].
  split; [by apply startsWith_prefix|done].
Qed.

Section GenerateTestOutcomes.

Variable askModel : jsstring -> option (Outcome (list ContentBlock)).
Variable stringifyContent : list ContentBlock -> jsstring.
Variable fileTags : jsstring -> list FileTag.
Variable secondsText : Z -> jsstring.
Variable fault : Event -> option jsstring.

(** [generateTest] once the model has answered with one text block. *)
Lemma generateTest_text inputDir outputRoot text w :
  askModel inputDir = Some (Resolved [TextBlock text]) ->
  let projectDir := Path.join [outputRoot; §"project"] in
  generateTest askModel stringifyContent fileTags secondsText fault
    inputDir outputRoot w
  = match fault (MkDir projectDir) with
    | Some l => (w, Some (Rejected (Thrown l)))
    | None =>
        match writeFiles fault projectDir (fileTags (§"<analysis>" ++ text)) 0
                {| now := now w; trace := trace w ++ [MkDir projectDir] |} with
        | (w2, Some (Resolved generated)) =>
            ({| now := now w2;
                trace := trace w2 ++
                  [ConsoleLog (§"Generated " ++ JS.ofZ generated ++ §" bytes in "
                               ++ secondsText (now w2 - now w) ++ §" seconds to "
                               ++ outputRoot)] |},
             Some (Resolved tt))
        | (w2, Some (Rejected e)) => (w2, Some (Rejected e))
        | (w2, None) => (w2, None)
        end
    end.
Proof.
  intros Hask projectDir. unfold generateTest.
  rewrite bind_eq. unfold dateNow at 1. cbn [fst snd].
  rewrite bind_eq, Hask. unfold settle at 1. cbn [fst snd].
  fold projectDir. rewrite perform_bind.
  destruct (fault (MkDir projectDir)) as [l|]; [done|].
  rewrite bind_eq.
  destruct (writeFiles _ _ _ _ _) as [w2 [[generated|e]|]]; [|done|done].
  by unfold_monad.
Qed.

(** [generateTest] when the model has not answered with one text
    block: nothing is done. *)
Lemma generateTest_not_text inputDir outputRoot w :
  (forall text, askModel inputDir <> Some (Resolved [TextBlock text])) ->
  generateTest askModel stringifyContent fileTags secondsText fault
    inputDir outputRoot w
  = (w, match askModel inputDir with
        | Some (Resolved content) =>
            Some (Rejected (NewError (§"Message content is not text: "
                                      ++ stringifyContent content)))
        | Some (Rejected e) => Some (Rejected e)
        | None => None
        end).
Proof.
  intros Hnot. unfold generateTest.
  rewrite bind_eq. unfold dateNow at 1. cbn [fst snd].
  rewrite bind_eq.
  destruct (askModel inputDir) as [[content|e]|]; [|done|done].
  unfold settle at 1. cbn [fst snd].
  destruct content as [|[text|] [|b content]]; try done.
  by destruct (Hnot text).
Qed.

End GenerateTestOutcomes.

(** X13. The generation of one project resolves exactly when the model
    has answered with one block of text, the project directory can be
    made and every file tag of the answer can be written; its last word
    is then the log line with the count of what was generated, the sum of
    the lengths of the trimmed texts.  When the model has not answered
    with one block of text, nothing is made or written: the generation
    is rejected with the error of the request or with "Message content is
    not text", or stays pending with the request. *)
Theorem generateTest_resolves_iff :
  forall askModel stringifyContent fileTags secondsText fault inputDir outputRoot w,
    let r := generateTest askModel stringifyContent fileTags secondsText fault
               inputDir outputRoot w in
    let projectDir := Path.join [outputRoot; §"project"] in
    (r.2 = Some (Resolved tt)
     <-> exists text,
           askModel inputDir = Some (Resolved [TextBlock text])
           /\ fault (MkDir projectDir) = None
           /\ Forall (writable fault projectDir) (fileTags (§"<analysis>" ++ text)))
    /\ (forall text,
          askModel inputDir = Some (Resolved [TextBlock text]) ->
          r.2 = Some (Resolved tt) ->
          exists seconds,
            last (trace r.1)
            = Some (ConsoleLog
                      (§"Generated "
                       ++ JS.ofZ (sumZ (map contentLength
                                          (fileTags (§"<analysis>" ++ text))))
                       ++ §" bytes in " ++ seconds ++ §" seconds to " ++ outputRoot)))
    /\ ((forall text, askModel inputDir <> Some (Resolved [TextBlock text])) ->
        r.1 = w
        /\ r.2 = match askModel inputDir with
                 | Some (Resolved content) =>
                     Some (Rejected (NewError (§"Message content is not text: "
                                               ++ stringifyContent content)))
                 | Some (Rejected e) => Some (Rejected e)
                 | None => None
                 end).
Proof.
  intros askModel stringifyContent fileTags secondsText fault inputDir
         outputRoot w r projectDir.
  assert (forall text,
             askModel inputDir = Some (Resolved [TextBlock text]) ->
             (r.2 = Some (Resolved tt)
              <-> fault (MkDir projectDir) = None
                  /\ Forall (writable fault projectDir)
                       (fileTags (§"<analysis>" ++ text)))
             /\ (r.2 = Some (Resolved tt) ->
                 exists seconds,
                   last (trace r.1)
                   = Some (ConsoleLog
                             (§"Generated "
                              ++ JS.ofZ (sumZ (map contentLength
                                                 (fileTags (§"<analysis>" ++ text))))
                              ++ §" bytes in " ++ seconds ++ §" seconds to "
                              ++ outputRoot)))) as Htext.
  { intros text Hask. subst r.
    rewrite (generateTest_text askModel stringifyContent fileTags secondsText
               fault inputDir outputRoot text w Hask).
    cbv zeta. fold projectDir.
    destruct (fault (MkDir projectDir)) as [l|].
    { cbn [fst snd]. split; [|done]. split; [done|]. by intros [? _]. }
    pose proof (writeFiles_resolves fault projectDir
                  (fileTags (§"<analysis>" ++ text)) 0
                  {| now := now w; trace := trace w ++ [MkDir projectDir] |}) as Hloop.
    destruct (writeFiles _ _ _ _ _) as [w2 [[generated|e]|]];
      cbn [fst snd trace] in *; [| |done].
    - destruct Hloop as [Hall ->]. split; [by split|]. intros _.
      exists (secondsText (now w2 - now w)). by rewrite last_snoc.
    - split; [|done]. split; [done|]. by intros [_ ?]. }
  split; [|split].
  - split.
    + intros Hr.
      destruct (askModel inputDir) as [[[|[text|] [|b content]]|e]|] eqn:Hask;
        try (exfalso; revert Hr; subst r;
             rewrite (generateTest_not_text askModel stringifyContent fileTags
                        secondsText fault inputDir outputRoot w);
             [by rewrite Hask|intros text' Heq; congruence]; fail).
      exists text. split; [done|]. by apply (Htext text).
    + intros (text & Hask & Hmk & Hall). by apply (Htext text).
  - intros text Hask. by apply (Htext text).
  - intros Hnot. subst r.
    by rewrite (generateTest_not_text askModel stringifyContent fileTags
                  secondsText fault inputDir outputRoot w Hnot).
Qed.

(** ** main.ts: what the loops run over *)

(** X14. Discovery gives the names found under the evaluation root, all
    of them and no others, sorted by code units, whatever the filter and
    whatever the category directories hold (or whether they can be read
    at all); it raises exactly when the evaluation root cannot be
    listed. *)
Theorem discover_sorts_root_listing :
  forall readdirSync evalsDir testFilter,
    match readdirSync evalsDir, discover readdirSync evalsDir testFilter with
    | Resolved names, Resolved tests => Sorted jsLe tests /\ tests ≡ₚ names
    | Rejected e, Rejected e' => e = e'
    | _, _ => False
    end.
Proof.
  intros readdirSync evalsDir testFilter.
  destruct (readdirSync evalsDir) as [names|e] eqn:Hroot.
  - rewrite (discover_is_sorted_root readdirSync evalsDir testFilter names Hroot).
    split; [apply sortStrings_sorted|apply sortStrings_permutation].
  - unfold discover. by rewrite Hroot.
Qed.

Lemma isLowSurrogate_not_high d :
  isLowSurrogate d = true -> isHighSurrogate d = false.
Proof.
  unfold isLowSurrogate, isHighSurrogate.
  rewrite andb_true_iff, andb_false_iff, !N.leb_le, !N.leb_gt. lia.
Qed.

(** A code point at the front of a string: the two code units of a
    surrogate pair (a high surrogate followed by a low one), or else one
    code unit, which is then not the high surrogate of a pair. *)
Definition frontCodePoint (s p rest : jsstring) : Prop :=
  s = p ++ rest
  /\ ((exists c d, p = [c; d]
                   /\ isHighSurrogate c = true /\ isLowSurrogate d = true)
      \/ (exists c, p = [c]
                    /\ ~ (isHighSurrogate c = true
                          /\ exists d, head rest = Some d
                                       /\ isLowSurrogate d = true))).

(** The string iterator takes one code point off the front. *)
Lemma codePoints_cons c s :
  exists p rest,
    codePoints (c :: s) = p :: codePoints rest
    /\ frontCodePoint (c :: s) p rest.
Proof.
  destruct s as [|d s].
  { exists [c], []. split; [done|]. split; [done|]. right. exists c.
    split; [done|]. by intros [_ (d & ? & _)]. }
  cbn [codePoints].
  destruct (isHighSurrogate c && isLowSurrogate d) eqn:Hpair.
  - exists [c; d], s. apply andb_true_iff in Hpair as [Hc Hd]. split.
    + pose proof (isLowSurrogate_not_high d Hd) as Hd'.
      destruct s as [|e s]; [done|]. by rewrite Hd'.
    + split; [done|]. left. by exists c, d.
  - exists [c], (d :: s). split; [done|]. split; [done|]. right. exists c.
    split; [done|]. intros [Hc (d' & [= <-] & Hd)].
    by rewrite Hc, Hd in Hpair.
Qed.

(** X15. What the loops take as category and test are the first two
    code points of the discovered name: the category is the code point
    at the front of the name and the test the code point at the front of
    what follows, a code point being the two code units of a surrogate
    pair or else one code unit.  A name of one code point has no test,
    the empty name has neither.  For a name that begins with two code
    units that are not high surrogates (an ASCII name, for one), they
    are its first two code units. *)
Theorem destructure_takes_two_code_points :
  forall t,
    match destructure t with
    | (Some category, Some test) =>
        exists rest rest',
          frontCodePoint t category rest /\ frontCodePoint rest test rest'
    | (Some category, None) => frontCodePoint t category []
    | (None, Some _) => False
    | (None, None) => t = []
    end
    /\ forall a b rest,
         t = a :: b :: rest ->
         isHighSurrogate a = false -> isHighSurrogate b = false ->
         destructure t = (Some [a], Some [b]).
Proof.
  intros t.
  assert (match destructure t with
          | (Some category, Some test) =>
              exists rest rest',
                frontCodePoint t category rest /\ frontCodePoint rest test rest'
          | (Some category, None) => frontCodePoint t category []
          | (None, Some _) => False
          | (None, None) => t = []
          end) as Hfront.
  { unfold destructure. destruct t as [|c s]; [done|].
    destruct (codePoints_cons c s) as (p & rest & -> & Hp).
    cbn [lookup list_lookup]. destruct rest as [|c' s']; [done|].
    destruct (codePoints_cons c' s') as (p' & rest' & -> & Hp').
    simpl. by exists (c' :: s'), rest'. }
  split; [done|]. intros a b rest -> Ha Hb.
  destruct (destructure (a :: b :: rest)) as [[category|] [test|]];
    [| |done|done].
  - destruct Hfront as (r1 & r2 & [Heq1 Hc] & [Heq2 Ht]).
    assert (category = [a] /\ r1 = b :: rest) as [-> ->].
    { destruct Hc as [(c & d & -> & Hhigh & _)|(c & -> & _)].
      - injection Heq1 as <- _. by rewrite Hhigh in Ha.
      - by injection Heq1 as <- <-. }
    assert (test = [b]) as ->; [|done].
    destruct Ht as [(c & d & -> & Hhigh & _)|(c & -> & _)].
    + injection Heq2 as <- _. by rewrite Hhigh in Hb.
    + by injection Heq2 as <- _.
  - destruct Hfront as [Heq Hc].
    destruct Hc as [(c & d & -> & Hhigh & _)|(c & -> & _)]; [|done].
    injection Heq as <- _. by rewrite Hhigh in Ha.
Qed.

(** X16. The [--concurrency] option has no effect: [main] does the
    same, event for event, whatever its value. *)
Theorem concurrency_is_ignored :
  forall apiKey gitRevParse newRegExp readdirSync fault generateTest
         setupJs typecheckJs lintJs deploy options concurrency' w,
    let options' :=
      {| force := force options; evalsDir := evalsDir options;
         outputDir := outputDir options; testFilter := testFilter options;
         skipGeneration := skipGeneration options;
         skipEvaluation := skipEvaluation options;
         concurrency := concurrency'; report := report options |} in
    main apiKey gitRevParse newRegExp readdirSync fault generateTest
      setupJs typecheckJs lintJs deploy options' w
    = main apiKey gitRevParse newRegExp readdirSync fault generateTest
        setupJs typecheckJs lintJs deploy options w.
Proof. intros. by destruct options. Qed.

(** ** main.ts: how the generation phase ends *)








(** ** main.ts: how the evaluation phase ends *)

(** Every stage of the entry is recorded as ["ok"]. *)
Definition entryOk (e : ReportEntry) : bool :=
  forallb (fun kv => isOk kv.2) (stages e).

Definition allStagesOk (entries : list ReportEntry) : Prop :=
  forall e s st, e ∈ entries -> (s, st) ∈ stages e -> status st = §"ok".

Lemma forallb_entryOk entries :
  forallb entryOk entries = true <-> allStagesOk entries.
Proof.
  unfold allStagesOk, entryOk. rewrite forallb_forall. split.
  - intros H e s st He Hst. apply list_elem_of_In in He, Hst.
    specialize (H e He). rewrite forallb_forall in H.
    specialize (H (s, st) Hst). by apply bool_decide_eq_true in H.
  - intros H e He. apply forallb_forall. intros [s st] Hst.
    apply bool_decide_eq_true. apply (H e s st); by apply list_elem_of_In.
Qed.

(** Events other than the writing of the report. *)
Definition notReport (ev : Event) : Prop :=
  match ev with
  | WriteReport _ _ => False
  | _ => True
  end.

Lemma notReport_reportsOf tr : Forall notReport tr -> reportsOf tr = [].
Proof.
  induction 1 as [|ev tr Hev _ IH]; [done|].
  unfold reportsOf in *. destruct ev; simpl; done.
Qed.

Lemma reportsOf_app tr1 tr2 : reportsOf (tr1 ++ tr2) = reportsOf tr1 ++ reportsOf tr2.
Proof. apply omap_app. Qed.

Lemma runStage_notReport s run dir st :
  emits unmarked (run dir) -> emits notReport (runStage s run dir st).
Proof.
  intros Hrun. unfold runStage.
  apply emits_bind; [by apply emits_emit|]. intros _.
  apply emits_tryCatch.
  - apply emits_bind.
    { eapply emits_mono; [|exact Hrun]. by intros []. }
    intros _. apply emits_bind; [by apply emits_emit|]. intros _. apply emits_ret.
  - intros e. apply emits_bind; [apply emits_settle|]. intros msg.
    apply emits_bind; [by apply emits_emit|]. intros _. apply emits_ret.
Qed.

(** The stages of an entry: setup alone when it failed, all four
    otherwise. *)
Definition pipelineShape (e : ReportEntry) : Prop :=
  (exists msg, stages e = [(Setup, failedStatus msg)])
  \/ (exists st1 st2 st3,
        stages e = [(Setup, okStatus); (Typecheck, st1);
                    (Lint, st2); (Deploy, st3)]).

(** How the phase ends once the report is out of the way: resolved when
    every stage of every entry is ["ok"], rejected with "Evaluation
    failed." when one is not. *)
Definition verdictOf (entries : list ReportEntry) (o : option (Outcome unit))
  : Prop :=
  (o = Some (Resolved tt) <-> allStagesOk entries)
  /\ (o = Some (Rejected (NewError (§"Evaluation failed.")))
      <-> ~ allStagesOk entries)
  /\ o <> None.

Section EvaluationOutcome.

Variable fault : Event -> option jsstring.
Variables setupJs typecheckJs lintJs deploy : jsstring -> M unit.
Hypothesis setupJs_ok : wellBehaved setupJs.
Hypothesis typecheckJs_ok : wellBehaved typecheckJs.
Hypothesis lintJs_ok : wellBehaved lintJs.
Hypothesis deploy_ok : wellBehaved deploy.

Lemma evaluateOne_notReport outputDir t :
  emits notReport (evaluateOne setupJs typecheckJs lintJs deploy outputDir t).
Proof.
  unfold evaluateOne. destruct (destructure t) as [c1 c2].
  apply emits_bind; [by apply emits_emit|]. intros _.
  apply emits_bind; [apply emits_settle|]. intros dir.
  apply emits_bind; [apply runStage_notReport, setupJs_ok|]. intros st.
  destruct (setupOk st.1); [|apply emits_ret].
  apply emits_bind; [apply runStage_notReport, typecheckJs_ok|]. intros st1.
  apply emits_bind; [apply runStage_notReport, lintJs_ok|]. intros st2.
  apply runStage_notReport, deploy_ok.
Qed.

Lemma evaluateAll_notReport outputDir tests anyFailed report :
  emits notReport
    (evaluateAll setupJs typecheckJs lintJs deploy outputDir tests anyFailed report).
Proof.
  revert anyFailed report.
  induction tests as [|t tests IH]; intros anyFailed report; simpl.
  - apply emits_ret.
  - apply emits_bind; [apply evaluateOne_notReport|]. intros [entry allOk].
    apply IH.
Qed.

(** The entry of one project: it bears the category and the test, and
    [allOk] says whether every stage recorded is ["ok"]. *)
Lemma evaluateOne_allOk outputDir t c1 c2 w :
  destructure t = (Some c1, Some c2) ->
  exists entry w',
    evaluateOne setupJs typecheckJs lintJs deploy outputDir t w
    = (w', Some (Resolved (entry, entryOk entry)))
    /\ category entry = Some c1 /\ test entry = Some c2.
Proof.
  intros Ht. unfold evaluateOne. rewrite Ht.
  rewrite bind_eq. unfold emit at 1. cbn [fst snd].
  set (w1 := {| now := now w; trace := _ |}).
  rewrite bind_eq. unfold settle, joinArgs.
  cbn [strings fmap option_fmap option_map].
  set (dir := Path.join _).
  set (entry0 := {| category := Some c1; test := Some c2; stages := [] |}).
  rewrite bind_eq.
  destruct (runStage_wellBehaved Setup setupJs dir entry0 true w1 setupJs_ok)
    as (st0 & w2 & -> & _ & _ & Hst0).
  subst entry0. rewrite setStage_fresh by (simpl; apply not_elem_of_nil).
  cbn [fst snd app].
  assert (setupOk {| category := Some c1; test := Some c2;
                     stages := [(Setup, st0)] |} = isOk st0) as ->
    by (unfold setupOk, getStage, isOk; by simpl).
  destruct Hst0 as [->|[msg ->]].
  - rewrite isOk_okStatus. rewrite bind_eq.
    destruct (runStage_wellBehaved Typecheck typecheckJs dir
                {| category := Some c1; test := Some c2;
                   stages := [(Setup, okStatus)] |} (true && true) w2
                typecheckJs_ok) as (st1 & w3 & -> & _ & _ & _).
    rewrite setStage_fresh by fresh_stage. cbn [app].
    rewrite bind_eq.
    destruct (runStage_wellBehaved Lint lintJs dir
                {| category := Some c1; test := Some c2;
                   stages := [(Setup, okStatus); (Typecheck, st1)] |}
                (true && true && isOk st1) w3 lintJs_ok)
      as (st2 & w4 & -> & _ & _ & _).
    rewrite setStage_fresh by fresh_stage. cbn [app].
    destruct (runStage_wellBehaved Deploy deploy dir
                {| category := Some c1; test := Some c2;
                   stages := [(Setup, okStatus); (Typecheck, st1); (Lint, st2)] |}
                (true && true && isOk st1 && isOk st2) w4 deploy_ok)
      as (st3 & w5 & -> & _ & _ & _).
    rewrite setStage_fresh by fresh_stage. cbn [app fst snd].
    exists {| category := Some c1; test := Some c2;
              stages := [(Setup, okStatus); (Typecheck, st1);
                         (Lint, st2); (Deploy, st3)] |}, w5.
    split; [|by split].
    unfold entryOk. cbn [stages forallb snd]. rewrite isOk_okStatus.
    do 3 f_equal. by destruct (isOk st1), (isOk st2), (isOk st3).
  - rewrite isOk_failedStatus. unfold mret, M_ret, ret.
    exists {| category := Some c1; test := Some c2;
              stages := [(Setup, failedStatus msg)] |}, w2.
    split; [|by split].
    unfold entryOk. cbn [stages forallb snd]. by rewrite isOk_failedStatus.
Qed.

(** The entry of one project and the marks of the loop: the stages
    attempted and recorded are those of the entry. *)
Lemma evaluateOne_entry outputDir t c1 c2 w :
  destructure t = (Some c1, Some c2) ->
  exists entry w',
    evaluateOne setupJs typecheckJs lintJs deploy outputDir t w
    = (w', Some (Resolved (entry, entryOk entry)))
    /\ category entry = Some c1 /\ test entry = Some c2
    /\ attemptsOf (trace w') = attemptsOf (trace w) ++ (stages entry).*1
    /\ recordsOf (trace w') = recordsOf (trace w) ++ stages entry
    /\ pipelineShape entry.
Proof.
  intros Ht.
  destruct (evaluateOne_allOk outputDir t c1 c2 w Ht)
    as (entry & w' & Heq & Hc & Htest).
  destruct (evaluateOne_pipeline setupJs typecheckJs lintJs deploy
              setupJs_ok typecheckJs_ok lintJs_ok deploy_ok
              outputDir t c1 c2 w Ht)
    as (entry' & allOk & Hr & Hattempts & Hrecords & Hshape).
  rewrite Heq in Hr, Hattempts, Hrecords. cbn [fst snd] in *.
  injection Hr as <- _. by exists entry, w'.
Qed.

Lemma evaluateAll_outcome outputDir tests anyFailed report w :
  Forall twoCharacters tests ->
  exists entries w',
    evaluateAll setupJs typecheckJs lintJs deploy outputDir tests
      anyFailed report w
    = (w', Some (Resolved (anyFailed || negb (forallb entryOk entries),
                           report ++ entries)))
    /\ Forall2 (fun t e => destructure t = (category e, test e)) tests entries
    /\ attemptsOf (trace w')
       = attemptsOf (trace w) ++ (flat_map stages entries).*1
    /\ recordsOf (trace w') = recordsOf (trace w) ++ flat_map stages entries
    /\ Forall pipelineShape entries.
Proof.
  intros Htests. revert anyFailed report w.
  induction Htests as [|t tests (c1 & c2 & Ht) _ IH]; intros anyFailed report w.
  - exists [], w. simpl. rewrite !app_nil_r, orb_false_r. by repeat split.
  - cbn [evaluateAll]. rewrite bind_eq.
    destruct (evaluateOne_entry outputDir t c1 c2 w Ht)
      as (entry & w1 & -> & Hc & Htest & Ha & Hr & Hshape).
    destruct (IH (if negb (entryOk entry) then true else anyFailed)
                (report ++ [entry]) w1)
      as (entries & w' & Heq & Hall & Ha' & Hr' & Hshapes).
    exists (entry :: entries), w'. split; [|split; [|split; [|split]]].
    + cbn [fst snd]. rewrite Heq, <- app_assoc. cbn [forallb app].
      do 4 f_equal. by destruct (entryOk entry), anyFailed, (forallb entryOk entries).
    + constructor; [|done]. by rewrite Ht, Hc, Htest.
    + rewrite Ha', Ha. cbn [flat_map]. by rewrite fmap_app, app_assoc.
    + rewrite Hr', Hr. cbn [flat_map]. by rewrite app_assoc.
    + by constructor.
Qed.

End EvaluationOutcome.

Lemma evaluation_verdict entries (o : option (Outcome unit)) :
  o = Some (if forallb entryOk entries then Resolved tt
            else Rejected (NewError (§"Evaluation failed."))) ->
  verdictOf entries o.
Proof.
  intros ->. unfold verdictOf. pose proof (forallb_entryOk entries) as Hok.
  destruct (forallb entryOk entries).
  - split; [by split; [intros _; apply Hok|]|]. split; [|done].
    split; [done|]. intros Hnot. by destruct Hnot; apply Hok.
  - split; [|split; [|done]].
    + split; [done|]. intros Hall. by apply Hok in Hall.
    + split; [|done]. intros _ Hall. by apply Hok in Hall.
Qed.

(** X19. With stage functions that settle and raise only errors that
    render, and names of two code points or more, the evaluation phase
    makes one report entry per discovered name, in order, bearing the
    category and the test taken from the name; the stages attempted and
    the outcomes recorded during the phase are those of the entries, in
    order.  Without a report path no report is written.  With one, the
    report is written once the loop is over, all entries at once: when
    the write raises, the phase is rejected with that error and there is
    no report; else the write is the last effect of the phase.  When no
    write has raised, the phase resolves exactly when every stage of
    every entry is ["ok"] and is rejected with "Evaluation failed."
    exactly when one is not. *)
Theorem evaluation_outcome :
  forall fault setupJs typecheckJs lintJs deploy options outputDir tests w,
    wellBehaved setupJs -> wellBehaved typecheckJs ->
    wellBehaved lintJs -> wellBehaved deploy ->
    Forall twoCharacters tests ->
    let r := evaluation fault setupJs typecheckJs lintJs deploy options
               outputDir tests w in
    let new := drop (length (trace w)) (trace r.1) in
    exists entries,
      Forall2 (fun t e => destructure t = (category e, test e)) tests entries
      /\ Forall pipelineShape entries
      /\ attemptsOf new = (flat_map stages entries).*1
      /\ recordsOf new = flat_map stages entries
      /\ match report options with
         | Some (c :: path) =>
             match fault (WriteReport (c :: path) entries) with
             | Some l =>
                 reportsOf new = [] /\ r.2 = Some (Rejected (Thrown l))
             | None =>
                 reportsOf new = [entries]
                 /\ last new = Some (WriteReport (c :: path) entries)
                 /\ verdictOf entries r.2
             end
         | _ => reportsOf new = [] /\ verdictOf entries r.2
         end.
Proof.
  intros fault setupJs typecheckJs lintJs deploy options outputDir tests w
         Hsetup Htypecheck Hlint Hdeploy Htests r new.
  subst new r. unfold evaluation. rewrite bind_eq.
  destruct (evaluateAll_outcome setupJs typecheckJs lintJs deploy
              Hsetup Htypecheck Hlint Hdeploy outputDir tests false [] w Htests)
    as (entries & w' & Heq & Hentries & Hattempts & Hrecords & Hshapes).
  destruct (evaluateAll_notReport setupJs typecheckJs lintJs deploy
              Hsetup Htypecheck Hlint Hdeploy outputDir tests false [] w)
    as (loop & Htr & Hloop).
  rewrite Heq in Htr |- *. cbn [fst snd app orb] in *.
  exists entries. split; [done|]. split; [done|].
  rewrite Htr, attemptsOf_app in Hattempts. apply app_inv_head in Hattempts.
  rewrite Htr, recordsOf_app in Hrecords. apply app_inv_head in Hrecords.
  pose proof (notReport_reportsOf loop Hloop) as Hreports.
  assert (forall tail, drop (length (trace w)) (trace w' ++ tail) = loop ++ tail)
    as Hdrop by (intros tail; by rewrite Htr, <- app_assoc, drop_app_length).
  assert (drop (length (trace w)) (trace w') = loop) as Hdrop0
    by (rewrite <- (app_nil_r (trace w')), Hdrop; by rewrite app_nil_r).
  rewrite bind_eq.
  destruct (report options) as [[|c path]|].
  - unfold mret, M_ret, ret. cbn [fst snd].
    destruct (forallb entryOk entries) eqn:Hb; cbn [negb]; unfold throw;
      cbn [fst snd]; rewrite Hdrop0;
      (split; [done|]); (split; [done|]); (split; [done|]);
      apply evaluation_verdict; by rewrite Hb.
  - unfold perform.
    destruct (fault (WriteReport (c :: path) entries)) as [l|].
    + unfold throw. cbn [fst snd]. rewrite Hdrop0. by repeat split.
    + unfold emit. cbn [fst snd].
      destruct (forallb entryOk entries) eqn:Hb; cbn [negb];
        unfold throw, mret, M_ret, ret; cbn [fst snd trace]; rewrite Hdrop;
        rewrite attemptsOf_app, recordsOf_app, reportsOf_app, Hreports,
          Hattempts, Hrecords; cbn; rewrite !app_nil_r;
        (split; [done|]); (split; [done|]); (split; [done|]);
        (split; [by rewrite last_snoc|]);
        apply evaluation_verdict; by rewrite Hb.
  - unfold mret, M_ret, ret. cbn [fst snd].
    destruct (forallb entryOk entries) eqn:Hb; cbn [negb]; unfold throw;
      cbn [fst snd]; rewrite Hdrop0;
      (split; [done|]); (split; [done|]); (split; [done|]);
      apply evaluation_verdict; by rewrite Hb.
Qed.

(** [JSON.parse] on the output of the failing linter. *)
Definition parseRecords : jsstring -> option JSON := fun text =>
  if bool_decide (text = lintRecordText) then Some (JArr [lintRecord]) else None.

Lemma lintExits_total r cmd args cwd : lintExits r cmd args cwd <> None.
Proof. unfold lintExits. by destruct (bool_decide _). Qed.

Lemma parseRecords_renders r : renders (lintError parseRecords r).
Proof.
  unfold lintError, parseRecords.
  destruct (bool_decide (output r = lintRecordText)).
  - by eexists.
  - by apply plain_toString.
Qed.

(** The stage functions of the harness on one project whose lint stage
    fails, with a backend that is up at the first probe and a report
    that can be written. *)
Lemma evaluation_outcome_witness :
  let r := evaluation noFault
             (setupJs (lintExits lintFails)) (typecheckJs (lintExits lintFails))
             (lintJs (lintExits lintFails) parseRecords)
             (deploy healthy onTime running (lintExits lintFails) noFault
                (§"/harness") (Z.to_nat 10002))
             (exampleOptions true) (§"out") [§"basic"] w0 in
  let new := drop (length (trace w0)) (trace r.1) in
  exists entries,
    Forall2 (fun t e => destructure t = (category e, test e)) [§"basic"] entries
    /\ Forall pipelineShape entries
    /\ attemptsOf new = (flat_map stages entries).*1
    /\ recordsOf new = flat_map stages entries
    /\ reportsOf new = [entries]
    /\ last new = Some (WriteReport (§"report.json") entries)
    /\ verdictOf entries r.2.
Proof.
  apply (evaluation_outcome noFault
           (setupJs (lintExits lintFails)) (typecheckJs (lintExits lintFails))
           (lintJs (lintExits lintFails) parseRecords)
           (deploy healthy onTime running (lintExits lintFails) noFault
              (§"/harness") (Z.to_nat 10002))
           (exampleOptions true) (§"out") [§"basic"] w0).
  - apply setupJs_wellBehaved, lintExits_total.
  - apply typecheckJs_wellBehaved, lintExits_total.
  - apply lintJs_wellBehaved; [apply lintExits_total|apply parseRecords_renders].
  - apply deploy_wellBehaved.
    + apply lintExits_total.
    + intros n. simpl. lia.
    + intros n. unfold onTime. lia.
    + intros n. simpl. unfold onTime. lia.
    + by vm_compute.
    + done.
  - constructor; [|constructor]. exists (§"b"), (§"a"). by vm_compute.
Defined.

(** ** main.ts: a discovered name of a single code point *)

Section ShortNames.

Variables setupJs typecheckJs lintJs deploy : jsstring -> M unit.

(** The loop over a list that is split in two. *)
Lemma evaluateAll_app outputDir pre rest anyFailed report w :
  evaluateAll setupJs typecheckJs lintJs deploy outputDir (pre ++ rest)
    anyFailed report w
  = match evaluateAll setupJs typecheckJs lintJs deploy outputDir pre
            anyFailed report w with
    | (w1, Some (Resolved (anyFailed', report'))) =>
        evaluateAll setupJs typecheckJs lintJs deploy outputDir rest
          anyFailed' report' w1
    | (w1, Some (Rejected e)) => (w1, Some (Rejected e))
    | (w1, None) => (w1, None)
    end.
Proof.
  revert anyFailed report w.
  induction pre as [|t pre IH]; intros anyFailed report w; [done|].
  cbn [evaluateAll app]. rewrite !bind_eq.
  destruct (evaluateOne _ _ _ _ _ _ _) as [w1 [[[entry allOk]|e]|]]; [|done|done].
  apply IH.
Qed.

(** The loop body for a name that has no second code point. *)
Lemma evaluateOne_short outputDir t category w :
  destructure t = (category, None) ->
  evaluateOne setupJs typecheckJs lintJs deploy outputDir t w
  = ({| now := now w;
        trace := trace w ++ [ConsoleLog (§"Evaluating " ++ show category
                                         ++ §"/" ++ §"undefined" ++ §"...")] |},
     Some (Rejected (TypeError
       (§"The path argument must be of type string. Received undefined")))).
Proof.
  intros Ht. unfold evaluateOne. rewrite Ht.
  rewrite bind_eq. unfold emit at 1. cbn [fst snd].
  rewrite bind_eq. unfold settle, joinArgs.
  by destruct category.
Qed.

End ShortNames.

(** X20. A discovered name of a single code point stops the evaluation
    phase: the loop has no test to join to the output directory, and the
    [TypeError] of [path.join] is raised outside the [try] blocks of the
    stages.  The phase is rejected with it right after the line
    "Evaluating .../undefined..." is logged; the names after it are not
    evaluated and no report is written, not even for the names evaluated
    before it. *)
Theorem short_name_aborts_evaluation :
  forall fault setupJs typecheckJs lintJs deploy options outputDir
         pre t rest category w,
    wellBehaved setupJs -> wellBehaved typecheckJs ->
    wellBehaved lintJs -> wellBehaved deploy ->
    Forall twoCharacters pre ->
    destructure t = (category, None) ->
    let r := evaluation fault setupJs typecheckJs lintJs deploy options
               outputDir (pre ++ t :: rest) w in
    let new := drop (length (trace w)) (trace r.1) in
    r.2 = Some (Rejected (TypeError
            (§"The path argument must be of type string. Received undefined")))
    /\ reportsOf new = []
    /\ last new = Some (ConsoleLog (§"Evaluating " ++ show category
                                    ++ §"/" ++ §"undefined" ++ §"...")).
Proof.
  intros fault setupJs typecheckJs lintJs deploy options outputDir
         pre t rest category w Hsetup Htypecheck Hlint Hdeploy Hpre Ht r new.
  subst new r. unfold evaluation. rewrite bind_eq, evaluateAll_app.
  destruct (evaluateAll_outcome setupJs typecheckJs lintJs deploy
              Hsetup Htypecheck Hlint Hdeploy outputDir pre false [] w Hpre)
    as (entries & w' & Heq & Hentries).
  destruct (evaluateAll_notReport setupJs typecheckJs lintJs deploy
              Hsetup Htypecheck Hlint Hdeploy outputDir pre false [] w)
    as (loop & Htr & Hloop).
  rewrite Heq in Htr |- *. cbn [fst snd] in Htr.
  cbn [evaluateAll]. rewrite bind_eq.
  rewrite (evaluateOne_short setupJs typecheckJs lintJs deploy outputDir t
             category w' Ht).
  cbn [fst snd trace]. rewrite Htr, <- app_assoc, drop_app_length.
  split; [done|]. split.
  - rewrite reportsOf_app, (notReport_reportsOf loop Hloop). done.
  - rewrite app_assoc. by rewrite last_snoc.
Qed.

(** A category directory [x] after a category directory [basic]. *)
Lemma short_name_aborts_evaluation_witness :
  let r := evaluation noFault
             (setupJs (lintExits lintPasses)) (typecheckJs (lintExits lintPasses))
             (lintJs (lintExits lintPasses) parseRecords)
             (deploy healthy onTime running (lintExits lintPasses) noFault
                (§"/harness") (Z.to_nat 10002))
             (exampleOptions true) (§"out") ([§"basic"] ++ §"x" :: []) w0 in
  let new := drop (length (trace w0)) (trace r.1) in
  r.2 = Some (Rejected (TypeError
          (§"The path argument must be of type string. Received undefined")))
  /\ reportsOf new = []
  /\ last new = Some (ConsoleLog (§"Evaluating " ++ show (Some (§"x"))
                                  ++ §"/" ++ §"undefined" ++ §"...")).
Proof.
  apply (short_name_aborts_evaluation noFault
           (setupJs (lintExits lintPasses)) (typecheckJs (lintExits lintPasses))
           (lintJs (lintExits lintPasses) parseRecords)
           (deploy healthy onTime running (lintExits lintPasses) noFault
              (§"/harness") (Z.to_nat 10002))
           (exampleOptions true) (§"out") [§"basic"] (§"x") [] (Some (§"x")) w0).
  - apply setupJs_wellBehaved, lintExits_total.
  - apply typecheckJs_wellBehaved, lintExits_total.
  - apply lintJs_wellBehaved; [apply lintExits_total|apply parseRecords_renders].
  - apply deploy_wellBehaved.
    + apply lintExits_total.
    + intros n. simpl. lia.
    + intros n. unfold onTime. lia.
    + intros n. simpl. unfold onTime. lia.
    + by vm_compute.
    + done.
  - constructor; [|constructor]. exists (§"b"), (§"a"). by vm_compute.
  - by vm_compute.
Defined.

(** ** main.ts and typescript.ts: a linter that prints a JSON string *)

(** X21. When the linter exits with another code than 0 and its output
    parses as a JSON string, the error of the lint stage carries that
    string as its metadata, and rendering it in the [catch] block of the
    evaluation loop raises a [TypeError]: the stage is attempted, its
    outcome is not recorded, and the [TypeError] leaves the loop.
    [errorStatus] would have made of the same error a status ["failed"]
    with the string. *)
Theorem lint_string_output_leaves_the_loop :
  forall exec JSON_parse dir st w r s,
    exec (§"bunx")
      [§"eslint"; §"-c"; §"eslint.config.mjs";
       Path.join [dir; §"project"; §"convex"]] None = Some r ->
    code r <> Some 0 ->
    JSON_parse (output r) = Some (JStr s) ->
    let res := runStage Lint (lintJs exec JSON_parse) dir st w in
    let new := drop (length (trace w)) (trace res.1) in
    res.2 = Some (Rejected (TypeError (§"this.metadata.join is not a function")))
    /\ attemptsOf new = [Lint]
    /\ recordsOf new = []
    /\ errorStatus (NewVerificationError (§"Linting failed") (JStr s))
       = Resolved {| status := §"failed"; error := Some (JStr s) |}.
Proof.
  intros exec JSON_parse dir st w r s Hexec Hcode Hparse. cbv zeta.
  rewrite runStage_eq. unfold lintJs, spawnClose.
  rewrite !bind_eq. unfold emit. rewrite Hexec. unfold mret, M_ret, ret.
  rewrite bool_decide_eq_false_2 by done. rewrite Hparse.
  cbn [stripErrors]. unfold throw. cbn [toString fst snd now trace].
  rewrite <- !app_assoc, drop_app_length. done.
Qed.

Lemma lint_string_output_leaves_the_loop_witness :
  (runStage Lint (lintJs (lintExits lintPrintsString) exampleParse)
     (§"out/evals/b/a") (emptyEntry, true) w0).2
  = Some (Rejected (TypeError (§"this.metadata.join is not a function"))).
Proof.
  apply (lint_string_output_leaves_the_loop (lintExits lintPrintsString)
           exampleParse (§"out/evals/b/a") (emptyEntry, true) w0
           lintPrintsString (§"x")).
  - by vm_compute.
  - done.
  - by vm_compute.
Defined.
